(** * HyperWatch: deduplicator, notification gate and stream client

    A shallow embedding of three modules of the HyperWatch repository,

    - [hyperwatch/core/event_deduplicator.py]   (module [Dedup]),
    - [hyperwatch/notifications/dispatcher.py]  (module [Dispatcher]),
    - [hyperwatch/core/hypercore_client.py]     (module [Client]),

    and the properties of them that the specification states; then of the
    rest of these modules (modules [Logging], [Monitor], [ClientRun],
    [DedupStatus] and [Dispatch]) and of the rule evaluation of
    [hyperwatch/alerts/triggers.py], [rules.py] and [engine.py] (modules
    [Triggers] and [Engine]) and of the token look-up of
    [hyperwatch/core/coin_mapper.py] (module [CoinMapper]), with further
    properties of the code.

    Conventions of the embedding.

    - Python dictionaries are finite maps ([gmap]); a missing key is [None].
      Iteration over a dictionary is modelled by [map_to_list].  The general
      statements below hold for every order of iteration; in the concrete
      runs the order of [map_to_list] is the insertion order that Python
      follows.
    - Clock readings ([time.time()]) are explicit arguments of the functions
      that read the clock, in the order in which the source reads it.  Times
      and dollar amounts are integers ([Z]): the source only compares, adds
      and floor-divides them.
    - An event (a Python [dict]) is a record of the keys the three modules
      read; an absent key is [None], and [dict.get(k, d)] is [default d].
    - Logging is not modelled. *)

From Stdlib Require Import ZArith String Ascii List Lia.
From stdpp Require Import base tactics option list gmap strings pretty.

Local Open Scope Z_scope.

(** ** Python helpers *)

Module Py.

(** [s[:n]] on a string. *)
Definition take_str (n : nat) (s : string) : string := String.substring 0 n s.

(** Truthiness of a string: the empty string is false. *)
Definition truthy_str (s : string) : bool :=
  match s with EmptyString => false | _ => true end.

End Py.

(** ** Events *)

(** The keys of an event dictionary that the deduplicator and the dispatcher
    read: ["wallet"], ["user"], ["coin"], ["type"] and ["usd_value"]. *)
Record Event := mkEvent {
  ev_wallet : option string;
  ev_user : option string;
  ev_coin : option string;
  ev_type : option string;
  ev_usd_value : option Z
}.

#[global] Instance Event_eq_dec : EqDecision Event.
Proof. solve_decision. Defined.

(** ** The event deduplicator ([event_deduplicator.py]) *)

Module Dedup.

Record EventDeduplicator := mkDedup {
  window_seconds : Z;
  max_similar_events : Z;
  event_signatures : gmap string (list Z);       (* signature -> [timestamp, ...] *)
  suppressed_events : gmap string (list Event);  (* signature -> [event, ...] *)
  wallet_event_counts : gmap string Z;
  last_cleanup : Z;
  last_summary_time : Z;
  summary_interval : Z
}.

(** [EventDeduplicator.__init__]; [now] is the value of the two
    [time.time()] reads of the constructor. *)
Definition init (now : Z) (window_seconds max_similar_events : Z) : EventDeduplicator :=
  {| window_seconds := window_seconds;
     max_similar_events := max_similar_events;
     event_signatures := ∅;
     suppressed_events := ∅;
     wallet_event_counts := ∅;
     last_cleanup := now;
     last_summary_time := now;
     summary_interval := 300 |}.

(** The keyword defaults of [__init__]. *)
Definition init_default (now : Z) : EventDeduplicator := init now 120 2.

(** The module-level instance [event_deduplicator], the one the parser uses. *)
Definition event_deduplicator (now : Z) : EventDeduplicator := init now 180 2.

(** The chain of comparisons of [_generate_signature]. *)
Definition value_range (usd_value : Z) : string :=
  if usd_value <? 10 then "micro"
  else if usd_value <? 100 then "small"
  else if usd_value <? 1000 then "medium"
  else if usd_value <? 10000 then "large"
  else if usd_value <? 100000 then "xlarge"
  else "whale".

(** [int(time.time() // 300)]. *)
Definition time_bucket (now : Z) : Z := now / 300.

Definition wallet_prefix (event : Event) : string :=
  Py.take_str 12 (default "unknown" (ev_wallet event)).

(** The string that is hashed. *)
Definition signature_data (event : Event) (now : Z) : string :=
  wallet_prefix event +:+ ":" +:+
  default "unknown" (ev_coin event) +:+ ":" +:+
  default "unknown" (ev_type event) +:+ ":" +:+
  value_range (default 0 (ev_usd_value event)) +:+ ":" +:+
  pretty (time_bucket now).

(** The value bucket in the words of the specification: six buckets with
    boundaries at 10, 100, 1000, 10000 and 100000. *)
Definition spec_value_bucket (usd_value : Z) : nat :=
  if decide (usd_value < 10) then 0
  else if decide (usd_value < 100) then 1
  else if decide (usd_value < 1000) then 2
  else if decide (usd_value < 10000) then 3
  else if decide (usd_value < 100000) then 4
  else 5.

(** The five inputs of the signature according to the specification:
    wallet prefix, coin, type, value bucket and five-minute time bucket. *)
Definition signature_inputs (event : Event) (now : Z) : string * string * string * nat * Z :=
  (wallet_prefix event,
   default "unknown" (ev_coin event),
   default "unknown" (ev_type event),
   spec_value_bucket (default 0 (ev_usd_value event)),
   now / 300).

Section WithHash.

(** [hashlib.md5(s.encode()).hexdigest()], a library function. *)
Variable md5_hexdigest : string → string.

Definition _generate_signature (event : Event) (now : Z) : string :=
  Py.take_str 16 (md5_hexdigest (signature_data event now)).

(** The list comprehension of the clean-up loop, with the deletion of a
    signature whose list becomes empty. *)
Definition prune (cutoff : Z) (timestamps : list Z) : option (list Z) :=
  match filter (λ ts, cutoff < ts) timestamps with
  | [] => None
  | l => Some l
  end.

Definition _cleanup_old_entries (d : EventDeduplicator) (now : Z) : EventDeduplicator :=
  if now - last_cleanup d <? 120 then d
  else
    let cutoff := now - window_seconds d in
    let sigs := omap (prune cutoff) (event_signatures d) in
    {| window_seconds := window_seconds d;
       max_similar_events := max_similar_events d;
       event_signatures := sigs;
       suppressed_events :=
         filter (λ kv, is_Some (sigs !! kv.1)) (suppressed_events d);
       wallet_event_counts := wallet_event_counts d;
       last_cleanup := now;
       last_summary_time := last_summary_time d;
       summary_interval := summary_interval d |}.

(** "Initialize signature tracking if needed". *)
Definition ensure_signature (d : EventDeduplicator) (signature : string) : EventDeduplicator :=
  match event_signatures d !! signature with
  | Some _ => d
  | None =>
    {| window_seconds := window_seconds d;
       max_similar_events := max_similar_events d;
       event_signatures := <[signature := []]> (event_signatures d);
       suppressed_events := <[signature := []]> (suppressed_events d);
       wallet_event_counts := wallet_event_counts d;
       last_cleanup := last_cleanup d;
       last_summary_time := last_summary_time d;
       summary_interval := summary_interval d |}
  end.

(** "Count recent events with same signature". *)
Definition recent_count (d : EventDeduplicator) (signature : string) (now : Z) : Z :=
  Z.of_nat (length (filter (λ ts, now - ts ≤ window_seconds d)
                           (default [] (event_signatures d !! signature)))).

(** [self.event_signatures[signature].append(now)]. *)
Definition record_admission (d : EventDeduplicator) (signature : string) (now : Z)
  : EventDeduplicator :=
  {| window_seconds := window_seconds d;
     max_similar_events := max_similar_events d;
     event_signatures :=
       <[signature := default [] (event_signatures d !! signature) ++ [now]]>
         (event_signatures d);
     suppressed_events := suppressed_events d;
     wallet_event_counts := wallet_event_counts d;
     last_cleanup := last_cleanup d;
     last_summary_time := last_summary_time d;
     summary_interval := summary_interval d |}.

(** "Track wallet activity". *)
Definition count_wallet (d : EventDeduplicator) (wallet : string) : EventDeduplicator :=
  {| window_seconds := window_seconds d;
     max_similar_events := max_similar_events d;
     event_signatures := event_signatures d;
     suppressed_events := suppressed_events d;
     wallet_event_counts :=
       <[wallet := default 0 (wallet_event_counts d !! wallet) + 1]>
         (wallet_event_counts d);
     last_cleanup := last_cleanup d;
     last_summary_time := last_summary_time d;
     summary_interval := summary_interval d |}.

(** [self.suppressed_events[signature].append(event)]. *)
Definition suppress (d : EventDeduplicator) (signature : string) (event : Event)
  : EventDeduplicator :=
  {| window_seconds := window_seconds d;
     max_similar_events := max_similar_events d;
     event_signatures := event_signatures d;
     suppressed_events :=
       <[signature := default [] (suppressed_events d !! signature) ++ [event]]>
         (suppressed_events d);
     wallet_event_counts := wallet_event_counts d;
     last_cleanup := last_cleanup d;
     last_summary_time := last_summary_time d;
     summary_interval := summary_interval d |}.

(** The three clock readings of one call, in program order: the one of
    [_cleanup_old_entries], the one of [_generate_signature] and the
    one of [should_allow_event] itself. *)
Record Clock := mkClock { t_cleanup : Z; t_signature : Z; t_now : Z }.

(** A clock that does not run backwards during the call. *)
Definition clock_ok (c : Clock) : Prop :=
  t_cleanup c ≤ t_signature c ∧ t_signature c ≤ t_now c.

(** The state in which the admission decision is taken, and the decision. *)
Definition prepared (d : EventDeduplicator) (event : Event) (c : Clock) : EventDeduplicator :=
  ensure_signature (_cleanup_old_entries d (t_cleanup c))
                   (_generate_signature event (t_signature c)).

Definition should_allow_event (d : EventDeduplicator) (event : Event) (c : Clock)
  : bool * EventDeduplicator :=
  let d1 := _cleanup_old_entries d (t_cleanup c) in
  let signature := _generate_signature event (t_signature c) in
  let now := t_now c in
  let wallet := default "unknown" (ev_wallet event) in
  let usd_value := default 0 (ev_usd_value event) in
  let d2 := ensure_signature d1 signature in
  let recent := recent_count d2 signature now in
  if 50000 <=? usd_value then
    (true, record_admission d2 signature now)
  else if (10000 <=? usd_value) && (recent <? max_similar_events d2 * 2) then
    (true, record_admission d2 signature now)
  else if recent <? max_similar_events d2 then
    (true, count_wallet (record_admission d2 signature now) wallet)
  else
    (false, suppress d2 signature event).

(** The dictionary returned by [get_suppressed_summary], without its
    constant ["type"] key and its rendered ["summary_message"]. *)
Record Summary := mkSummary {
  sm_wallet : string;
  sm_suppressed_count : Z;
  sm_event_types : list string;
  sm_coins : list string;
  sm_total_usd_value : Z;
  sm_time_window : Z;
  sm_activity_level : string
}.

Definition activity_level (total_count : Z) : string :=
  if 10 <=? total_count then "High Bot Activity"
  else if 5 <=? total_count then "Moderate Bot Activity"
  else "Similar Events".

Definition sum_usd (events : list Event) : Z :=
  foldr (λ e acc, default 0 (ev_usd_value e) + acc) 0 events.

(** [list(set(...))]: the distinct values; Python leaves their order
    unspecified, here it is the order of first occurrence. *)
Definition distinct (l : list string) : list string := remove_dups l.

Definition summarize (window : Z) (events : list Event) : option Summary :=
  match events with
  | [] => None
  | first :: _ =>
    let total_count := Z.of_nat (length events) in
    Some {| sm_wallet := default "unknown" (ev_wallet first);
            sm_suppressed_count := total_count;
            sm_event_types :=
              distinct (map (λ e, default "unknown" (ev_type e)) events);
            sm_coins :=
              distinct (map (λ e, default "unknown" (ev_coin e)) events);
            sm_total_usd_value := sum_usd events;
            sm_time_window := window;
            sm_activity_level := activity_level total_count |}
  end.

Definition get_suppressed_summary (d : EventDeduplicator) (signature : string)
  : option Summary :=
  match suppressed_events d !! signature with
  | None => None
  | Some events => summarize (window_seconds d) events
  end.

Definition clear_suppressed (d : EventDeduplicator) (signature : string) : EventDeduplicator :=
  {| window_seconds := window_seconds d;
     max_similar_events := max_similar_events d;
     event_signatures := event_signatures d;
     suppressed_events := <[signature := []]> (suppressed_events d);
     wallet_event_counts := wallet_event_counts d;
     last_cleanup := last_cleanup d;
     last_summary_time := last_summary_time d;
     summary_interval := summary_interval d |}.

(** The body of the loop of [get_all_suppressed_summaries]. *)
Definition summary_step (acc : list Summary * EventDeduplicator) (signature : string)
  : list Summary * EventDeduplicator :=
  let '(summaries, d) := acc in
  match get_suppressed_summary d signature with
  | Some summary =>
    if 3 <=? sm_suppressed_count summary
    then (summaries ++ [summary], clear_suppressed d signature)
    else (summaries, d)
  | None => (summaries, d)
  end.

Definition set_last_summary_time (d : EventDeduplicator) (now : Z) : EventDeduplicator :=
  {| window_seconds := window_seconds d;
     max_similar_events := max_similar_events d;
     event_signatures := event_signatures d;
     suppressed_events := suppressed_events d;
     wallet_event_counts := wallet_event_counts d;
     last_cleanup := last_cleanup d;
     last_summary_time := now;
     summary_interval := summary_interval d |}.

(** The snapshot [list(self.suppressed_events.keys())]. *)
Definition suppressed_keys (d : EventDeduplicator) : list string :=
  (map_to_list (suppressed_events d)).*1.

Definition get_all_suppressed_summaries (d : EventDeduplicator) (now : Z)
  : list Summary * EventDeduplicator :=
  if now - last_summary_time d <? summary_interval d then ([], d)
  else
    let '(summaries, d') := foldl summary_step ([], d) (suppressed_keys d) in
    match summaries with
    | [] => (summaries, d')
    | _ => (summaries, set_last_summary_time d' now)
    end.

(** The signatures "whose suppressed list holds at least 3 events". *)
Definition qualifying (d : EventDeduplicator) : list string :=
  filter (λ s, (3 ≤ length (default [] (suppressed_events d !! s)))%nat) (suppressed_keys d).

(** What the specification says a summary of the suppressed events [evs]
    contains: the wallet, the count, the total value, the distinct coins,
    the distinct event types and the label of the activity level. *)
Definition summary_describes (evs : list Event) (sm : Summary) : Prop :=
  sm_wallet sm = default "unknown" (head evs ≫= ev_wallet)
  ∧ sm_suppressed_count sm = Z.of_nat (length evs)
  ∧ sm_total_usd_value sm = foldr Z.add 0 ((λ e, default 0 (ev_usd_value e)) <$> evs)
  ∧ NoDup (sm_coins sm)
  ∧ (∀ coin, coin ∈ sm_coins sm ↔ ∃ e, e ∈ evs ∧ default "unknown" (ev_coin e) = coin)
  ∧ NoDup (sm_event_types sm)
  ∧ (∀ ty, ty ∈ sm_event_types sm ↔ ∃ e, e ∈ evs ∧ default "unknown" (ev_type e) = ty)
  ∧ sm_activity_level sm =
      (if decide (10 ≤ Z.of_nat (length evs)) then "High Bot Activity"
       else if decide (5 ≤ Z.of_nat (length evs)) then "Moderate Bot Activity"
       else "Similar Events").

(** Two states that differ at most in their suppressed events. *)
Definition same_but_suppressed (d d' : EventDeduplicator) : Prop :=
  window_seconds d' = window_seconds d
  ∧ max_similar_events d' = max_similar_events d
  ∧ event_signatures d' = event_signatures d
  ∧ wallet_event_counts d' = wallet_event_counts d
  ∧ last_cleanup d' = last_cleanup d
  ∧ last_summary_time d' = last_summary_time d
  ∧ summary_interval d' = summary_interval d.

End WithHash.

End Dedup.

(** ** Runs of the deduplicator

    The admissions of a run, with the tier that admitted each of them, are
    kept in a log next to the state; the log is not part of the program. *)

Module DedupRun.
Import Dedup.

Inductive Tier := Standard | Medium | High.

#[global] Instance Tier_eq_dec : EqDecision Tier.
Proof. solve_decision. Defined.



Inductive Call :=
| CallAllow (event : Event) (c : Clock)   (* should_allow_event(event) *)
| CallSummaries (now : Z).                (* get_all_suppressed_summaries() *)

Section WithHash.
Variable md5_hexdigest : string → string.



(** The decisions of a sequence of [should_allow_event] calls. *)
Fixpoint decisions (d : EventDeduplicator) (calls : list (Event * Clock)) : list bool :=
  match calls with
  | [] => []
  | (event, c) :: rest =>
    let r := should_allow_event md5_hexdigest d event c in
    r.1 :: decisions r.2 rest
  end.

Fixpoint state_after (d : EventDeduplicator) (calls : list (Event * Clock)) : EventDeduplicator :=
  match calls with
  | [] => d
  | (event, c) :: rest => state_after (should_allow_event md5_hexdigest d event c).2 rest
  end.

End WithHash.

(** The clock never runs backwards: [since] is the last reading so far. *)
Fixpoint calls_ordered (since : Z) (calls : list Call) : Prop :=
  match calls with
  | [] => True
  | CallAllow _ c :: rest =>
    since ≤ t_cleanup c ∧ clock_ok c ∧ calls_ordered (t_now c) rest
  | CallSummaries now :: rest => since ≤ now ∧ calls_ordered now rest
  end.






End DedupRun.

(** ** The notification dispatcher ([dispatcher.py]) *)

Module Dispatcher.

Definition CHANNEL_HANDLERS : list string := ["webhook"; "telegram"; "discord"; "email"].

Definition CHANNEL_COOLDOWNS : gmap string Z :=
  <["webhook" := 15]> (<["telegram" := 45]> (<["discord" := 45]> (<["email" := 60]> ∅))).

Record NotificationRateLimiter := mkLimiter {
  cooldowns : gmap string Z;
  last_sent : gmap (string * string) Z;                (* (channel, wallet_key) -> timestamp *)
  pending_events : gmap (string * string) (list Event) (* (channel, wallet_key) -> [event, ...] *)
}.

(** [NotificationRateLimiter.__init__]. *)
Definition init (cooldowns : gmap string Z) : NotificationRateLimiter :=
  {| cooldowns := cooldowns; last_sent := ∅; pending_events := ∅ |}.

(** The module-level instance [notification_rate_limiter]. *)
Definition notification_rate_limiter : NotificationRateLimiter := init CHANNEL_COOLDOWNS.

Definition _get_wallet_key (event : Event) : string :=
  let wallet :=
    match ev_wallet event with
    | Some w => if Py.truthy_str w then w else default "global" (ev_user event)
    | None => default "global" (ev_user event)
    end in
  if Py.truthy_str wallet && (8 <? String.length wallet)%nat
  then Py.take_str 8 wallet +:+ "..."
  else wallet.

Definition _get_key (channel wallet_key : string) : string * string := (channel, wallet_key).

(** [self.cooldowns.get(channel, 30)]. *)
Definition cooldown_of (st : NotificationRateLimiter) (channel : string) : Z :=
  default 30 (cooldowns st !! channel).

(** [self.last_sent.get(key, 0)]. *)
Definition last_time (st : NotificationRateLimiter) (key : string * string) : Z :=
  default 0 (last_sent st !! key).

Definition set_last_sent (st : NotificationRateLimiter) (key : string * string) (now : Z)
  : NotificationRateLimiter :=
  {| cooldowns := cooldowns st;
     last_sent := <[key := now]> (last_sent st);
     pending_events := pending_events st |}.

Definition can_send_notification (st : NotificationRateLimiter) (now : Z)
    (channel wallet_key : string) : bool * NotificationRateLimiter :=
  let key := _get_key channel wallet_key in
  let can_send := cooldown_of st channel <? now - last_time st key in
  if can_send then (true, set_last_sent st key now) else (false, st).

Definition add_pending_event (st : NotificationRateLimiter) (channel wallet_key : string)
    (event : Event) : NotificationRateLimiter :=
  let key := _get_key channel wallet_key in
  {| cooldowns := cooldowns st;
     last_sent := last_sent st;
     pending_events :=
       <[key := default [] (pending_events st !! key) ++ [event]]> (pending_events st) |}.

Definition get_pending_events (st : NotificationRateLimiter) (channel wallet_key : string)
  : list Event :=
  default [] (pending_events st !! _get_key channel wallet_key).

Definition clear_pending_events (st : NotificationRateLimiter) (channel wallet_key : string)
  : NotificationRateLimiter :=
  {| cooldowns := cooldowns st;
     last_sent := last_sent st;
     pending_events := delete (_get_key channel wallet_key) (pending_events st) |}.

(** What happens inside the [try] of [_send_notification]: the message is
    rendered and handed to the channel handler, or an exception is raised,
    caught and logged.  Rendering and the handlers are collaborators; their
    behaviour is an input of the model. *)
Inductive send_outcome := Sent | Raised.

#[global] Instance send_outcome_eq_dec : EqDecision send_outcome.
Proof. solve_decision. Defined.

(** One call of a channel handler. *)
Record Delivery := mkDelivery {
  dl_channel : string;
  dl_events : list Event;
  dl_outcome : send_outcome
}.

(** [_send_notification]: nothing is attempted for a channel without a
    handler.  The limiter is not an argument: the method does not touch it. *)
Definition _send_notification (channel : string) (events : list Event) (o : send_outcome)
  : option Delivery :=
  if bool_decide (channel ∈ CHANNEL_HANDLERS)
  then Some {| dl_channel := channel; dl_events := events; dl_outcome := o |}
  else None.

Definition process_event_notification (st : NotificationRateLimiter) (now : Z)
    (channel : string) (event : Event) (o : send_outcome)
  : NotificationRateLimiter * option Delivery :=
  let wallet_key := _get_wallet_key event in
  let '(ok, st1) := can_send_notification st now channel wallet_key in
  if ok then
    let pending := get_pending_events st1 channel wallet_key in
    let all_events := pending ++ [event] in
    let st2 := match pending with
               | [] => st1
               | _ => clear_pending_events st1 channel wallet_key
               end in
    (st2, _send_notification channel all_events o)
  else
    (add_pending_event st1 channel wallet_key event, None).

(** The first loop of [flush_pending_notifications].  The entries of
    [keys_to_flush] hold the list objects of the dictionary themselves.  No
    statement of the program changes such a list after the first loop:
    [add_pending_event] appends to the list that the dictionary holds for a
    key, and only after a negative check; for a key that is due the next
    check is positive, and [process_event_notification] then deletes the
    entry before it awaits.  So the entries are values here. *)
Definition flush_due (st : NotificationRateLimiter) (now : Z)
    (item : (string * string) * list Event) : bool :=
  (cooldown_of st item.1.1 <? now - last_time st item.1)
  && match item.2 with [] => false | _ => true end.

Definition keys_to_flush (st : NotificationRateLimiter) (now : Z)
  : list ((string * string) * list Event) :=
  filter (λ item, flush_due st now item = true) (map_to_list (pending_events st)).

(** One round of the second loop, up to its [await]. *)
Definition flush_one (st : NotificationRateLimiter) (now : Z)
    (item : (string * string) * list Event) (o : send_outcome)
  : NotificationRateLimiter * option Delivery :=
  let st1 := clear_pending_events st item.1.1 item.1.2 in
  let st2 := set_last_sent st1 (_get_key item.1.1 item.1.2) now in
  (st2, _send_notification item.1.1 item.2 o).

(** [flush_pending_notifications] when no other task runs at its awaits:
    the second loop over the snapshot [keys_to_flush]; [outcome] tells what
    the handler does for each key. *)
Definition flush_loop (now : Z) (outcome : string * string → send_outcome)
    (acc : NotificationRateLimiter * list ((string * string) * Delivery))
    (item : (string * string) * list Event)
  : NotificationRateLimiter * list ((string * string) * Delivery) :=
  let r := flush_one acc.1 now item (outcome item.1) in
  (r.1, match r.2 with
        | Some dl => acc.2 ++ [(item.1, dl)]
        | None => acc.2
        end).

Definition flush_pending_notifications (st : NotificationRateLimiter) (now : Z)
    (outcome : string * string → send_outcome)
  : NotificationRateLimiter * list ((string * string) * Delivery) :=
  foldl (flush_loop now outcome) (st, []) (keys_to_flush st now).

(** The handler call of one entry of [keys_to_flush]. *)
Definition flush_delivery (outcome : string * string → send_outcome)
    (item : (string * string) * list Event) : option ((string * string) * Delivery) :=
  (λ dl, (item.1, dl)) <$> _send_notification item.1.1 item.2 (outcome item.1).

(** A key is due when its queue is not empty and its cooldown has elapsed. *)
Definition due (st : NotificationRateLimiter) (now : Z) (key : string * string) : Prop :=
  ∃ events, pending_events st !! key = Some events ∧ events ≠ []
            ∧ cooldown_of st key.1 < now - last_time st key.

(** *** The cooperative scheduler

    The dispatcher is used by two tasks of one event loop: the task that
    calls [dispatch_notification] for each alert, and [periodic_flush_task].
    A task runs until it awaits; both tasks await in [_send_notification],
    where the handler does network I/O.  The state of a system is the
    limiter, the local variables of a suspended flush ([now] and the rest of
    [keys_to_flush]) and the handler calls observed so far, each with the
    time at which it was made. *)

Record Observed := mkObserved {
  ob_time : Z;
  ob_key : string * string;
  ob_delivery : Delivery
}.

Record System := mkSystem {
  limiter : NotificationRateLimiter;
  flush_now : Z;
  flush_todo : list ((string * string) * list Event);
  observed : list Observed
}.

Definition initial (st : NotificationRateLimiter) : System :=
  {| limiter := st; flush_now := 0; flush_todo := []; observed := [] |}.

Definition observe (t : Z) (key : string * string) (d : option Delivery) (log : list Observed)
  : list Observed :=
  match d with
  | Some dl => log ++ [ {| ob_time := t; ob_key := key; ob_delivery := dl |} ]
  | None => log
  end.

(** The rounds of the second loop of a flush, from the head of [todo] up to
    the next await of a handler; a round for a channel without handler
    returns without awaiting, and the loop goes on. *)
Fixpoint flush_rounds (t : Z) (o : send_outcome) (now : Z)
    (st : NotificationRateLimiter) (log : list Observed)
    (todo : list ((string * string) * list Event))
  : NotificationRateLimiter * list Observed * list ((string * string) * list Event) :=
  match todo with
  | [] => (st, log, [])
  | item :: rest =>
    let r := flush_one st now item o in
    match r.2 with
    | Some dl => (r.1, observe t item.1 (Some dl) log, rest)
    | None => flush_rounds t o now r.1 log rest
    end
  end.

Inductive Action :=
| Notify (now : Z) (channel : string) (event : Event) (o : send_outcome)
    (* process_event_notification(channel, event), up to its await *)
| FlushBegin (now : Z) (o : send_outcome)
    (* flush_pending_notifications(): the first loop and the second up to its first await *)
| FlushResume (t : Z) (o : send_outcome).
    (* the suspended flush goes on at time t, up to its next await *)

Definition step (s : System) (a : Action) : System :=
  match a with
  | Notify now channel event o =>
    let r := process_event_notification (limiter s) now channel event o in
    {| limiter := r.1;
       flush_now := flush_now s;
       flush_todo := flush_todo s;
       observed := observe now (channel, _get_wallet_key event) r.2 (observed s) |}
  | FlushBegin now o =>
    let r := flush_rounds now o now (limiter s) (observed s) (keys_to_flush (limiter s) now) in
    {| limiter := r.1.1; flush_now := now; flush_todo := r.2; observed := r.1.2 |}
  | FlushResume t o =>
    let r := flush_rounds t o (flush_now s) (limiter s) (observed s) (flush_todo s) in
    {| limiter := r.1.1; flush_now := flush_now s; flush_todo := r.2; observed := r.1.2 |}
  end.

(** A schedule lists what the event loop runs, in order.  The flush task
    starts a flush only when the one before is over, that is, [FlushBegin]
    comes when [flush_todo] is empty. *)
Definition run (s : System) (schedule : list Action) : System := foldl step s schedule.

(** A run of the two tasks in which the flush is never suspended while
    alerts are dispatched: each operation runs to its end, and its handler
    calls are observed at the time of its clock reading. *)
Inductive Operation :=
| OpNotify (now : Z) (channel : string) (event : Event) (o : send_outcome)
| OpFlush (now : Z) (outcome : string * string → send_outcome).

Definition operate (acc : NotificationRateLimiter * list Observed) (op : Operation)
  : NotificationRateLimiter * list Observed :=
  match op with
  | OpNotify now channel event o =>
    let r := process_event_notification acc.1 now channel event o in
    (r.1, observe now (channel, _get_wallet_key event) r.2 acc.2)
  | OpFlush now outcome =>
    let r := flush_pending_notifications acc.1 now outcome in
    (r.1, acc.2 ++ ((λ kd, {| ob_time := now; ob_key := kd.1; ob_delivery := kd.2 |}) <$> r.2))
  end.

Definition operate_all (st : NotificationRateLimiter) (ops : list Operation)
  : NotificationRateLimiter * list Observed :=
  foldl operate (st, []) ops.

(** "Two sends are never observed closer together than the channel's
    cooldown", for every key. *)
Definition cooldown_respected (st : NotificationRateLimiter) (log : list Observed) : Prop :=
  ∀ (i j : nat) (ob1 ob2 : Observed),
    (i < j)%nat → log !! i = Some ob1 → log !! j = Some ob2 →
    ob_key ob1 = ob_key ob2 →
    cooldown_of st (ob_key ob1).1 < ob_time ob2 - ob_time ob1.

(** The invariant of a run whose operations are not interleaved: every
    observed send of a key is at most as late as the recorded last send of
    the key, and the sends respect the cooldowns. *)
Definition gate_invariant (st : NotificationRateLimiter) (log : list Observed) : Prop :=
  (∀ channel cd, cooldowns st !! channel = Some cd → 0 ≤ cd)
  ∧ (∀ ob, ob ∈ log → ob_time ob ≤ last_time st (ob_key ob))
  ∧ cooldown_respected st log.

(** The handler calls for [key], oldest first. *)
Definition sends_of (key : string * string) (log : list Observed) : list Observed :=
  filter (λ ob, ob_key ob = key) log.

(** How often [event] was handed to a handler that returned normally. *)
Definition delivered_count (event : Event) (log : list Observed) : nat :=
  length (filter (λ ob, dl_outcome (ob_delivery ob) = Sent
                        ∧ event ∈ dl_events (ob_delivery ob)) log).

End Dispatcher.

(** ** The stream client ([hypercore_client.py]) *)

Module Client.

(** A decoded JSON value ([json.loads]); numbers are integers here, the
    client only tests them for truth and prints them. *)
#[local] Set Warnings "-register-all".
Inductive json :=
| JNull
| JBool (b : bool)
| JNum (n : Z)
| JStr (s : string)
| JList (items : list json)
| JDict (fields : list (string * json)).

(** [d.get(k)] on the fields of a dictionary. *)
Fixpoint assoc (k : string) (fields : list (string * json)) : option json :=
  match fields with
  | [] => None
  | (k', v) :: rest => if bool_decide (k = k') then Some v else assoc k rest
  end.

(** [bool(v)]. *)
Definition truthy (v : json) : bool :=
  match v with
  | JNull => false
  | JBool b => b
  | JNum n => negb (n =? 0)
  | JStr s => Py.truthy_str s
  | JList items => match items with [] => false | _ => true end
  | JDict fields => match fields with [] => false | _ => true end
  end.

(** The white space of [str.strip()] among the first 128 code points. *)
Definition is_space (a : ascii) : bool :=
  let n := nat_of_ascii a in
  ((9 <=? n) && (n <=? 13) || (28 <=? n) && (n <=? 32))%nat.

Fixpoint lstrip (s : string) : string :=
  match s with
  | EmptyString => EmptyString
  | String a rest => if is_space a then lstrip rest else s
  end.

Definition strip (s : string) : string := String.rev (lstrip (String.rev (lstrip s))).

(** [str.lower()] on the letters A to Z. *)
Definition lower_ascii (a : ascii) : ascii :=
  let n := nat_of_ascii a in
  if ((65 <=? n) && (n <=? 90))%nat then ascii_of_nat (n + 32) else a.

Fixpoint lower (s : string) : string :=
  match s with
  | EmptyString => EmptyString
  | String a rest => String (lower_ascii a) (lower rest)
  end.

Definition wallet_fields : list string :=
  ["user"; "wallet"; "address"; "account"; "from"; "to"; "owner"; "trader"; "userAddress"].

Definition not_a_wallet : list string := ["unknown"; "multiple_wallets"; "0x0"; "null"].

Definition channel_types : list string := ["userFills"; "userEvents"; "orderUpdates"].

(** [ConnectionStats], without its time stamps. *)
Record ConnectionStats := mkStats {
  connected : bool;
  total_messages : Z;
  reconnect_count : Z;
  subscription_count : Z;
  wallet_events : gmap string Z
}.

Record HyperCoreClient := mkClient {
  subscribed_wallets : gset string;                 (* "channel:wallet" *)
  wallet_subscriptions : gmap string (gset string); (* channel -> set of wallets *)
  stats : ConnectionStats;
  is_shutting_down : bool;
  _connection_healthy : bool;
  watched_wallet_set : gset string;
  watched_wallets_original : gmap string string
}.

(** The progressive backoff at the end of an iteration of [connect_and_run]. *)
Definition reconnect_delay (consecutive_failures : Z) : Z :=
  if consecutive_failures <=? 3 then 2
  else if consecutive_failures <=? 10 then 5
  else Z.min 30 consecutive_failures.

(** The same policy in the words of the specification. *)
Definition spec_reconnect_delay (n : Z) : Z :=
  if decide (1 ≤ n ≤ 3) then 2
  else if decide (4 ≤ n ≤ 10) then 5
  else Z.min 30 n.

Section WithEnvironment.

(** [hyperwatch.core.config.WATCHED_WALLETS]; the configuration module is
    not part of the sources. *)
Variable WATCHED_WALLETS : list string.

(** The order in which Python iterates over a set, [list(s)]; the language
    leaves it unspecified.  It is taken as a function of the elements of
    the set. *)
Variable set_iter : gset string → list string.

(** [str(v)] for a list or a dictionary. *)
Variable container_str : json → string.

(** [str(v)]. *)
Definition py_str (v : json) : string :=
  match v with
  | JNull => "None"
  | JBool true => "True"
  | JBool false => "False"
  | JNum n => pretty n
  | JStr s => s
  | JList _ | JDict _ => container_str v
  end.

(** [HyperCoreClient.__init__]. *)
Definition init : HyperCoreClient :=
  {| subscribed_wallets := ∅;
     wallet_subscriptions := ∅;
     stats := {| connected := false; total_messages := 0; reconnect_count := 0;
                 subscription_count := 0;
                 wallet_events := list_to_map ((λ w, (w, 0)) <$> reverse WATCHED_WALLETS) |};
     is_shutting_down := false;
     _connection_healthy := true;
     watched_wallet_set := list_to_set (lower <$> WATCHED_WALLETS);
     watched_wallets_original :=
       list_to_map ((λ w, (lower w, w)) <$> reverse WATCHED_WALLETS) |}.

(** The body of the loop of [check_dict_for_wallet]. *)
Definition check_field (fields : list (string * json)) (field : string) : option string :=
  match assoc field fields with
  | Some v =>
    if truthy v then
      let wallet := strip (py_str v) in
      if Py.truthy_str wallet && negb (bool_decide (wallet ∈ not_a_wallet))
      then Some wallet else None
    else None
  | None => None
  end.

Fixpoint check_fields (fields : list (string * json)) (names : list string) : option string :=
  match names with
  | [] => None
  | field :: rest =>
    match check_field fields field with
    | Some wallet => Some wallet
    | None => check_fields fields rest
    end
  end.

Definition check_dict_for_wallet (data : json) : option string :=
  match data with
  | JDict fields => check_fields fields wallet_fields
  | _ => None
  end.

Definition extract_wallet_from_event_data (event_data raw_event : json) : option string :=
  match check_dict_for_wallet raw_event with
  | Some wallet => Some wallet
  | None =>
    match event_data with
    | JList (first :: _) => check_dict_for_wallet first
    | JDict fields =>
      match check_dict_for_wallet event_data with
      | Some wallet => Some wallet
      | None =>
        let nested :=
          match assoc "data" fields with
          | Some nested_data =>
            if truthy nested_data then check_dict_for_wallet nested_data else None
          | None => None
          end in
        match nested with
        | Some wallet => Some wallet
        | None =>
          match assoc "fills" fields with
          | Some (JList (fill :: _)) => check_dict_for_wallet fill
          | _ => None
          end
        end
      end
    | _ => None
    end
  end.



Definition is_watched_wallet (c : HyperCoreClient) (wallet : string) : bool :=
  if negb (Py.truthy_str wallet) || bool_decide (wallet = "unknown") then false
  else bool_decide (lower wallet ∈ watched_wallet_set c).

Definition get_original_wallet_case (c : HyperCoreClient) (wallet : string) : string :=
  if negb (Py.truthy_str wallet) then wallet
  else default wallet (watched_wallets_original c !! lower wallet).

Definition set_stats (c : HyperCoreClient) (s : ConnectionStats) : HyperCoreClient :=
  {| subscribed_wallets := subscribed_wallets c;
     wallet_subscriptions := wallet_subscriptions c;
     stats := s;
     is_shutting_down := is_shutting_down c;
     _connection_healthy := _connection_healthy c;
     watched_wallet_set := watched_wallet_set c;
     watched_wallets_original := watched_wallets_original c |}.

Definition set_connected (c : HyperCoreClient) (up : bool) : HyperCoreClient :=
  {| subscribed_wallets := subscribed_wallets c;
     wallet_subscriptions := wallet_subscriptions c;
     stats := {| connected := up;
                 total_messages := total_messages (stats c);
                 reconnect_count := reconnect_count (stats c);
                 subscription_count := subscription_count (stats c);
                 wallet_events := wallet_events (stats c) |};
     is_shutting_down := is_shutting_down c;
     _connection_healthy := up;
     watched_wallet_set := watched_wallet_set c;
     watched_wallets_original := watched_wallets_original c |}.

(** The transport: [send_ok channel_type wallet] tells whether
    [self.ws.send] of that subscription request returns or raises. *)
Definition subscribe_to_wallet_channel (send_ok : string → string → bool)
    (c : HyperCoreClient) (wallet channel_type : string) : bool * HyperCoreClient :=
  let sub_key := channel_type +:+ ":" +:+ wallet in
  if bool_decide (sub_key ∈ subscribed_wallets c) then (true, c)
  else if send_ok channel_type wallet then
    (true,
     {| subscribed_wallets := {[sub_key]} ∪ subscribed_wallets c;
        wallet_subscriptions :=
          <[channel_type := {[wallet]} ∪ default ∅ (wallet_subscriptions c !! channel_type)]>
            (wallet_subscriptions c);
        stats := {| connected := connected (stats c);
                    total_messages := total_messages (stats c);
                    reconnect_count := reconnect_count (stats c);
                    subscription_count := subscription_count (stats c) + 1;
                    wallet_events := wallet_events (stats c) |};
        is_shutting_down := is_shutting_down c;
        _connection_healthy := _connection_healthy c;
        watched_wallet_set := watched_wallet_set c;
        watched_wallets_original := watched_wallets_original c |})
  else (false, c).

(** The two nested loops of [subscribe_to_all_wallets]; the accumulator is
    the client and [success_count]. *)
Definition subscribe_channels (send_ok : string → string → bool) (wallet : string)
    (acc : HyperCoreClient * Z) : HyperCoreClient * Z :=
  foldl (λ a channel_type,
           let r := subscribe_to_wallet_channel send_ok a.1 wallet channel_type in
           (r.2, if r.1 then a.2 + 1 else a.2))
        acc channel_types.

Definition subscribe_to_all_wallets (ws_open : bool) (send_ok : string → string → bool)
    (c : HyperCoreClient) : bool * HyperCoreClient :=
  if negb ws_open then (false, c)
  else
    let r := foldl (λ a wallet, subscribe_channels send_ok wallet a) (c, 0) WATCHED_WALLETS in
    (0 <? r.2, r.1).

(** *** Inbound messages *)

(** One call [parse_event(event_data, channel, wallet)]: the only way by
    which a message reaches the parser and, from there, the alert engine. *)
Record Forwarded := mkForwarded {
  fw_data : json;
  fw_channel : string;
  fw_wallet : string
}.

(** [process_single_event] up to its call of the parser. *)
Definition process_single_event (c : HyperCoreClient) (event_data : json)
    (channel wallet : string) : list Forwarded :=
  match event_data with
  | JDict _ =>
    if is_watched_wallet c wallet
    then [ {| fw_data := event_data; fw_channel := channel; fw_wallet := wallet |} ]
    else []
  | _ => []
  end.

(** [a or b] on values; [None] is Python's [None]. *)
Definition py_or (a b : option json) : option json :=
  match a with
  | Some v => if truthy v then a else b
  | None => b
  end.

(** The expression bound to [wallet] at the head of [_handle_wallet_event]. *)
Definition first_wallet (fields : list (string * json)) : option json :=
  py_or (assoc "user" fields)
    (py_or (assoc "wallet" fields)
       (JStr <$> extract_wallet_from_event_data
                   (default JNull (assoc "data" fields)) (JDict fields))).

(** "Try to use first subscribed wallet as fallback". *)
Definition subscribed_fallback (c : HyperCoreClient) (channel : string) : option string :=
  match wallet_subscriptions c !! channel with
  | Some subs => head (set_iter subs)
  | None => None
  end.

(** The test [if not wallet or wallet == "unknown": return]. *)
Definition usable (w : string) : option string :=
  if Py.truthy_str w && negb (bool_decide (w = "unknown")) then Some w else None.

(** The wallet under which the message is processed: [inl] is an exception
    ([wallet.lower()] on a value that is not a string), [inr None] a
    message that is skipped. *)
Definition working_wallet (c : HyperCoreClient) (fields : list (string * json))
    (channel : string) : unit + option string :=
  match first_wallet fields with
  | Some (JStr w) =>
    if Py.truthy_str w && negb (bool_decide (w = "unknown")) then
      if is_watched_wallet c w then inr (usable (get_original_wallet_case c w))
      else inr None
    else inr (subscribed_fallback c channel ≫= usable)
  | Some v =>
    if truthy v then inl ()
    else inr (subscribed_fallback c channel ≫= usable)
  | None => inr (subscribed_fallback c channel ≫= usable)
  end.

Definition count_wallet_event (c : HyperCoreClient) (wallet : string) : HyperCoreClient :=
  match wallet_events (stats c) !! wallet with
  | Some n =>
    set_stats c {| connected := connected (stats c);
                   total_messages := total_messages (stats c);
                   reconnect_count := reconnect_count (stats c);
                   subscription_count := subscription_count (stats c);
                   wallet_events := <[wallet := n + 1]> (wallet_events (stats c)) |}
  | None => c
  end.

(** The body of the loop over a list payload. *)
Definition process_item (c : HyperCoreClient) (raw_event : json) (channel wallet : string)
    (single_event : json) : list Forwarded :=
  match extract_wallet_from_event_data single_event raw_event with
  | Some extracted =>
    if is_watched_wallet c extracted
    then process_single_event c single_event channel (get_original_wallet_case c extracted)
    else []
  | None => process_single_event c single_event channel wallet
  end.

Definition _handle_wallet_event (c : HyperCoreClient) (fields : list (string * json))
    (channel : string) : HyperCoreClient * list Forwarded :=
  match working_wallet c fields channel with
  | inl _ => (c, [])
  | inr None => (c, [])
  | inr (Some wallet) =>
    let c' := count_wallet_event c wallet in
    match assoc "data" fields with
    | Some (JList items) =>
      (c', concat (process_item c' (JDict fields) channel wallet <$> items))
    | Some (JDict data) => (c', process_single_event c' (JDict data) channel wallet)
    | _ => (c', [])
    end
  end.

Definition count_message (c : HyperCoreClient) : HyperCoreClient :=
  set_stats c {| connected := connected (stats c);
                 total_messages := total_messages (stats c) + 1;
                 reconnect_count := reconnect_count (stats c);
                 subscription_count := subscription_count (stats c);
                 wallet_events := wallet_events (stats c) |}.

(** [handle_event] on a decoded message; a message that is not a JSON
    object is counted and then raises at [raw_event.get]. *)
Definition handle_event (c : HyperCoreClient) (raw_event : json)
  : HyperCoreClient * list Forwarded :=
  match raw_event with
  | JDict fields =>
    let c1 := count_message c in
    match default (JStr "unknown") (assoc "channel" fields) with
    | JStr channel =>
      if bool_decide (channel ∈ channel_types)
      then _handle_wallet_event c1 fields channel
      else (c1, [])
    | _ => (c1, [])
    end
  | _ => (count_message c, [])
  end.

(** *** The connect loop *)

(** How the message loop of a connection ends. *)
Inductive Listening := StreamCloses | StreamRaises.

(** What the network does during one iteration of [connect_and_run]. *)
Inductive Attempt :=
| ConnectRaises
| ConnectOpens (ws_open : bool) (send_ok : string → string → bool) (listening : Listening).

Record Iteration := mkIteration {
  it_client : HyperCoreClient;
  it_failures : Z;          (* consecutive_failures at the end of the iteration *)
  it_subscribed : bool;     (* the connection was opened and subscribe_to_all_wallets returned True *)
  it_sleep : option Z       (* the argument of the final asyncio.sleep, if it is reached *)
}.

Definition count_reconnect (c : HyperCoreClient) : HyperCoreClient :=
  set_stats c {| connected := connected (stats c);
                 total_messages := total_messages (stats c);
                 reconnect_count := reconnect_count (stats c) + 1;
                 subscription_count := subscription_count (stats c);
                 wallet_events := wallet_events (stats c) |}.

(** The backoff block after the [finally]. *)
Definition backoff (c : HyperCoreClient) (consecutive_failures : Z) : option Z :=
  if is_shutting_down c then None else Some (reconnect_delay consecutive_failures).

(** One iteration of the [while] loop of [connect_and_run].  The messages
    handled while the client listens change its statistics only, which the
    loop does not read; they are left out of the iteration. *)
Definition connect_iteration (c : HyperCoreClient) (consecutive_failures : Z) (a : Attempt)
  : Iteration :=
  match a with
  | ConnectRaises =>
    let c' := set_connected c false in
    let failures := consecutive_failures + 1 in
    {| it_client := c'; it_failures := failures; it_subscribed := false;
       it_sleep := backoff c' failures |}
  | ConnectOpens ws_open send_ok listening =>
    let c1 := count_reconnect (set_connected c true) in
    let failures := 0 in   (* "Reset failure count on successful connection" *)
    let r := subscribe_to_all_wallets ws_open send_ok c1 in
    if negb r.1 then
      (* continue: the finally clause runs, the backoff block is skipped *)
      {| it_client := set_connected r.2 false; it_failures := failures;
         it_subscribed := false; it_sleep := None |}
    else
      match listening with
      | StreamCloses =>
        let c' := set_connected r.2 false in
        {| it_client := c'; it_failures := failures; it_subscribed := true;
           it_sleep := backoff c' failures |}
      | StreamRaises =>
        let c' := set_connected r.2 false in
        {| it_client := c'; it_failures := failures + 1; it_subscribed := true;
           it_sleep := backoff c' (failures + 1) |}
      end
  end.

(** The failure counter along a sequence of iterations. *)
Fixpoint connect_loop (c : HyperCoreClient) (consecutive_failures : Z) (attempts : list Attempt)
  : list Iteration :=
  match attempts with
  | [] => []
  | a :: rest =>
    let it := connect_iteration c consecutive_failures a in
    it :: connect_loop (it_client it) (it_failures it) rest
  end.

End WithEnvironment.

End Client.

(** ** The log rate limiter ([SimpleRateLimiter] of [hypercore_client.py]) *)

Module Logging.

Record SimpleRateLimiter := mkSimple {
  cooldown : Z;
  last_logged : gmap string Z          (* key -> time of the last allowed call *)
}.

(** [SimpleRateLimiter.__init__]. *)
Definition init (cooldown_seconds : Z) : SimpleRateLimiter :=
  {| cooldown := cooldown_seconds; last_logged := ∅ |}.

(** The three module-level instances. *)
Definition cli_rate_limiter : SimpleRateLimiter := init 5.
Definition error_rate_limiter : SimpleRateLimiter := init 30.
Definition debug_rate_limiter : SimpleRateLimiter := init 10.

(** [can_log(key)]; [now] is the value of its [time.time()] read. *)
Definition can_log (l : SimpleRateLimiter) (now : Z) (key : string) : bool * SimpleRateLimiter :=
  let allowed :=
    match last_logged l !! key with
    | None => true                                (* key not in self.last_logged *)
    | Some last => cooldown l <? now - last       (* (now - last) > self.cooldown *)
    end in
  if allowed
  then (true, {| cooldown := cooldown l; last_logged := <[key := now]> (last_logged l) |})
  else (false, l).

(** A sequence of calls of one limiter, each with its clock reading and its
    key; next to the state, the calls made so far with their answers. *)
Definition log_step (acc : SimpleRateLimiter * list (Z * string * bool)) (call : Z * string)
  : SimpleRateLimiter * list (Z * string * bool) :=
  let r := can_log acc.1 call.1 call.2 in
  (r.2, acc.2 ++ [(call, r.1)]).

Definition log_run (l : SimpleRateLimiter) (calls : list (Z * string))
  : SimpleRateLimiter * list (Z * string * bool) :=
  foldl log_step (l, []) calls.

(** The invariant of such a sequence: the recorded time of a key is the
    time of an allowed call with the key and is not before any of them;
    allowed calls with one key are more than the cooldown apart; a refused
    call has an allowed call with its key at most the cooldown before. *)
Definition log_invariant (l : SimpleRateLimiter) (log : list (Z * string * bool)) : Prop :=
  (∀ t key, (t, key, true) ∈ log → ∃ last, last_logged l !! key = Some last ∧ t ≤ last)
  ∧ (∀ key last, last_logged l !! key = Some last → (last, key, true) ∈ log)
  ∧ (∀ (i j : nat) t1 t2 key, (i < j)%nat →
       log !! i = Some (t1, key, true) → log !! j = Some (t2, key, true) →
       cooldown l < t2 - t1)
  ∧ (∀ (j : nat) t2 key, log !! j = Some (t2, key, false) →
       ∃ (i : nat) t1, (i < j)%nat ∧ log !! i = Some (t1, key, true) ∧ t2 - t1 ≤ cooldown l).

End Logging.

(** ** The connection monitor ([connection_monitor] of [hypercore_client.py])

    The monitor task of one connection.  [connect_and_run] sets
    [_connection_healthy] when the connection opens and creates the task;
    while the task runs, only [health_check] writes the flag: it leaves it
    set when it returns [True] and cleared when it returns [False]. *)

Module Monitor.

(** [min(30, 5 + consecutive_failures * 2)]. *)
Definition check_interval (consecutive_failures : Z) : Z :=
  Z.min 30 (5 + consecutive_failures * 2).

(** The local counter of the task and the flag of the client. *)
Record MonitorState := mkMonitor {
  consecutive_failures : Z;
  connection_healthy : bool
}.

Definition monitor_start : MonitorState :=
  {| consecutive_failures := 0; connection_healthy := true |}.

(** One iteration of the loop: the sleep, then the test
    [not self._connection_healthy or not await self.health_check()], which
    calls [health_check] only when the flag is set; [ping] is what
    [health_check] returns if it is called.  The result is the time slept
    and the next state, or [None] after the [break]. *)
Definition monitor_iteration (s : MonitorState) (ping : bool) : Z * option MonitorState :=
  let interval := check_interval (consecutive_failures s) in
  let healthy := if connection_healthy s then ping else false in
  if healthy then (interval, Some {| consecutive_failures := 0; connection_healthy := true |})
  else
    let failures := consecutive_failures s + 1 in
    if 2 <=? failures then (interval, None)
    else (interval, Some {| consecutive_failures := failures; connection_healthy := false |}).

(** The loop, for as many iterations as there are entries of [pings]
    before the task is cancelled or the client shuts down: the times slept,
    and whether the monitor closed the connection to trigger a reconnect. *)
Fixpoint connection_monitor (s : MonitorState) (pings : list bool) : list Z * bool :=
  match pings with
  | [] => ([], false)
  | ping :: rest =>
    match monitor_iteration s ping with
    | (interval, None) => ([interval], true)
    | (interval, Some s') =>
      let r := connection_monitor s' rest in (interval :: r.1, r.2)
    end
  end.

End Monitor.

(** ** Runs of the stream client *)

Module ClientRun.
Import Client.

(** The key under which a subscription is remembered. *)
Definition sub_key (channel_type wallet : string) : string := channel_type +:+ ":" +:+ wallet.

(** One round of the inner loop of [subscribe_to_all_wallets]; the pair is
    the wallet and the channel type. *)
Definition sub_step (send_ok : string → string → bool) (acc : HyperCoreClient * Z)
    (p : string * string) : HyperCoreClient * Z :=
  let r := subscribe_to_wallet_channel send_ok acc.1 p.1 p.2 in
  (r.2, if r.1 then acc.2 + 1 else acc.2).

(** The pairs that the two nested loops visit, in order. *)
Definition sub_pairs (watched : list string) : list (string * string) :=
  w ← watched; (λ channel_type, (w, channel_type)) <$> channel_types.

Section WithEnvironment.
Variable WATCHED_WALLETS : list string.
Variable set_iter : gset string → list string.
Variable container_str : json → string.

(** What the client does between its start and its shutdown, as far as
    its subscriptions and its counters go: a subscription phase on a new
    connection, or an inbound message. *)
Inductive ClientStep :=
| StepSubscribe (ws_open : bool) (send_ok : string → string → bool)
| StepMessage (raw_event : json).

Definition client_step (acc : HyperCoreClient * list Forwarded) (s : ClientStep)
  : HyperCoreClient * list Forwarded :=
  match s with
  | StepSubscribe ws_open send_ok =>
    ((subscribe_to_all_wallets WATCHED_WALLETS ws_open send_ok acc.1).2, acc.2)
  | StepMessage raw_event =>
    let r := handle_event set_iter container_str acc.1 raw_event in
    (r.1, acc.2 ++ r.2)
  end.

Definition client_run (steps : list ClientStep) : HyperCoreClient * list Forwarded :=
  foldl client_step (init WATCHED_WALLETS, []) steps.

(** The configuration of a client, which no step changes, and the origin
    of its subscriptions. *)
Definition configured (c : HyperCoreClient) : Prop :=
  watched_wallet_set c = watched_wallet_set (init WATCHED_WALLETS)
  ∧ watched_wallets_original c = watched_wallets_original (init WATCHED_WALLETS)
  ∧ dom (wallet_events (stats c)) = dom (wallet_events (stats (init WATCHED_WALLETS)))
  ∧ (∀ channel subs w, wallet_subscriptions c !! channel = Some subs → w ∈ subs →
       w ∈ WATCHED_WALLETS)
  ∧ (∀ k, k ∈ subscribed_wallets c → ∃ p, p ∈ sub_pairs WATCHED_WALLETS ∧ k = sub_key p.2 p.1)
  ∧ subscription_count (stats c) = Z.of_nat (size (subscribed_wallets c)).

(** The invariant of a run: the configuration, the bounds of the wallet
    counters, and the wallets of what was forwarded. *)
Definition run_ok (acc : HyperCoreClient * list Forwarded) : Prop :=
  configured acc.1
  ∧ (∀ w k, wallet_events (stats acc.1) !! w = Some k → 0 ≤ k ≤ total_messages (stats acc.1))
  ∧ ((∀ subs w, w ∈ set_iter subs → w ∈ subs) →
     Forall (λ fw, fw_wallet fw ∈ WATCHED_WALLETS) acc.2).

(** The messages among the steps. *)
Definition messages (steps : list ClientStep) : list json :=
  omap (λ s, match s with StepMessage raw_event => Some raw_event | _ => None end) steps.

End WithEnvironment.

End ClientRun.

(** ** Statistics of the deduplicator

    [get_wallet_stats], [reset_wallet_stats] and [get_status] of
    [event_deduplicator.py]. *)

Module DedupStatus.
Import Dedup.

(** [self.wallet_event_counts.copy()]. *)
Definition get_wallet_stats (d : EventDeduplicator) : gmap string Z := wallet_event_counts d.

(** [self.wallet_event_counts.clear()]. *)
Definition reset_wallet_stats (d : EventDeduplicator) : EventDeduplicator :=
  {| window_seconds := window_seconds d;
     max_similar_events := max_similar_events d;
     event_signatures := event_signatures d;
     suppressed_events := suppressed_events d;
     wallet_event_counts := ∅;
     last_cleanup := last_cleanup d;
     last_summary_time := last_summary_time d;
     summary_interval := summary_interval d |}.

(** The dictionary returned by [get_status]. *)
Record Status := mkStatus {
  active_signatures : Z;
  suppressed_signatures : Z;
  total_suppressed_events : Z;
  status_wallet_event_counts : gmap string Z;
  status_window_seconds : Z;
  status_max_similar_events : Z
}.

Definition get_status (d : EventDeduplicator) : Status :=
  {| active_signatures := Z.of_nat (size (event_signatures d));
     suppressed_signatures := Z.of_nat (size (suppressed_events d));
     total_suppressed_events :=
       map_fold (λ _ events acc, Z.of_nat (length events) + acc) 0 (suppressed_events d);
     status_wallet_event_counts := wallet_event_counts d;
     status_window_seconds := window_seconds d;
     status_max_similar_events := max_similar_events d |}.

(** The public methods that change a deduplicator. *)
Inductive Use :=
| UseFilter (event : Event) (c : Clock)   (* should_allow_event(event) *)
| UseSummaries (now : Z)                  (* get_all_suppressed_summaries() *)
| UseReset.                               (* reset_wallet_stats() *)

Section WithHash.
Variable md5_hexdigest : string → string.

(** A deduplicator in use; next to the state, the events admitted since the
    statistics were last reset. *)
Definition use_step (acc : EventDeduplicator * list Event) (u : Use)
  : EventDeduplicator * list Event :=
  match u with
  | UseFilter event c =>
    let r := should_allow_event md5_hexdigest acc.1 event c in
    (r.2, if r.1 then acc.2 ++ [event] else acc.2)
  | UseSummaries now => ((get_all_suppressed_summaries acc.1 now).2, acc.2)
  | UseReset => (reset_wallet_stats acc.1, [])
  end.

Definition use_run (d : EventDeduplicator) (uses : list Use) : EventDeduplicator * list Event :=
  foldl use_step (d, []) uses.

End WithHash.

(** The admitted events that the statistics count for [wallet]. *)
Definition counted (wallet : string) (admitted : list Event) : list Event :=
  filter (λ e, default "unknown" (ev_wallet e) = wallet ∧ default 0 (ev_usd_value e) < 10000)
         admitted.

End DedupStatus.

(** ** Dispatching an alert to its channels ([dispatch_notification]) *)

Module Dispatch.
Import Dispatcher.

(** [if not channels: channels = list(CHANNEL_HANDLERS.keys())]; an absent
    argument is the empty list. *)
Definition channels_or_default (channels : list string) : list string :=
  match channels with
  | [] => CHANNEL_HANDLERS
  | _ => channels
  end.

(** The loop over the channels; [clock i] and [outcome i] are the clock
    reading and the behaviour of the handler in round [i]. *)
Fixpoint dispatch_loop (clock : nat → Z) (outcome : nat → send_outcome) (event : Event)
    (i : nat) (acc : NotificationRateLimiter * list Observed) (channels : list string)
  : NotificationRateLimiter * list Observed :=
  match channels with
  | [] => acc
  | channel :: rest =>
    let r := process_event_notification acc.1 (clock i) channel event (outcome i) in
    dispatch_loop clock outcome event (S i)
      (r.1, observe (clock i) (channel, _get_wallet_key event) r.2 acc.2) rest
  end.

Definition dispatch_notification (st : NotificationRateLimiter) (event : Event)
    (channels : list string) (clock : nat → Z) (outcome : nat → send_outcome)
  : NotificationRateLimiter * list Observed :=
  dispatch_loop clock outcome event 0 (st, []) (channels_or_default channels).

(** The queue of a key, [self.pending_events.get(key, [])]. *)
Definition queue (st : NotificationRateLimiter) (key : string * string) : list Event :=
  default [] (pending_events st !! key).

(** The alerts handed to the handler of a key, in the order of the calls. *)
Definition handed (key : string * string) (log : list Observed) : list Event :=
  concat ((dl_events ∘ ob_delivery) <$> sends_of key log).

(** The alerts that a sequence of operations notifies for a key. *)
Definition notified (key : string * string) (ops : list Operation) : list Event :=
  omap (λ op, match op with
              | OpNotify _ channel event _ =>
                if decide ((channel, _get_wallet_key event) = key) then Some event else None
              | OpFlush _ _ => None
              end) ops.

End Dispatch.

(** ** Conditions and rules ([alerts/triggers.py], [alerts/rules.py]) and
    the alert engine ([alerts/engine.py]) *)

Module Triggers.
Import Client.

(** A condition of a rule, a dictionary with a ["type"] and, for some
    types, ["args"]; an absent ["args"] is the empty list. *)
Record Condition := mkCondition {
  cond_type : option string;
  cond_args : list json
}.

(** A rule, as far as the engine reads it. *)
Record Rule := mkRule {
  rule_name : string;
  rule_conditions : list Condition;           (* rule.get("conditions", []) *)
  rule_channels : option (list string)        (* rule.get("channels", ...) *)
}.

Section WithEvents.

(** The event dictionaries. *)
Variable event : Type.

(** A condition function called as [func(event, *args)]: [None] is an
    exception, of the function or of the call. *)
Definition condition_func : Type := event → list json → option bool.

(** The body of the loop of [evaluate_conditions]. *)
Definition evaluate_step (condition_funcs : gmap string condition_func) (ev : event)
    (matched : list Condition) (cond : Condition) : list Condition :=
  match cond_type cond with
  | None => matched                                   (* "Skipping condition without type." *)
  | Some ty =>
    if negb (Py.truthy_str ty) then matched
    else
      match condition_funcs !! ty with
      | None => matched                               (* "No function found ..." *)
      | Some func =>
        match func ev (cond_args cond) with
        | Some true => matched ++ [cond]
        | Some false => matched
        | None => matched                             (* "Condition ... raised error" *)
        end
      end
  end.

Definition evaluate_conditions (ev : event) (conditions : list Condition)
    (condition_funcs : gmap string condition_func) : list Condition :=
  foldl (evaluate_step condition_funcs ev) [] conditions.

Section WithDefaults.

(** The module-level dictionary [default_conditions]. *)
Variable default_conditions : gmap string condition_func.

Definition any_conditions_match (ev : event) (conditions : list Condition) : bool :=
  (0 <? length (evaluate_conditions ev conditions default_conditions))%nat.

Definition all_conditions_match (ev : event) (conditions : list Condition) : bool :=
  match conditions with
  | [] => false
  | _ => (length (evaluate_conditions ev conditions default_conditions) =? length conditions)%nat
  end.

(** [create_not_condition(condition)], applied to an event. *)
Definition not_condition (condition : Condition) (ev : event) : bool :=
  (length (evaluate_conditions ev [condition] default_conditions) =? 0)%nat.

(** [evaluate_rule_conditions] of [rules.py]. *)
Definition evaluate_rule_conditions (ev : event) (rule : Rule) : bool :=
  match rule_conditions rule with
  | [] => false
  | conditions => (0 <? length (evaluate_conditions ev conditions default_conditions))%nat
  end.

(** What holds of a condition that [evaluate_conditions] keeps. *)
Definition holds (ev : event) (cond : Condition) : Prop :=
  ∃ ty func, cond_type cond = Some ty ∧ ty ≠ ""
             ∧ default_conditions !! ty = Some func
             ∧ func ev (cond_args cond) = Some true.

(** [AlertEngine.process_event]: the channels of the calls of the alert
    handler, one call for each rule of which the list of matched conditions
    is not empty. *)
Definition rule_call (ev : event) (rule : Rule) : option (list string) :=
  match evaluate_conditions ev (rule_conditions rule) default_conditions with
  | [] => None
  | _ => Some (default ["telegram"; "email"; "discord"; "webhook"] (rule_channels rule))
  end.

Definition process_event (rules : list Rule) (ev : event) : list (list string) :=
  omap (rule_call ev) rules.

End WithDefaults.
End WithEvents.

End Triggers.

Module Engine.
Import Dispatcher Dispatch Triggers.

Section WithEvents.
Variable event : Type.

(** The keys of an event dictionary that the dispatcher reads. *)
Variable view : event → Event.

Variable default_conditions : gmap string (condition_func event).

(** The channels that the calls of [dispatch_notification] made for one
    event go through, in order. *)
Definition dispatched_channels (rules : list Rule) (ev : event) : list string :=
  concat (channels_or_default <$> process_event event default_conditions rules ev).

(** [process_event] with [dispatch_notification] as the alert handler, when
    no other task runs in between; [clock i] is the clock reading of the
    [i]-th notification. *)
Definition process_and_dispatch (rules : list Rule) (st : NotificationRateLimiter)
    (ev : event) (clock : nat → Z) (outcome : nat → send_outcome)
  : NotificationRateLimiter * list Observed :=
  dispatch_loop clock outcome (view ev) 0 (st, []) (dispatched_channels rules ev).

End WithEvents.
End Engine.

(** ** The coin mapper ([coin_mapper.py])

    The five dictionaries of a [CoinMapper], the refresh from the two
    answers of the exchange, and the look-ups.  A name is a string of the
    first 128 code points.  The values of [all_tokens] are never changed
    after they are stored (an entry is replaced as a whole, and
    [get_token_info] returns a copy), so they are values here although the
    source stores one dictionary under three keys.  The cache file is outside
    the model: writing it changes no dictionary, and a mapper that found no
    valid cache starts from [empty]. *)

Module CoinMapper.
Import Client.

(** *** Strings *)

(** [str.upper()] on the letters a to z. *)
Definition upper_ascii (a : ascii) : ascii :=
  let n := nat_of_ascii a in
  if ((97 <=? n) && (n <=? 122))%nat then ascii_of_nat (n - 32) else a.

Fixpoint upper (s : string) : string :=
  match s with
  | EmptyString => EmptyString
  | String a rest => String (upper_ascii a) (upper rest)
  end.

Definition is_digit (a : ascii) : bool :=
  let n := nat_of_ascii a in ((48 <=? n) && (n <=? 57))%nat.

Fixpoint all_digits (s : string) : bool :=
  match s with
  | EmptyString => true
  | String a rest => is_digit a && all_digits rest
  end.

(** [str.isdigit()]: false for the empty string. *)
Definition isdigit (s : string) : bool :=
  match s with
  | EmptyString => false
  | _ => all_digits s
  end.

(** [s.replace(".", "")]. *)
Fixpoint remove_dots (s : string) : string :=
  match s with
  | EmptyString => EmptyString
  | String a rest => if Ascii.eqb a "." then remove_dots rest else String a (remove_dots rest)
  end.

(** [int(s)] for a string of digits. *)
Fixpoint int_digits (acc : N) (s : string) : N :=
  match s with
  | EmptyString => acc
  | String a rest => int_digits (acc * 10 + (N_of_ascii a - 48)) rest
  end.

Definition int (s : string) : nat := N.to_nat (int_digits 0 s).

(** [s.startswith("@")]. *)
Definition startswith_at (s : string) : bool :=
  match s with
  | String a _ => Ascii.eqb a "@"
  | EmptyString => false
  end.

(** [s[1:]]. *)
Definition tail (s : string) : string :=
  match s with
  | String _ rest => rest
  | EmptyString => EmptyString
  end.

(** [f"@{i}"]. *)
Definition at_key (i : nat) : string := "@" +:+ pretty i.

(** The offset 10000 of the keys of the spot markets. *)
Definition spot_index_offset : nat := N.to_nat 10000.

(** *** The mapper *)

(** A value of [perp_map] or [spot_map]. *)
Record MapEntry := mkEntry {
  entry_name : string;
  entry_index : nat
}.

(** A value of [all_tokens]. *)
Record TokenInfo := mkInfo {
  info_type : string;        (* "perp" or "spot" *)
  info_index : nat;
  info_token_key : string;
  info_name : string
}.

Record CoinMapper := mkMapper {
  perp_map : gmap string MapEntry;
  spot_map : gmap string MapEntry;
  name_to_key : gmap string string;
  index_to_name : gmap string string;
  all_tokens : gmap string TokenInfo;
  _refresh_attempted : bool           (* hasattr(self, '_refresh_attempted') *)
}.

(** The dictionaries that [__init__] creates. *)
Definition empty : CoinMapper :=
  {| perp_map := ∅; spot_map := ∅; name_to_key := ∅; index_to_name := ∅; all_tokens := ∅;
     _refresh_attempted := false |}.

(** What a request to the exchange gives: an exception (of the request, of
    [raise_for_status], of the decoding or of [["universe"]]), or the list
    of the markets. *)
Inductive Answer (A : Type) :=
| Raises
| Returns (universe : list A).
Arguments Raises {A}.
Arguments Returns {A} universe.

(** The name of a spot market: [coin["name"]] can be missing, be no
    string, or be a string.  The name of a perpetual market is a string when
    it is present. *)
Inductive SpotName := NoName | NotStr | Str (name : string).

Definition perp_info (i : nat) (name : string) : TokenInfo :=
  {| info_type := "perp"; info_index := i; info_token_key := at_key i; info_name := name |}.

(** The body of the loop over the perpetual markets.  The two reads of
    [self.all_tokens[name.upper()]] return the dictionary stored just
    before. *)
Definition perp_body (m : CoinMapper) (i : nat) (name : string) : CoinMapper :=
  let token_key := at_key i in
  let info := perp_info i name in
  {| perp_map := <[token_key := {| entry_name := name; entry_index := i |}]> (perp_map m);
     spot_map := spot_map m;
     name_to_key := <[upper name := token_key]> (name_to_key m);
     index_to_name := <[token_key := name]> (index_to_name m);
     all_tokens :=
       <[pretty i := info]> (<[token_key := info]> (<[upper name := info]> (all_tokens m)));
     _refresh_attempted := _refresh_attempted m |}.

(** The loop over [enumerate(perp_meta["universe"])], from index [i]; the
    result is [false] when [coin["name"]] raised, which ends the refresh. *)
Fixpoint perp_loop (m : CoinMapper) (i : nat) (universe : list (option string))
  : CoinMapper * bool :=
  match universe with
  | [] => (m, true)
  | None :: _ => (m, false)
  | Some name :: rest => perp_loop (perp_body m i name) (S i) rest
  end.

(** "Skip malformed entries where name is just an index or starts with @". *)
Definition malformed (name : string) : bool :=
  (startswith_at name && isdigit (remove_dots (tail name))) || isdigit name.

Definition spot_info (i : nat) (name : string) : TokenInfo :=
  {| info_type := "spot"; info_index := i; info_token_key := at_key (spot_index_offset + i);
     info_name := name |}.

(** The body of the loop over the spot markets, for a name that is a
    string. *)
Definition spot_body (m : CoinMapper) (i : nat) (name : string) : CoinMapper :=
  if negb (Py.truthy_str name) || (String.length (strip name) =? 0)%nat then m
  else if malformed name then m
  else
    let token_key := at_key (spot_index_offset + i) in
    let info := spot_info i name in
    {| perp_map := perp_map m;
       spot_map := <[token_key := {| entry_name := name; entry_index := i |}]> (spot_map m);
       name_to_key :=
         match name_to_key m !! upper name with
         | Some _ => name_to_key m
         | None => <[upper name := token_key]> (name_to_key m)
         end;
       index_to_name := <[token_key := name]> (index_to_name m);
       all_tokens :=
         <[token_key := info]>
           (match all_tokens m !! upper name with
            | Some old =>
              if bool_decide (info_type old ≠ "perp")
              then <[upper name := info]> (all_tokens m)
              else all_tokens m
            | None => <[upper name := info]> (all_tokens m)
            end);
       _refresh_attempted := _refresh_attempted m |}.

Fixpoint spot_loop (m : CoinMapper) (i : nat) (universe : list SpotName)
  : CoinMapper * bool :=
  match universe with
  | [] => (m, true)
  | NoName :: _ => (m, false)
  | NotStr :: rest => spot_loop m (S i) rest
  | Str name :: rest => spot_loop (spot_body m i name) (S i) rest
  end.

(** [fetch_and_cache_mapping]: every exception is caught at the end, and
    what was stored before it stays. *)
Definition fetch_and_cache_mapping (m : CoinMapper) (perp_meta : Answer (option string))
    (spot_meta : Answer SpotName) : CoinMapper :=
  match perp_meta with
  | Raises => m
  | Returns perps =>
    match perp_loop m 0 perps with
    | (m1, false) => m1
    | (m1, true) =>
      match spot_meta with
      | Raises => m1
      | Returns spots => (spot_loop m1 0 spots).1
      end
    end
  end.

(** The returns of [get_coin_name] that come before the refresh: [None]
    when none of them is taken. *)
Definition resolve (m : CoinMapper) (token_str : string) : option string :=
  match all_tokens m !! token_str with
  | Some info => Some (info_name info)
  | None =>
    match all_tokens m !! upper token_str with
    | Some info => Some (info_name info)
    | None =>
      match perp_map m !! token_str with
      | Some entry => Some (entry_name entry)
      | None =>
        match spot_map m !! token_str with
        | Some entry => Some (entry_name entry)
        | None =>
          match index_to_name m !! token_str with
          | Some name => Some name
          | None =>
            if startswith_at token_str && isdigit (tail token_str) then
              let index := int (tail token_str) in
              let direct_key := at_key index in
              let direct :=
                if (index <? 1000)%nat then
                  match perp_map m !! direct_key with
                  | Some entry => Some (entry_name entry)
                  | None => index_to_name m !! direct_key
                  end
                else None in
              match direct with
              | Some name => Some name
              | None =>
                match spot_map m !! at_key (spot_index_offset + index) with
                | Some entry => Some (entry_name entry)
                | None => Some ("TOKEN_" +:+ token_str)
                end
              end
            else None
          end
        end
      end
    end
  end.

Definition set_refresh_attempted (m : CoinMapper) : CoinMapper :=
  {| perp_map := perp_map m; spot_map := spot_map m; name_to_key := name_to_key m;
     index_to_name := index_to_name m; all_tokens := all_tokens m;
     _refresh_attempted := true |}.

(** [get_coin_name] for an identifier that is a string; [perp_meta] and
    [spot_meta] are what the exchange answers if the mapper refreshes. *)
Definition get_coin_name (m : CoinMapper) (token_identifier : string)
    (perp_meta : Answer (option string)) (spot_meta : Answer SpotName)
  : string * CoinMapper :=
  if negb (Py.truthy_str token_identifier) then ("UNKNOWN", m)
  else
    let token_str := strip token_identifier in
    match resolve m token_str with
    | Some name => (name, m)
    | None =>
      if _refresh_attempted m then ("TOKEN_" +:+ token_str, m)
      else
        let m' := fetch_and_cache_mapping (set_refresh_attempted m) perp_meta spot_meta in
        (default ("TOKEN_" +:+ token_str) (resolve m' token_str), m')
    end.

(** [get_token_key_by_name] for a name that is a string. *)
Definition get_token_key_by_name (m : CoinMapper) (coin_name : string) : option string :=
  if negb (Py.truthy_str coin_name) then None
  else
    let coin_upper := strip (upper coin_name) in
    match all_tokens m !! coin_upper with
    | Some info => Some (info_token_key info)
    | None => name_to_key m !! coin_upper
    end.

(** [get_token_info]. *)
Definition get_token_info (m : CoinMapper) (token_identifier : string) : option TokenInfo :=
  if negb (Py.truthy_str token_identifier) then None
  else
    let token_str := strip token_identifier in
    match all_tokens m !! token_str with
    | Some info => Some info
    | None => all_tokens m !! upper token_str
    end.

(** A sequence of look-ups on one mapper, each with the answers that the
    exchange would give to a refresh at that moment; next to the mapper, the
    names returned so far. *)
Definition lookup_step (acc : CoinMapper * list string)
    (call : string * Answer (option string) * Answer SpotName) : CoinMapper * list string :=
  let r := get_coin_name acc.1 call.1.1 call.1.2 call.2 in
  (r.2, acc.2 ++ [r.1]).

Definition lookup_run (m : CoinMapper)
    (calls : list (string * Answer (option string) * Answer SpotName))
  : CoinMapper * list string :=
  foldl lookup_step (m, []) calls.

(** The name of a market as the exchange gives it to a perpetual: not
    empty, not beginning with ["@"], not a number. *)
Definition symbol (name : string) : Prop :=
  name ≠ "" ∧ startswith_at name = false ∧ isdigit name = false.

(** The keys of the form ["@j"] that a mapper holds after a refresh with
    [n] perpetual markets: indices below [n], and indices from the offset
    of the spot markets on. *)
Definition keys_below (m : CoinMapper) (n : nat) : Prop :=
  (∀ j, is_Some (all_tokens m !! at_key j) → (j < n ∨ spot_index_offset ≤ j)%nat)
  ∧ (∀ j, is_Some (perp_map m !! at_key j) → (j < n)%nat)
  ∧ (∀ j, is_Some (spot_map m !! at_key j) → (spot_index_offset ≤ j)%nat)
  ∧ (∀ j, is_Some (index_to_name m !! at_key j) → (j < n ∨ spot_index_offset ≤ j)%nat).

End CoinMapper.

(** * Properties *)

(** ** The deduplicator *)

Module DedupFacts.
Import Dedup DedupRun.

Lemma value_range_bucket (v1 v2 : Z) :
  value_range v1 = value_range v2 ↔ spec_value_bucket v1 = spec_value_bucket v2.
Proof.
  unfold value_range, spec_value_bucket.
  repeat case_decide; repeat (case_match; try lia); split; congruence.
Qed.

Section WithHash.
Variable md5_hexdigest : string → string.

(** C6. The signature is a function of its five inputs and of nothing
    else: two events that agree on the wallet prefix, the coin, the type and
    the value bucket, evaluated at two times of one five-minute bucket, have
    the same signature; and two amounts fall in one value range exactly when
    they lie between the same two of the boundaries 10, 100, 1000, 10000 and
    100000. *)
Theorem signature_deterministic :
  (∀ (e1 e2 : Event) (t1 t2 : Z),
     signature_inputs e1 t1 = signature_inputs e2 t2 →
     _generate_signature md5_hexdigest e1 t1 = _generate_signature md5_hexdigest e2 t2)
  ∧ (∀ v1 v2 : Z,
       value_range v1 = value_range v2 ↔ spec_value_bucket v1 = spec_value_bucket v2).
Proof.
  split; [|apply value_range_bucket].
  intros e1 e2 t1 t2 Heq. unfold signature_inputs in Heq.
  injection Heq as Hw Hc Ht Hv Hb.
  apply value_range_bucket in Hv.
  unfold _generate_signature, signature_data, time_bucket.
  by rewrite Hw, Hc, Ht, Hv, Hb.
Qed.

(** *** Admission *)

Lemma cleanup_config (d : EventDeduplicator) (now : Z) :
  window_seconds (_cleanup_old_entries d now) = window_seconds d
  ∧ max_similar_events (_cleanup_old_entries d now) = max_similar_events d.
Proof. unfold _cleanup_old_entries. by case_match. Qed.

Lemma ensure_config (d : EventDeduplicator) (s : string) :
  window_seconds (ensure_signature d s) = window_seconds d
  ∧ max_similar_events (ensure_signature d s) = max_similar_events d.
Proof. unfold ensure_signature. by case_match. Qed.

Lemma prepared_config (d : EventDeduplicator) (e : Event) (c : Clock) :
  window_seconds (prepared md5_hexdigest d e c) = window_seconds d
  ∧ max_similar_events (prepared md5_hexdigest d e c) = max_similar_events d.
Proof.
  unfold prepared.
  destruct (ensure_config (_cleanup_old_entries d (t_cleanup c))
              (_generate_signature md5_hexdigest e (t_signature c))) as [-> ->].
  apply cleanup_config.
Qed.

Lemma recent_count_nonneg (d : EventDeduplicator) (s : string) (now : Z) :
  0 ≤ recent_count d s now.
Proof. unfold recent_count. lia. Qed.

(** The four outcomes of [should_allow_event], by the conditions of its
    branches. *)
Lemma should_allow_event_cases (d : EventDeduplicator) (e : Event) (c : Clock) :
  let usd := default 0 (ev_usd_value e) in
  let s := _generate_signature md5_hexdigest e (t_signature c) in
  let d0 := prepared md5_hexdigest d e c in
  let recent := recent_count d0 s (t_now c) in
  let r := should_allow_event md5_hexdigest d e c in
  (50000 ≤ usd ∧ r = (true, record_admission d0 s (t_now c)))
  ∨ (10000 ≤ usd < 50000 ∧ recent < max_similar_events d * 2
     ∧ r = (true, record_admission d0 s (t_now c)))
  ∨ (usd < 50000 ∧ ¬ (10000 ≤ usd ∧ recent < max_similar_events d * 2)
     ∧ recent < max_similar_events d
     ∧ r = (true, count_wallet (record_admission d0 s (t_now c))
                    (default "unknown" (ev_wallet e))))
  ∨ (usd < 50000 ∧ ¬ (10000 ≤ usd ∧ recent < max_similar_events d * 2)
     ∧ ¬ recent < max_similar_events d
     ∧ r = (false, suppress d0 s e)).
Proof.
  cbv zeta. unfold should_allow_event.
  change (ensure_signature _ _) with (prepared md5_hexdigest d e c).
  destruct (prepared_config d e c) as [_ ->].
  set (usd := default 0 (ev_usd_value e)).
  set (d0 := prepared md5_hexdigest d e c).
  set (s := _generate_signature md5_hexdigest e (t_signature c)).
  set (recent := recent_count d0 s (t_now c)).
  destruct (Z.leb_spec 50000 usd); [left; done|right].
  destruct (Z.leb_spec 10000 usd); simpl.
  - destruct (Z.ltb_spec recent (max_similar_events d * 2)); [left; split; [lia|done]|right].
    destruct (Z.ltb_spec recent (max_similar_events d)); [left|right]; repeat split; try done; lia.
  - right.
    destruct (Z.ltb_spec recent (max_similar_events d)); [left|right]; repeat split; try done; lia.
Qed.




(** *** The admission cap *)


















(** *** Summaries *)

Lemma sum_usd_foldr (l : list Event) :
  sum_usd l = foldr Z.add 0 ((λ e, default 0 (ev_usd_value e)) <$> l).
Proof. induction l as [|x l IH]; [done|]. rewrite fmap_cons. simpl. by rewrite IH. Qed.

Lemma distinct_fmap (f : Event → string) (l : list Event) (x : string) :
  x ∈ distinct (map f l) ↔ ∃ e, e ∈ l ∧ f e = x.
Proof.
  unfold distinct. rewrite elem_of_remove_dups. change (map f l) with (f <$> l).
  rewrite list_elem_of_fmap.
  split; [intros (e & -> & Hin)|intros (e & Hin & <-)]; eauto.
Qed.

Lemma activity_level_spec (n : Z) :
  activity_level n =
    (if decide (10 ≤ n) then "High Bot Activity"
     else if decide (5 ≤ n) then "Moderate Bot Activity"
     else "Similar Events").
Proof. unfold activity_level. repeat case_decide; repeat case_match; try done; lia. Qed.

Lemma summarize_cons_describes (W : Z) (e : Event) (evs : list Event) :
  summary_describes (e :: evs)
    {| sm_wallet := default "unknown" (ev_wallet e);
       sm_suppressed_count := Z.of_nat (length (e :: evs));
       sm_event_types := distinct (map (λ e, default "unknown" (ev_type e)) (e :: evs));
       sm_coins := distinct (map (λ e, default "unknown" (ev_coin e)) (e :: evs));
       sm_total_usd_value := sum_usd (e :: evs);
       sm_time_window := W;
       sm_activity_level := activity_level (Z.of_nat (length (e :: evs))) |}.
Proof.
  unfold summary_describes.
  cbn [sm_wallet sm_suppressed_count sm_total_usd_value sm_coins sm_event_types
       sm_activity_level].
  split; [done|]. split; [done|]. split; [apply sum_usd_foldr|].
  split; [apply NoDup_remove_dups|]. split; [intros coin; apply distinct_fmap|].
  split; [apply NoDup_remove_dups|]. split; [intros ty; apply distinct_fmap|].
  apply activity_level_spec.
Qed.

Lemma summarize_describes (W : Z) (evs : list Event) (sm : Summary) :
  summarize W evs = Some sm → summary_describes evs sm ∧ sm_time_window sm = W.
Proof.
  destruct evs as [|e evs]; [done|]. intros Hsm.
  assert (sm = {| sm_wallet := default "unknown" (ev_wallet e);
       sm_suppressed_count := Z.of_nat (length (e :: evs));
       sm_event_types := distinct (map (λ e, default "unknown" (ev_type e)) (e :: evs));
       sm_coins := distinct (map (λ e, default "unknown" (ev_coin e)) (e :: evs));
       sm_total_usd_value := sum_usd (e :: evs);
       sm_time_window := W;
       sm_activity_level := activity_level (Z.of_nat (length (e :: evs))) |}) as ->.
  { unfold summarize in Hsm. congruence. }
  split; [apply summarize_cons_describes|done].
Qed.

Lemma summarize_some (W : Z) (evs : list Event) :
  evs ≠ [] → ∃ sm, summarize W evs = Some sm ∧ sm_suppressed_count sm = Z.of_nat (length evs).
Proof. destruct evs; [done|]. intros _. eexists. split; [reflexivity|done]. Qed.

(** The loop of [get_all_suppressed_summaries] over a snapshot of keys
    without repetition. *)
Lemma summary_loop (d : EventDeduplicator) (ks : list string) :
  NoDup ks →
  let sigs := filter (λ s, (3 ≤ length (default [] (suppressed_events d !! s)))%nat) ks in
  let r := foldl summary_step ([], d) ks in
  Forall2 (λ s sm, summarize (window_seconds d) (default [] (suppressed_events d !! s)) = Some sm)
          sigs r.1
  ∧ (∀ s, suppressed_events r.2 !! s
          = if decide (s ∈ sigs) then Some [] else suppressed_events d !! s)
  ∧ same_but_suppressed d r.2.
Proof.
  cbv zeta. induction ks as [|k ks IH] using rev_ind; intros Hnd.
  { simpl. split; [constructor|]. split; [done|]. by repeat split. }
  apply NoDup_app in Hnd as (Hnd & Hk & _).
  destruct (IH Hnd) as (Hsms & Hlook & Hsame). clear IH.
  rewrite foldl_app, filter_app. simpl.
  destruct (foldl summary_step ([], d) ks) as [sms d'] eqn:Hfold. simpl in *.
  assert (suppressed_events d' !! k = suppressed_events d !! k) as Hk'.
  { rewrite Hlook. rewrite decide_False; [done|].
    intros [_ Hin]%list_elem_of_filter. eapply Hk; [exact Hin|]. by apply list_elem_of_here. }
  destruct Hsame as (HW & HL & Hsig & Hwc & Hlc & Hls & Hsi).
  unfold get_suppressed_summary. rewrite Hk', HW.
  rewrite filter_singleton by exact ks.
  destruct (decide (3 ≤ length (default [] (suppressed_events d !! k)))%nat) as [H3|H3].
  - destruct (suppressed_events d !! k) as [evs|] eqn:Hevs; [|simpl in H3; lia].
    simpl in H3.
    destruct (summarize_some (window_seconds d) evs) as (sm & Hsm & Hcount).
    { intros ->. simpl in H3. lia. }
    rewrite Hsm, Hcount.
    destruct (Z.leb_spec 3 (Z.of_nat (length evs))); [|lia].
    cbn [fst snd]. split; [|split].
    + apply Forall2_app; [done|]. constructor; [|constructor]. by rewrite Hevs.
    + intros s. unfold clear_suppressed. cbn [suppressed_events].
      destruct (decide (s = k)) as [->|Hne].
      * rewrite lookup_insert_eq, decide_True; [done|].
        apply elem_of_app. right. by apply list_elem_of_here.
      * rewrite lookup_insert_ne by done. rewrite Hlook.
        apply decide_ext. rewrite elem_of_app, list_elem_of_singleton. tauto.
    + by repeat split.
  - rewrite app_nil_r.
    assert (summary_step (sms, d') k = (sms, d')) as Hstep.
    { unfold summary_step, get_suppressed_summary. rewrite Hk', HW.
      destruct (suppressed_events d !! k) as [evs|] eqn:Hevs; [|done].
      simpl in H3.
      destruct (summarize (window_seconds d) evs) as [sm|] eqn:Hsm; [|done].
      apply summarize_describes in Hsm as [(_ & Hcount & _) _]. rewrite Hcount.
      by destruct (Z.leb_spec 3 (Z.of_nat (length evs))); [lia|]. }
    unfold summary_step, get_suppressed_summary in Hstep. rewrite Hk', HW in Hstep.
    rewrite Hstep. by repeat split.
Qed.

Lemma qualifying_spec (d : EventDeduplicator) (s : string) :
  s ∈ qualifying d ↔ ∃ evs, suppressed_events d !! s = Some evs ∧ (3 ≤ length evs)%nat.
Proof.
  unfold qualifying, suppressed_keys. rewrite list_elem_of_filter, list_elem_of_fmap. split.
  - intros (Hlen & [s' evs] & -> & Hin). apply elem_of_map_to_list in Hin. simpl in *.
    rewrite Hin in Hlen. eauto.
  - intros (evs & Hevs & Hlen). rewrite Hevs. split; [done|].
    exists (s, evs). split; [done|]. by apply elem_of_map_to_list.
Qed.

Lemma qualifying_NoDup (d : EventDeduplicator) : NoDup (qualifying d).
Proof. apply NoDup_filter, NoDup_fst_map_to_list. Qed.

(** One call of [get_all_suppressed_summaries] when the interval has elapsed. *)
Lemma summaries_run (d : EventDeduplicator) (now : Z) :
  summary_interval d ≤ now - last_summary_time d →
  let r := get_all_suppressed_summaries d now in
  Forall2 (λ s sm, ∃ evs, suppressed_events d !! s = Some evs ∧ (3 ≤ length evs)%nat
                          ∧ summary_describes evs sm ∧ sm_time_window sm = window_seconds d)
          (qualifying d) r.1
  ∧ (∀ s, s ∈ qualifying d → suppressed_events r.2 !! s = Some [])
  ∧ (∀ s, s ∉ qualifying d → suppressed_events r.2 !! s = suppressed_events d !! s)
  ∧ (r.1 ≠ [] → last_summary_time r.2 = now ∧ summary_interval r.2 = summary_interval d)
  ∧ (r.1 = [] → r.2 = d).
Proof.
  intros Hgate. cbv zeta. unfold get_all_suppressed_summaries.
  destruct (Z.ltb_spec (now - last_summary_time d) (summary_interval d)); [lia|].
  destruct (summary_loop d (suppressed_keys d)) as (Hsms & Hlook & Hsame).
  { apply NoDup_fst_map_to_list. }
  fold (qualifying d) in Hsms, Hlook.
  destruct (foldl summary_step ([], d) (suppressed_keys d)) as [sms d'] eqn:Hfold.
  simpl in Hsms, Hlook, Hsame.
  assert (Forall2 (λ s sm, ∃ evs, suppressed_events d !! s = Some evs ∧ (3 ≤ length evs)%nat
                      ∧ summary_describes evs sm ∧ sm_time_window sm = window_seconds d)
            (qualifying d) sms) as Hdesc.
  { apply Forall2_same_length_lookup. split; [by eapply Forall2_length|].
    intros i s sm Hs Hsm.
    pose proof (Forall2_lookup_lr _ _ _ _ _ _ Hsms Hs Hsm) as Hsum.
    apply list_elem_of_lookup_2, qualifying_spec in Hs as (evs & Hevs & Hlen).
    simpl in Hsum. rewrite Hevs in Hsum. simpl in Hsum.
    exists evs. split; [done|]. split; [done|]. by apply summarize_describes. }
  destruct Hsame as (HW & HL & Hsig & Hwc & Hlc & Hls & Hsi).
  destruct sms as [|sm sms]; simpl.
  - split; [done|]. apply Forall2_nil_inv_r in Hsms.
    repeat split.
    + intros s Hin. rewrite Hsms in Hin. by apply not_elem_of_nil in Hin.
    + intros s _. rewrite Hlook, Hsms. by rewrite decide_False by apply not_elem_of_nil.
    + done.
    + done.
    + intros _. destruct d, d'. simpl in *. subst. f_equal.
      apply map_eq. intros s. rewrite Hlook, Hsms.
      by rewrite decide_False by apply not_elem_of_nil.
  - split; [done|]. repeat split; try done.
    + intros s Hin. rewrite Hlook. by rewrite decide_True.
    + intros s Hin. rewrite Hlook. by rewrite decide_False.
Qed.

Lemma summaries_gate (d : EventDeduplicator) (now : Z) :
  now - last_summary_time d < summary_interval d →
  get_all_suppressed_summaries d now = ([], d).
Proof.
  intros Hgate. unfold get_all_suppressed_summaries.
  by destruct (Z.ltb_spec (now - last_summary_time d) (summary_interval d)); [|lia].
Qed.

Lemma prepared_summary_clock (d : EventDeduplicator) (e : Event) (c : Clock) :
  last_summary_time (prepared md5_hexdigest d e c) = last_summary_time d
  ∧ summary_interval (prepared md5_hexdigest d e c) = summary_interval d.
Proof.
  unfold prepared, ensure_signature, _cleanup_old_entries.
  repeat case_match; done.
Qed.

Lemma should_allow_summary_clock (d : EventDeduplicator) (e : Event) (c : Clock) :
  last_summary_time (should_allow_event md5_hexdigest d e c).2 = last_summary_time d
  ∧ summary_interval (should_allow_event md5_hexdigest d e c).2 = summary_interval d.
Proof.
  destruct (prepared_summary_clock d e c) as [H1 H2].
  destruct (should_allow_event_cases d e c)
    as [[_ ->]|[(_ & _ & ->)|[(_ & _ & _ & ->)|(_ & _ & _ & ->)]]]; done.
Qed.

Lemma state_after_summary_clock (calls : list (Event * Clock)) (d : EventDeduplicator) :
  last_summary_time (state_after md5_hexdigest d calls) = last_summary_time d
  ∧ summary_interval (state_after md5_hexdigest d calls) = summary_interval d.
Proof.
  revert d. induction calls as [|[e c] calls IH]; intros d; [done|].
  simpl. destruct (IH (should_allow_event md5_hexdigest d e c).2) as [-> ->].
  apply should_allow_summary_clock.
Qed.

(** After summaries were emitted at [now1], no call made less than an
    interval later emits any, whatever events are filtered in between. *)
Lemma summaries_spacing (d : EventDeduplicator) (now1 now2 : Z) (calls : list (Event * Clock)) :
  (get_all_suppressed_summaries d now1).1 ≠ [] →
  now2 - now1 < summary_interval d →
  (get_all_suppressed_summaries
     (state_after md5_hexdigest (get_all_suppressed_summaries d now1).2 calls) now2).1 = [].
Proof.
  intros Hemit Hclose.
  destruct (Z.lt_ge_cases (now1 - last_summary_time d) (summary_interval d)) as [Hgate|Hgate].
  { by rewrite (summaries_gate d now1 Hgate) in Hemit. }
  destruct (summaries_run d now1 Hgate) as (_ & _ & _ & Hlast & _).
  destruct (Hlast Hemit) as [Hls Hsi].
  destruct (state_after_summary_clock calls (get_all_suppressed_summaries d now1).2) as [Hls' Hsi'].
  rewrite summaries_gate; [done|]. rewrite Hls', Hsi', Hls, Hsi. done.
Qed.

(** *** Scenario B *)

Section ScenarioB.

Variables (e : Event) (s : string) (W L : Z).
Hypothesis standard : default 0 (ev_usd_value e) < 10000.

Lemma filter_Forall_id (P : Z → Prop) `{∀ x, Decision (P x)} (l : list Z) :
  Forall P l → filter P l = l.
Proof.
  induction 1 as [|x l Hx _ IH]; [done|]. by rewrite filter_cons_True, IH.
Qed.

(** The clean-up leaves a bucket alone whose time stamps are all younger
    than the window. *)
Lemma cleanup_singleton (l : list Z) (sup : list Event) (wc : gmap string Z)
    (lc ls si t : Z) :
  l ≠ [] → Forall (λ ts, t - W < ts) l →
  ∃ lc', _cleanup_old_entries (mkDedup W L {[s := l]} {[s := sup]} wc lc ls si) t
         = mkDedup W L {[s := l]} {[s := sup]} wc lc' ls si.
Proof.
  intros Hne Hyoung. unfold _cleanup_old_entries. simpl.
  destruct (Z.ltb_spec (t - lc) 120); [by exists lc|]. exists t.
  assert (omap (prune (t - W)) ({[s := l]} : gmap string (list Z)) = {[s := l]}) as ->.
  { apply omap_singleton_Some. unfold prune. rewrite filter_Forall_id by done.
    by destruct l. }
  rewrite map_filter_singleton_True; [done|]. simpl. by rewrite lookup_singleton_eq.
Qed.

(** A call on a state whose only bucket is the one of the event. *)
Lemma should_allow_singleton (l : list Z) (sup : list Event) (wc : gmap string Z)
    (lc ls si : Z) (c : Clock) :
  l ≠ [] → Forall (λ ts, t_cleanup c - W < ts) l →
  _generate_signature md5_hexdigest e (t_signature c) = s →
  ∃ lc',
  should_allow_event md5_hexdigest (mkDedup W L {[s := l]} {[s := sup]} wc lc ls si) e c
  = if Z.of_nat (length (filter (λ ts, t_now c - ts ≤ W) l)) <? L
    then (true, mkDedup W L {[s := l ++ [t_now c]]} {[s := sup]}
                  (<[default "unknown" (ev_wallet e)
                     := default 0 (wc !! default "unknown" (ev_wallet e)) + 1]> wc) lc' ls si)
    else (false, mkDedup W L {[s := l]} {[s := sup ++ [e]]} wc lc' ls si).
Proof.
  intros Hne Hyoung Hsig.
  destruct (cleanup_singleton l sup wc lc ls si (t_cleanup c) Hne Hyoung) as [lc' Hclean].
  exists lc'. unfold should_allow_event. rewrite Hclean, Hsig.
  assert (ensure_signature (mkDedup W L {[s := l]} {[s := sup]} wc lc' ls si) s
          = mkDedup W L {[s := l]} {[s := sup]} wc lc' ls si) as ->.
  { unfold ensure_signature. cbn. by rewrite lookup_singleton_eq. }
  unfold recent_count. cbn [event_signatures window_seconds max_similar_events].
  rewrite lookup_singleton_eq. cbn [default].
  destruct (Z.leb_spec 50000 (default 0 (ev_usd_value e))); [lia|].
  destruct (Z.leb_spec 10000 (default 0 (ev_usd_value e))); [lia|].
  cbn [andb].
  match goal with
  | |- (if ?b then _ else _) = (if ?b' then _ else _) => change b' with b; destruct b
  end.
  - unfold count_wallet, record_admission. cbn. rewrite lookup_singleton_eq. cbn.
    by rewrite insert_singleton_eq.
  - unfold suppress. cbn. rewrite lookup_singleton_eq. cbn.
    by rewrite insert_singleton_eq.
Qed.

Lemma singleton_admit (l : list Z) (sup : list Event) (wc : gmap string Z)
    (lc ls si : Z) (c : Clock) :
  l ≠ [] → Forall (λ ts, t_cleanup c - W < ts) l →
  _generate_signature md5_hexdigest e (t_signature c) = s →
  Z.of_nat (length l) < L →
  ∃ wc' lc',
  should_allow_event md5_hexdigest (mkDedup W L {[s := l]} {[s := sup]} wc lc ls si) e c
  = (true, mkDedup W L {[s := l ++ [t_now c]]} {[s := sup]} wc' lc' ls si).
Proof.
  intros Hne Hyoung Hsig Hfew.
  destruct (should_allow_singleton l sup wc lc ls si c Hne Hyoung Hsig) as [lc' ->].
  pose proof (length_filter (λ ts, t_now c - ts ≤ W) l).
  destruct (Z.ltb_spec (Z.of_nat (length (filter (λ ts, t_now c - ts ≤ W) l))) L); [|lia].
  eauto.
Qed.

Lemma singleton_suppress (l : list Z) (sup : list Event) (wc : gmap string Z)
    (lc ls si : Z) (c : Clock) :
  l ≠ [] → Forall (λ ts, t_cleanup c - W < ts) l →
  _generate_signature md5_hexdigest e (t_signature c) = s →
  Forall (λ ts, t_now c - ts ≤ W) l →
  L ≤ Z.of_nat (length l) →
  ∃ lc',
  should_allow_event md5_hexdigest (mkDedup W L {[s := l]} {[s := sup]} wc lc ls si) e c
  = (false, mkDedup W L {[s := l]} {[s := sup ++ [e]]} wc lc' ls si).
Proof.
  intros Hne Hyoung Hsig Hrecent Hmany.
  destruct (should_allow_singleton l sup wc lc ls si c Hne Hyoung Hsig) as [lc' ->].
  rewrite filter_Forall_id by done.
  destruct (Z.ltb_spec (Z.of_nat (length l)) L); [lia|]. eauto.
Qed.

(** The first call on a new deduplicator, whether the clean-up runs or not. *)
Lemma should_allow_fresh (t0 : Z) (c : Clock) :
  _generate_signature md5_hexdigest e (t_signature c) = s →
  0 < L →
  ∃ lc, (lc = t0 ∨ lc = t_cleanup c) ∧
    should_allow_event md5_hexdigest (init t0 W L) e c
    = (true, mkDedup W L {[s := [t_now c]]} {[s := []]}
               {[default "unknown" (ev_wallet e) := 1]} lc t0 300).
Proof.
  intros Hsig HL.
  exists (if t_cleanup c - t0 <? 120 then t0 else t_cleanup c).
  split; [case_match; tauto|].
  unfold should_allow_event, init, _cleanup_old_entries.
  cbn [last_cleanup window_seconds max_similar_events event_signatures suppressed_events
       wallet_event_counts last_summary_time summary_interval].
  rewrite Hsig, omap_empty, map_filter_empty.
  assert (∀ lc, ensure_signature (mkDedup W L ∅ ∅ ∅ lc t0 300) s
                = mkDedup W L {[s := []]} {[s := []]} ∅ lc t0 300) as Hens.
  { intros lc. unfold ensure_signature. cbn. by rewrite lookup_empty. }
  destruct (t_cleanup c - t0 <? 120); rewrite Hens;
    unfold recent_count; cbn [event_signatures window_seconds max_similar_events];
    rewrite lookup_singleton_eq; cbn [default from_option filter list_filter length];
    (destruct (Z.leb_spec 50000 (default 0 (ev_usd_value e))); [lia|]);
    (destruct (Z.leb_spec 10000 (default 0 (ev_usd_value e))); [lia|]);
    cbn [andb];
    match goal with
    | |- (if ?b then _ else _) = _ => assert (b = true) as -> by (apply Z.ltb_lt; simpl; lia)
    end;
    unfold count_wallet, record_admission; cbn;
    rewrite lookup_singleton_eq, lookup_empty; cbn;
    by rewrite insert_singleton_eq, insert_empty.
Qed.

End ScenarioB.

Lemma signature_same_bucket (e : Event) (t t' : Z) :
  time_bucket t = time_bucket t' →
  _generate_signature md5_hexdigest e t = _generate_signature md5_hexdigest e t'.
Proof.
  intros Hb. unfold _generate_signature, signature_data. by rewrite Hb.
Qed.

Lemma scenario_B (e : Event) (t0 now : Z) (c1 c2 c3 c4 c5 : Clock) :
  default 0 (ev_usd_value e) < 10000 →
  calls_ordered t0 [CallAllow e c1; CallAllow e c2; CallAllow e c3;
                    CallAllow e c4; CallAllow e c5] →
  t_now c5 - t_cleanup c1 ≤ 10 →
  Forall (λ c, time_bucket (t_signature c) = time_bucket (t_signature c1)) [c2; c3; c4; c5] →
  t0 + 300 ≤ now →
  let fills := [(e, c1); (e, c2); (e, c3); (e, c4); (e, c5)] in
  decisions md5_hexdigest (event_deduplicator t0) fills = [true; true; false; false; false]
  ∧ ∃ sm,
      (get_all_suppressed_summaries
         (state_after md5_hexdigest (event_deduplicator t0) fills) now).1 = [sm]
      ∧ sm_suppressed_count sm = 3
      ∧ summary_describes [e; e; e] sm.
Proof.
  intros Hstd Hord Hspan Hbucket Hnow fills.
  set (s := _generate_signature md5_hexdigest e (t_signature c1)).
  apply Forall_cons in Hbucket as [Hb2 Hbucket]. apply Forall_cons in Hbucket as [Hb3 Hbucket].
  apply Forall_cons in Hbucket as [Hb4 Hbucket]. apply Forall_cons in Hbucket as [Hb5 _].
  apply signature_same_bucket with (e := e) in Hb2, Hb3, Hb4, Hb5. fold s in Hb2, Hb3, Hb4, Hb5.
  simpl in Hord. unfold clock_ok in Hord.
  destruct Hord as (? & [? ?] & ? & [? ?] & ? & [? ?] & ? & [? ?] & ? & [? ?] & _).
  destruct (should_allow_fresh e s 180 2 Hstd t0 c1 eq_refl) as (lc1 & _ & Hs1); [lia|].
  destruct (singleton_admit e s 180 2 Hstd [t_now c1] [] {[default "unknown" (ev_wallet e) := 1]}
              lc1 t0 300 c2) as (wc2 & lc2 & Hs2);
    [done|repeat constructor; lia|done|simpl; lia|].
  destruct (singleton_suppress e s 180 2 Hstd [t_now c1; t_now c2] [] wc2 lc2 t0 300 c3)
    as (lc3 & Hs3); [done|repeat constructor; lia|done|repeat constructor; lia|simpl; lia|].
  destruct (singleton_suppress e s 180 2 Hstd [t_now c1; t_now c2] [e] wc2 lc3 t0 300 c4)
    as (lc4 & Hs4); [done|repeat constructor; lia|done|repeat constructor; lia|simpl; lia|].
  destruct (singleton_suppress e s 180 2 Hstd [t_now c1; t_now c2] [e; e] wc2 lc4 t0 300 c5)
    as (lc5 & Hs5); [done|repeat constructor; lia|done|repeat constructor; lia|simpl; lia|].
  simpl in Hs2, Hs3, Hs4, Hs5.
  subst fills. unfold event_deduplicator. cbn [decisions state_after].
  rewrite Hs1. cbn [fst snd]. rewrite Hs2. cbn [fst snd]. rewrite Hs3. cbn [fst snd].
  rewrite Hs4. cbn [fst snd]. rewrite Hs5. cbn [fst snd].
  split; [done|].
  set (d5 := mkDedup 180 2 {[s := [t_now c1; t_now c2]]} {[s := [e; e; e]]} wc2 lc5 t0 300).
  destruct (summaries_run d5 now) as (Hsms & _); [simpl; lia|].
  assert (qualifying d5 = [s]) as Hq.
  { unfold qualifying, suppressed_keys, d5. cbn [suppressed_events].
    rewrite map_to_list_singleton. cbn [fmap list_fmap fst].
    rewrite filter_cons_True, filter_nil; [done|].
    rewrite lookup_singleton_eq. simpl. lia. }
  rewrite Hq in Hsms.
  apply Forall2_cons_inv_l in Hsms as (sm & sms & (evs & Hevs & _ & Hdesc & _) & Hnil & Hr).
  apply Forall2_nil_inv_l in Hnil as ->.
  unfold d5 in Hevs. cbn [suppressed_events] in Hevs.
  rewrite lookup_singleton_eq in Hevs. injection Hevs as <-.
  exists sm. split; [done|]. split; [|done].
  by destruct Hdesc as (_ & -> & _).
Qed.

(** C7. Summaries.  A call of [get_all_suppressed_summaries] less than
    [summary_interval] (300 seconds for every deduplicator) after the
    creation of the deduplicator or after the last call that emitted
    summaries returns nothing and changes nothing, also when events are
    filtered in between.  A call after the interval returns exactly one
    summary for each signature whose suppressed list holds at least three
    events and for no other; the summary has the wallet of the first
    suppressed event, the number of suppressed events, their total value,
    their distinct coins, their distinct types and the label given by the
    thresholds 10 and 5 on the number; the suppressed list of each
    summarized signature is empty afterwards and the other lists are
    unchanged.  Scenario B: of five fills of less than 10,000 dollars for
    one wallet and coin, within ten seconds and one time bucket, the first
    two are admitted and three are suppressed, and a call 300 seconds or
    more after the creation returns exactly one summary, of three events. *)
Theorem periodic_summaries :
  (∀ t0 W L, summary_interval (init t0 W L) = 300 ∧ last_summary_time (init t0 W L) = t0)
  ∧ (∀ d e c, summary_interval (should_allow_event md5_hexdigest d e c).2 = summary_interval d)
  ∧ (∀ d now, now - last_summary_time d < summary_interval d →
       get_all_suppressed_summaries d now = ([], d))
  ∧ (∀ d now1 now2 calls,
       (get_all_suppressed_summaries d now1).1 ≠ [] →
       now2 - now1 < summary_interval d →
       (get_all_suppressed_summaries
          (state_after md5_hexdigest (get_all_suppressed_summaries d now1).2 calls) now2).1 = [])
  ∧ (∀ d now, summary_interval d ≤ now - last_summary_time d →
       let r := get_all_suppressed_summaries d now in
       NoDup (qualifying d)
       ∧ (∀ s, s ∈ qualifying d ↔
               ∃ evs, suppressed_events d !! s = Some evs ∧ (3 ≤ length evs)%nat)
       ∧ Forall2 (λ s sm, ∃ evs, suppressed_events d !! s = Some evs
                                 ∧ summary_describes evs sm)
                 (qualifying d) r.1
       ∧ (∀ s, s ∈ qualifying d → suppressed_events r.2 !! s = Some [])
       ∧ (∀ s, s ∉ qualifying d → suppressed_events r.2 !! s = suppressed_events d !! s)
       ∧ (r.1 ≠ [] → last_summary_time r.2 = now))
  ∧ (∀ e t0 now c1 c2 c3 c4 c5,
       default 0 (ev_usd_value e) < 10000 →
       calls_ordered t0 [CallAllow e c1; CallAllow e c2; CallAllow e c3;
                         CallAllow e c4; CallAllow e c5] →
       t_now c5 - t_cleanup c1 ≤ 10 →
       Forall (λ c, time_bucket (t_signature c) = time_bucket (t_signature c1))
              [c2; c3; c4; c5] →
       t0 + 300 ≤ now →
       let fills := [(e, c1); (e, c2); (e, c3); (e, c4); (e, c5)] in
       decisions md5_hexdigest (event_deduplicator t0) fills
       = [true; true; false; false; false]
       ∧ ∃ sm,
           (get_all_suppressed_summaries
              (state_after md5_hexdigest (event_deduplicator t0) fills) now).1 = [sm]
           ∧ sm_suppressed_count sm = 3
           ∧ summary_describes [e; e; e] sm).
Proof.
  split; [done|]. split; [intros; apply should_allow_summary_clock|].
  split; [apply summaries_gate|]. split; [apply summaries_spacing|].
  split; [|apply scenario_B].
  intros d now Hgate.
  destruct (summaries_run d now Hgate) as (Hsms & Hcleared & Hkept & Hlast & _).
  split; [apply qualifying_NoDup|]. split; [apply qualifying_spec|].
  split; [|split; [done|split; [done|]]].
  - eapply Forall2_impl; [exact Hsms|]. intros s sm (evs & ? & _ & ? & _). eauto.
  - intros Hemit. by destruct (Hlast Hemit).
Qed.

End WithHash.

(** The window of [admission_cap] is open at its old end.  An admission
    that is exactly one window old is still counted by [recent_count], but
    the clean-up of a call that reads the same clock value has dropped it
    before the count: with a window of 180 and a limit of 2, the fills of 0,
    1 and 180 are all admitted when the call of 180 cleans up, and the fill
    of 180 is suppressed when it does not (the clean-up ran at 130). *)
Lemma window_boundary :
  let fill := mkEvent (Some "0xDEF456") None (Some "DOGE") (Some "fill") (Some 5) in
  let at_ t := mkClock t t t in
  decisions id (event_deduplicator 0) [(fill, at_ 0); (fill, at_ 1); (fill, at_ 180)]
  = [true; true; true]
  ∧ decisions id (event_deduplicator 100) [(fill, at_ 100); (fill, at_ 101); (fill, at_ 280)]
    = [true; true; true]
  ∧ decisions id (event_deduplicator 0) [(fill, at_ 0); (fill, at_ 1); (fill, at_ 130);
                                          (fill, at_ 180)]
    = [true; true; false; false].
Proof. vm_compute. done. Qed.

(** Two five-dollar and seven-dollar fills of one wallet prefix, 299 seconds
    apart in one bucket. *)
Lemma signature_deterministic_witness :
  _generate_signature id
    (mkEvent (Some "0xDEF456789abcdef") None (Some "DOGE") (Some "fill") (Some 5)) 1200
  = _generate_signature id
    (mkEvent (Some "0xDEF456789abc000") None (Some "DOGE") (Some "fill") (Some 7)) 1499.
Proof.
  apply (proj1 (signature_deterministic id)). reflexivity.
Defined.



(** Scenario B with concrete times: the deduplicator is created at 1000,
    five five-dollar DOGE fills arrive from 1001 to 1005, and the summaries
    are asked for at 1300. *)
Lemma periodic_summaries_witness :
  let fill := mkEvent (Some "0xDEF456") None (Some "DOGE") (Some "fill") (Some 5) in
  let at_ t := mkClock t t t in
  let fills := [(fill, at_ 1001); (fill, at_ 1002); (fill, at_ 1003);
                (fill, at_ 1004); (fill, at_ 1005)] in
  decisions id (event_deduplicator 1000) fills = [true; true; false; false; false]
  ∧ ∃ sm,
      (get_all_suppressed_summaries (state_after id (event_deduplicator 1000) fills) 1300).1
      = [sm]
      ∧ sm_suppressed_count sm = 3
      ∧ summary_describes [fill; fill; fill] sm.
Proof.
  intros fill at_ fills.
  apply (proj2 (proj2 (proj2 (proj2 (proj2 (periodic_summaries id)))))).
  - simpl. lia.
  - unfold calls_ordered, clock_ok. simpl. lia.
  - simpl. lia.
  - repeat constructor.
  - lia.
Defined.

End DedupFacts.

(** ** The notification dispatcher *)

Module DispatcherFacts.
Import Dispatcher.

(** *** The cooldown check *)

Lemma can_send_spec (st : NotificationRateLimiter) (now : Z) (channel wallet_key : string) :
  let r := can_send_notification st now channel wallet_key in
  (r.1 = true ↔ cooldown_of st channel < now - last_time st (channel, wallet_key))
  ∧ (r.1 = true → r.2 = set_last_sent st (channel, wallet_key) now)
  ∧ (r.1 = false → r.2 = st).
Proof.
  unfold can_send_notification, _get_key. cbv zeta.
  destruct (Z.ltb_spec (cooldown_of st channel) (now - last_time st (channel, wallet_key)));
    simpl; repeat split; intros; try done; lia.
Qed.

Lemma channel_cooldowns :
  cooldown_of notification_rate_limiter "webhook" = 15
  ∧ cooldown_of notification_rate_limiter "telegram" = 45
  ∧ cooldown_of notification_rate_limiter "discord" = 45
  ∧ cooldown_of notification_rate_limiter "email" = 60
  ∧ ∀ channel, channel ∉ CHANNEL_HANDLERS → cooldown_of notification_rate_limiter channel = 30.
Proof.
  repeat split; try reflexivity.
  intros channel Hother. unfold cooldown_of, notification_rate_limiter, init, CHANNEL_COOLDOWNS.
  simpl. unfold CHANNEL_HANDLERS in Hother.
  rewrite !lookup_insert_ne, lookup_empty; [done|..];
    intros <-; apply Hother; set_solver.
Qed.


(** [process_event_notification] when the check is positive. *)
Lemma process_allowed (st : NotificationRateLimiter) (now : Z) (channel : string)
    (event : Event) (o : send_outcome) :
  let wallet_key := _get_wallet_key event in
  let r := process_event_notification st now channel event o in
  cooldown_of st channel < now - last_time st (channel, wallet_key) →
  cooldowns r.1 = cooldowns st
  ∧ last_sent r.1 = <[(channel, wallet_key) := now]> (last_sent st)
  ∧ get_pending_events r.1 channel wallet_key = []
  ∧ (∀ key, key ≠ (channel, wallet_key) → pending_events r.1 !! key = pending_events st !! key)
  ∧ r.2 = _send_notification channel (get_pending_events st channel wallet_key ++ [event]) o.
Proof.
  intros wallet_key r Hok. subst r. unfold process_event_notification. fold wallet_key.
  destruct (can_send_spec st now channel wallet_key) as (Hiff & Hset & _).
  destruct (can_send_notification st now channel wallet_key) as [ok st1].
  simpl in Hiff, Hset. rewrite (proj2 Hiff Hok) in *. rewrite (Hset eq_refl).
  unfold get_pending_events, _get_key, clear_pending_events, _get_key.
  cbn [set_last_sent pending_events cooldowns last_sent].
  destruct (pending_events st !! (channel, wallet_key)) as [[|e evs]|] eqn:Hp;
    cbn [default from_option id fst snd set_last_sent pending_events cooldowns last_sent].
  - rewrite Hp. done.
  - rewrite lookup_delete_eq. repeat split; try done.
    intros key Hne. by rewrite lookup_delete_ne.
  - rewrite Hp. done.
Qed.

(** [process_event_notification] when the check is negative. *)
Lemma process_denied (st : NotificationRateLimiter) (now : Z) (channel : string)
    (event : Event) (o : send_outcome) :
  let wallet_key := _get_wallet_key event in
  ¬ cooldown_of st channel < now - last_time st (channel, wallet_key) →
  process_event_notification st now channel event o
  = (add_pending_event st channel wallet_key event, None).
Proof.
  intros wallet_key Hno. unfold process_event_notification. fold wallet_key.
  destruct (can_send_spec st now channel wallet_key) as (Hiff & _ & Hkeep).
  destruct (can_send_notification st now channel wallet_key) as [[|] st1]; simpl in *.
  - destruct Hno. by apply Hiff.
  - by rewrite (Hkeep eq_refl).
Qed.

(** The outcome of the handler has no influence on the limiter. *)
Lemma process_state_outcome (st : NotificationRateLimiter) (now : Z) (channel : string)
    (event : Event) (o o' : send_outcome) :
  (process_event_notification st now channel event o).1
  = (process_event_notification st now channel event o').1.
Proof.
  unfold process_event_notification.
  destruct (can_send_notification st now channel (_get_wallet_key event)) as [[|] st1]; done.
Qed.


(** *** The periodic flush *)

Lemma flush_loop_step (now : Z) (outcome : string * string → send_outcome)
    (st : NotificationRateLimiter) (log : list ((string * string) * Delivery))
    (item : (string * string) * list Event) :
  flush_loop now outcome (st, log) item
  = ({| cooldowns := cooldowns st;
        last_sent := <[item.1 := now]> (last_sent st);
        pending_events := delete item.1 (pending_events st) |},
     log ++ option_list (flush_delivery outcome item)).
Proof.
  unfold flush_loop, flush_one, flush_delivery, set_last_sent, clear_pending_events, _get_key.
  destruct item as [[channel wallet_key] events]. simpl.
  destruct (_send_notification channel events (outcome (channel, wallet_key))); simpl;
    by rewrite ?app_nil_r.
Qed.

(** The second loop of the flush over entries with distinct keys. *)
Lemma flush_fold (now : Z) (outcome : string * string → send_outcome)
    (items : list ((string * string) * list Event)) :
  NoDup items.*1 →
  ∀ st log,
    let r := foldl (flush_loop now outcome) (st, log) items in
    cooldowns r.1 = cooldowns st
    ∧ (∀ k, pending_events r.1 !! k
            = if decide (k ∈ items.*1) then None else pending_events st !! k)
    ∧ (∀ k, last_sent r.1 !! k
            = if decide (k ∈ items.*1) then Some now else last_sent st !! k)
    ∧ r.2 = log ++ omap (flush_delivery outcome) items.
Proof.
  induction items as [|item items IH]; intros Hnd st log.
  { simpl. by rewrite app_nil_r. }
  rewrite fmap_cons in Hnd. apply NoDup_cons in Hnd as [Hfresh Hnd].
  cbn [foldl]. rewrite flush_loop_step.
  destruct (IH Hnd {| cooldowns := cooldowns st;
                      last_sent := <[item.1 := now]> (last_sent st);
                      pending_events := delete item.1 (pending_events st) |}
               (log ++ option_list (flush_delivery outcome item)))
    as (Hcd & Hpend & Hlast & Hlog).
  cbv zeta. rewrite Hcd. split; [done|]. split; [|split].
  - intros k. rewrite Hpend. cbn [pending_events]. rewrite fmap_cons.
    destruct (decide (k = item.1)) as [->|Hne].
    + rewrite lookup_delete_eq. rewrite (decide_True (P := item.1 ∈ item.1 :: items.*1));
        [by case_decide|by apply list_elem_of_here].
    + rewrite lookup_delete_ne by done. apply decide_ext. rewrite elem_of_cons. tauto.
  - intros k. rewrite Hlast. cbn [last_sent]. rewrite fmap_cons.
    destruct (decide (k = item.1)) as [->|Hne].
    + rewrite lookup_insert_eq. rewrite (decide_True (P := item.1 ∈ item.1 :: items.*1));
        [by case_decide|by apply list_elem_of_here].
    + rewrite lookup_insert_ne by done. apply decide_ext. rewrite elem_of_cons. tauto.
  - rewrite Hlog, <- app_assoc. f_equal. simpl.
    by destruct (flush_delivery outcome item).
Qed.

Lemma flush_due_spec (st : NotificationRateLimiter) (now : Z)
    (key : string * string) (events : list Event) :
  flush_due st now (key, events) = true
  ↔ events ≠ [] ∧ cooldown_of st key.1 < now - last_time st key.
Proof.
  unfold flush_due. simpl. rewrite andb_true_iff, Z.ltb_lt.
  destruct events; split; intros [? ?]; done.
Qed.

Lemma keys_to_flush_elem (st : NotificationRateLimiter) (now : Z)
    (key : string * string) (events : list Event) :
  (key, events) ∈ keys_to_flush st now
  ↔ pending_events st !! key = Some events ∧ events ≠ []
    ∧ cooldown_of st key.1 < now - last_time st key.
Proof.
  unfold keys_to_flush.
  rewrite list_elem_of_filter, elem_of_map_to_list, flush_due_spec. tauto.
Qed.

Lemma keys_to_flush_due (st : NotificationRateLimiter) (now : Z) (key : string * string) :
  key ∈ (keys_to_flush st now).*1 ↔ due st now key.
Proof.
  rewrite list_elem_of_fmap. unfold due. split.
  - intros ([k events] & -> & Hin). apply keys_to_flush_elem in Hin. eauto.
  - intros (events & Hin). exists (key, events). split; [done|]. by apply keys_to_flush_elem.
Qed.

Lemma NoDup_fst_filter {A B} (P : A * B → Prop) `{∀ x, Decision (P x)} (l : list (A * B)) :
  NoDup l.*1 → NoDup (filter P l).*1.
Proof.
  induction l as [|x l IH]; [done|]. rewrite fmap_cons, NoDup_cons. intros [Hx Hnd].
  rewrite filter_cons. case_decide; [|by apply IH].
  rewrite fmap_cons, NoDup_cons. split; [|by apply IH].
  intros (y & Hy & Hin%list_elem_of_filter)%list_elem_of_fmap.
  apply Hx. rewrite Hy. apply list_elem_of_fmap_2. tauto.
Qed.

Lemma keys_to_flush_NoDup (st : NotificationRateLimiter) (now : Z) :
  NoDup (keys_to_flush st now).*1.
Proof. apply NoDup_fst_filter, NoDup_fst_map_to_list. Qed.

Lemma flush_deliveries_NoDup (outcome : string * string → send_outcome)
    (items : list ((string * string) * list Event)) :
  NoDup items.*1 → NoDup (omap (flush_delivery outcome) items).*1.
Proof.
  induction items as [|item items IH]; [done|].
  rewrite fmap_cons, NoDup_cons. intros [Hx Hnd]. simpl.
  destruct (flush_delivery outcome item) as [kd|] eqn:Hkd; [|by apply IH].
  rewrite fmap_cons, NoDup_cons. split; [|by apply IH].
  intros (kd' & Hk & (item' & Hin & Hd)%list_elem_of_omap)%list_elem_of_fmap.
  apply Hx. unfold flush_delivery in Hkd, Hd.
  destruct (_send_notification item.1.1 item.2 (outcome item.1)); [|done].
  destruct (_send_notification item'.1.1 item'.2 (outcome item'.1)); [|done].
  simpl in *. simplify_eq. simpl in *. rewrite Hk. by apply list_elem_of_fmap_2.
Qed.

(** One flush that is not suspended. *)
Lemma flush_spec (st : NotificationRateLimiter) (now : Z)
    (outcome : string * string → send_outcome) :
  let r := flush_pending_notifications st now outcome in
  cooldowns r.1 = cooldowns st
  ∧ (∀ k, due st now k → pending_events r.1 !! k = None ∧ last_sent r.1 !! k = Some now)
  ∧ (∀ k, ¬ due st now k →
          pending_events r.1 !! k = pending_events st !! k
          ∧ last_sent r.1 !! k = last_sent st !! k)
  ∧ NoDup r.2.*1
  ∧ (∀ k dl, (k, dl) ∈ r.2 ↔
             ∃ events, pending_events st !! k = Some events ∧ events ≠ []
                       ∧ cooldown_of st k.1 < now - last_time st k
                       ∧ _send_notification k.1 events (outcome k) = Some dl).
Proof.
  cbv zeta. unfold flush_pending_notifications.
  destruct (flush_fold now outcome (keys_to_flush st now) (keys_to_flush_NoDup st now) st [])
    as (Hcd & Hpend & Hlast & Hlog).
  split; [done|]. split; [|split; [|split]].
  - intros k Hdue%keys_to_flush_due. by rewrite Hpend, Hlast, !decide_True.
  - intros k Hdue. rewrite <- keys_to_flush_due in Hdue. by rewrite Hpend, Hlast, !decide_False.
  - rewrite Hlog. simpl. apply flush_deliveries_NoDup, keys_to_flush_NoDup.
  - intros k dl. rewrite Hlog. simpl. rewrite list_elem_of_omap. split.
    + intros ([k' events] & Hin%keys_to_flush_elem & Hd). unfold flush_delivery in Hd.
      simpl in Hd. destruct (_send_notification k'.1 events (outcome k')) eqn:Hs; [|done].
      simpl in Hd. simplify_eq. exists events. tauto.
    + intros (events & Hp & Hne & Hcool & Hs). exists (k, events).
      split; [by apply keys_to_flush_elem|]. unfold flush_delivery. simpl. by rewrite Hs.
Qed.

Lemma flush_fold_state (now : Z) (outcome outcome' : string * string → send_outcome)
    (items : list ((string * string) * list Event)) :
  ∀ st log log',
    (foldl (flush_loop now outcome) (st, log) items).1
    = (foldl (flush_loop now outcome') (st, log') items).1.
Proof.
  induction items as [|item items IH]; intros st log log'; [done|].
  cbn [foldl]. rewrite !flush_loop_step. apply IH.
Qed.

(** The outcomes of the handlers have no influence on the limiter. *)
Lemma flush_state_outcome (st : NotificationRateLimiter) (now : Z)
    (outcome outcome' : string * string → send_outcome) :
  (flush_pending_notifications st now outcome).1
  = (flush_pending_notifications st now outcome').1.
Proof. apply flush_fold_state. Qed.

Lemma send_to_handler (channel : string) (events : list Event) (o : send_outcome) :
  channel ∈ CHANNEL_HANDLERS →
  _send_notification channel events o
  = Some {| dl_channel := channel; dl_events := events; dl_outcome := o |}.
Proof. intros Hin. unfold _send_notification. by rewrite bool_decide_eq_true_2. Qed.

Lemma add_pending_lookup (st : NotificationRateLimiter) (channel wallet_key : string)
    (event : Event) :
  get_pending_events (add_pending_event st channel wallet_key event) channel wallet_key
  = get_pending_events st channel wallet_key ++ [event].
Proof.
  unfold get_pending_events, add_pending_event. simpl. by rewrite lookup_insert_eq.
Qed.

(** C1, as the code has it.  The queue of a key is cleared in the same
    uninterrupted step as the cooldown reset that permits its send.  After a
    positive check the one handler call receives the queued alerts in order,
    followed by the current alert, the queue of the key is empty and its
    last send is the current time; after a negative check the alert is at
    the end of the queue and nothing is sent.  A flush that is not
    suspended makes, for every key whose queue is not empty and whose
    cooldown has elapsed, exactly one handler call with exactly the queued
    alerts, empties the queue and sets the last send to the current time;
    it leaves every other key alone.  A channel with a handler always gets
    its call.  The limiter after a notification or a flush is the same
    whether the handlers return or raise: an alert taken from the queue is
    handed to a handler once and is never queued again. *)
Theorem pending_drain :
  (∀ st now channel event o,
     let wallet_key := _get_wallet_key event in
     let r := process_event_notification st now channel event o in
     cooldown_of st channel < now - last_time st (channel, wallet_key) →
     last_sent r.1 !! (channel, wallet_key) = Some now
     ∧ get_pending_events r.1 channel wallet_key = []
     ∧ r.2 = _send_notification channel
               (get_pending_events st channel wallet_key ++ [event]) o)
  ∧ (∀ st now channel event o,
       let wallet_key := _get_wallet_key event in
       let r := process_event_notification st now channel event o in
       ¬ cooldown_of st channel < now - last_time st (channel, wallet_key) →
       get_pending_events r.1 channel wallet_key
       = get_pending_events st channel wallet_key ++ [event]
       ∧ r.2 = None ∧ last_sent r.1 = last_sent st)
  ∧ (∀ st now outcome key events,
       let r := flush_pending_notifications st now outcome in
       pending_events st !! key = Some events → events ≠ [] →
       cooldown_of st key.1 < now - last_time st key →
       last_sent r.1 !! key = Some now
       ∧ pending_events r.1 !! key = None
       ∧ NoDup r.2.*1
       ∧ ∀ dl, (key, dl) ∈ r.2 ↔ _send_notification key.1 events (outcome key) = Some dl)
  ∧ (∀ st now outcome key,
       let r := flush_pending_notifications st now outcome in
       ¬ due st now key →
       last_sent r.1 !! key = last_sent st !! key
       ∧ pending_events r.1 !! key = pending_events st !! key
       ∧ ∀ dl, (key, dl) ∉ r.2)
  ∧ (∀ channel events o,
       channel ∈ CHANNEL_HANDLERS →
       _send_notification channel events o
       = Some {| dl_channel := channel; dl_events := events; dl_outcome := o |})
  ∧ (∀ st now channel event o o',
       (process_event_notification st now channel event o).1
       = (process_event_notification st now channel event o').1)
  ∧ (∀ st now outcome outcome',
       (flush_pending_notifications st now outcome).1
       = (flush_pending_notifications st now outcome').1).
Proof.
  split; [|split; [|split; [|split; [|split; [|split]]]]].
  - intros st now channel event o wallet_key r Hok.
    destruct (process_allowed st now channel event o Hok) as (_ & Hls & Hq & _ & Hsend).
    fold wallet_key r in Hls, Hq, Hsend. rewrite Hls. by rewrite lookup_insert_eq.
  - intros st now channel event o wallet_key r Hno. subst r.
    rewrite (process_denied st now channel event o Hno). simpl.
    split; [apply add_pending_lookup|done].
  - intros st now outcome key events r Hp Hne Hcool.
    destruct (flush_spec st now outcome) as (_ & Hdue & _ & Hnd & Hin). fold r in Hdue, Hnd, Hin.
    destruct (Hdue key) as [-> ->]; [by exists events|].
    split; [done|]. split; [done|]. split; [done|].
    intros dl. rewrite Hin. split.
    + intros (events' & Hp' & _ & _ & Hs). by simplify_eq.
    + intros Hs. by exists events.
  - intros st now outcome key r Hnot.
    destruct (flush_spec st now outcome) as (_ & _ & Hkeep & _ & Hin). fold r in Hkeep, Hin.
    destruct (Hkeep key Hnot) as [-> ->]. split; [done|]. split; [done|].
    intros dl (events & Hp & Hne & Hcool & _)%Hin. apply Hnot. by exists events.
  - apply send_to_handler.
  - apply process_state_outcome.
  - apply flush_state_outcome.
Qed.

(** *** The cooldown between two sends, without interleaving *)

Lemma cooldown_of_nonneg (st : NotificationRateLimiter) (channel : string) :
  (∀ channel cd, cooldowns st !! channel = Some cd → 0 ≤ cd) → 0 ≤ cooldown_of st channel.
Proof.
  intros Hnn. unfold cooldown_of. destruct (cooldowns st !! channel) eqn:Hcd; simpl; [|lia].
  by eapply Hnn.
Qed.

(** Appending sends made at [now] for distinct keys whose cooldown has elapsed. *)
Lemma batch_preserves (st st' : NotificationRateLimiter) (log news : list Observed) (now : Z) :
  gate_invariant st log →
  cooldowns st' = cooldowns st →
  (∀ k, last_time st' k = last_time st k
        ∨ (last_time st' k = now ∧ cooldown_of st k.1 < now - last_time st k)) →
  Forall (λ ob, ob_time ob = now ∧ last_time st' (ob_key ob) = now
                ∧ cooldown_of st (ob_key ob).1 < now - last_time st (ob_key ob)) news →
  NoDup (ob_key <$> news) →
  gate_invariant st' (log ++ news).
Proof.
  intros (Hnn & Hle & Hresp) Hcd Hlast Hnews Hnd.
  assert (∀ channel, cooldown_of st' channel = cooldown_of st channel) as Hcool.
  { intros channel. unfold cooldown_of. by rewrite Hcd. }
  rewrite Forall_forall in Hnews.
  split; [by rewrite Hcd|]. split.
  - intros ob [Hin|Hin]%elem_of_app.
    + specialize (Hle ob Hin). destruct (Hlast (ob_key ob)) as [->|[-> Hlt]]; [done|].
      pose proof (cooldown_of_nonneg st (ob_key ob).1 Hnn). lia.
    + destruct (Hnews ob Hin) as (-> & -> & _). done.
  - intros i j ob1 ob2 Hij H1 H2 Hkey. rewrite Hcool.
    apply lookup_app_Some in H2 as [H2|[Hj H2]].
    + apply lookup_app_Some in H1 as [H1|[Hi _]].
      * by apply (Hresp i j).
      * apply lookup_lt_Some in H2. lia.
    + destruct (Hnews ob2) as (-> & _ & Hlt); [by eapply list_elem_of_lookup_2|].
      apply lookup_app_Some in H1 as [H1|[Hi H1]].
      * specialize (Hle ob1 (list_elem_of_lookup_2 _ _ _ H1)). rewrite Hkey. rewrite Hkey in Hle. lia.
      * exfalso. assert (i - length log = j - length log)%nat; [|lia].
        eapply NoDup_lookup; [exact Hnd|..]; rewrite list_lookup_fmap.
        -- by rewrite H1.
        -- rewrite H2. simpl. by rewrite Hkey.
Qed.

Lemma observe_app (t : Z) (key : string * string) (d : option Delivery) (log : list Observed) :
  observe t key d log
  = log ++ option_list ((λ dl, {| ob_time := t; ob_key := key; ob_delivery := dl |}) <$> d).
Proof. destruct d; simpl; by rewrite ?app_nil_r. Qed.

Lemma operate_invariant (acc : NotificationRateLimiter * list Observed) (op : Operation) :
  gate_invariant acc.1 acc.2 →
  gate_invariant (operate acc op).1 (operate acc op).2
  ∧ cooldowns (operate acc op).1 = cooldowns acc.1.
Proof.
  destruct acc as [st log]. intros Hinv. destruct op as [now channel event o|now outcome]; simpl.
  - set (key := (channel, _get_wallet_key event)).
    destruct (decide (cooldown_of st channel < now - last_time st key)) as [Hok|Hno].
    + destruct (process_allowed st now channel event o Hok) as (Hcd & Hls & _ & _ & _).
      split; [|done]. rewrite observe_app.
      assert (∀ k, last_time (process_event_notification st now channel event o).1 k
                   = if decide (key = k) then now else last_time st k) as Hlast.
      { intros k. unfold last_time. rewrite Hls. fold key. case_decide as Hk.
        - subst. by rewrite lookup_insert_eq.
        - by rewrite lookup_insert_ne. }
      apply (batch_preserves st _ log _ now); [done|done|..].
      * intros k. rewrite Hlast. case_decide; [subst; tauto|tauto].
      * destruct (process_event_notification st now channel event o).2; simpl; [|done].
        constructor; [|done]. simpl. rewrite Hlast, decide_True by done. done.
      * destruct (process_event_notification st now channel event o).2; simpl;
          [apply NoDup_singleton|apply NoDup_nil_2].
    + rewrite (process_denied st now channel event o Hno). simpl. split; [|done].
      rewrite <- (app_nil_r log).
      apply (batch_preserves st _ log [] now); [done|done|by left|done|apply NoDup_nil_2].
  - destruct (flush_spec st now outcome) as (Hcd & Hdue & Hkeep & Hnd & Hin).
    split; [|done].
    apply (batch_preserves st _ log _ now); [done|done|..].
    + intros k. unfold last_time.
      destruct (decide (cooldown_of st k.1 < now - default 0 (last_sent st !! k))) as [Hlt|Hlt].
      * destruct (pending_events st !! k) as [[|e evs]|] eqn:Hp.
        -- left. destruct (Hkeep k) as [_ ->]; [|done]. intros (evs & ? & ? & _). by simplify_eq.
        -- right. destruct (Hdue k) as [_ ->]; [by exists (e :: evs)|]. done.
        -- left. destruct (Hkeep k) as [_ ->]; [|done]. intros (evs & ? & ? & _). by simplify_eq.
      * left. destruct (Hkeep k) as [_ ->]; [|done]. intros (evs & _ & _ & ?). done.
    + apply Forall_forall. intros ob ([k dl] & -> & Hkd)%list_elem_of_fmap. simpl.
      apply Hin in Hkd as (events & Hp & Hne & Hlt & _).
      split; [done|]. split; [|done].
      unfold last_time. destruct (Hdue k) as [_ ->]; [by exists events|done].
    + rewrite <- list_fmap_compose.
      assert (∀ l : list ((string * string) * Delivery),
                (ob_key ∘ (λ kd, {| ob_time := now; ob_key := kd.1; ob_delivery := kd.2 |}))
                  <$> l = l.*1) as ->; [|done].
      induction l as [|x l IH]; [done|]. rewrite !fmap_cons. by rewrite IH.
Qed.

(** When each operation runs to its end before the next one starts, two
    sends of one key are never closer together than the cooldown of the
    channel, whatever the order and the times of the operations. *)
Lemma cooldown_respected_uninterrupted (st : NotificationRateLimiter) (ops : list Operation) :
  (∀ channel cd, cooldowns st !! channel = Some cd → 0 ≤ cd) →
  cooldown_respected st (operate_all st ops).2.
Proof.
  intros Hnn. unfold operate_all.
  assert (∀ acc, gate_invariant acc.1 acc.2 →
                 gate_invariant (foldl operate acc ops).1 (foldl operate acc ops).2
                 ∧ cooldowns (foldl operate acc ops).1 = cooldowns acc.1) as Hfold.
  { induction ops as [|op ops IH]; intros acc Hinv; [done|]. simpl.
    destruct (operate_invariant acc op Hinv) as [Hinv' Hcd].
    destruct (IH _ Hinv') as [? ->]. done. }
  destruct (Hfold (st, [])) as [(_ & _ & Hresp) Hcd].
  { split; [done|]. split; [by intros ? ?%not_elem_of_nil|].
    intros i j ? ? _ Hnil. simpl in Hnil. by rewrite lookup_nil in Hnil. }
  intros i j ob1 ob2 Hij H1 H2 Hkey. specialize (Hresp i j ob1 ob2 Hij H1 H2 Hkey).
  unfold cooldown_of in *. by rewrite Hcd in Hresp.
Qed.

(** *** The scheduler when only the flush runs *)

Lemma flush_rounds_fold (t : Z) (o : send_outcome) (now : Z)
    (todo : list ((string * string) * list Event)) :
  ∀ st log,
    let r := flush_rounds t o now st log todo in
    ∃ rounds,
      todo = rounds ++ r.2
      ∧ r.1.1 = (foldl (flush_loop now (λ _, o)) (st, []) rounds).1
      ∧ (todo = [] ∨ length r.2 < length todo)%nat.
Proof.
  induction todo as [|item todo IH]; intros st log.
  { exists []. simpl. auto. }
  cbn [flush_rounds]. cbv zeta.
  destruct (flush_one st now item o) as [st1 [dl|]] eqn:Hone; cbn [fst snd].
  - exists [item]. cbn [foldl app]. unfold flush_loop. cbn [fst snd]. rewrite Hone.
    cbn [fst snd length]. split; [done|]. split; [done|]. right. lia.
  - destruct (IH st1 log) as (rounds & Htodo & Hst & Hlen).
    exists (item :: rounds). cbn [foldl app]. split; [by rewrite <- Htodo|]. split.
    + rewrite Hst. unfold flush_loop at 3. cbn [fst snd]. rewrite Hone. cbn [fst snd].
      apply flush_fold_state.
    + right. cbn [length]. destruct Hlen as [->|Hlen]; simpl; lia.
Qed.

(** Resuming a suspended flush often enough, with no other task in
    between, ends it in the state of the loop that is not suspended. *)
Lemma resume_until_done (o : send_outcome) (times : list Z) :
  ∀ s,
    (length (flush_todo s) ≤ length times)%nat →
    let s' := run s ((λ t, FlushResume t o) <$> times) in
    flush_todo s' = []
    ∧ limiter s' = (foldl (flush_loop (flush_now s) (λ _, o)) (limiter s, []) (flush_todo s)).1.
Proof.
  induction times as [|t times IH]; intros s Hlen.
  { simpl in *. destruct (flush_todo s); [done|simpl in Hlen; lia]. }
  cbn [fmap list_fmap run foldl]. cbv zeta.
  destruct (flush_rounds_fold t o (flush_now s) (flush_todo s) (limiter s) (observed s))
    as (rounds & Htodo & Hst & Hshort).
  set (s1 := step s (FlushResume t o)).
  assert (flush_todo s1 = (flush_rounds t o (flush_now s) (limiter s) (observed s)
                             (flush_todo s)).2) as Htodo1 by done.
  assert (limiter s1 = (flush_rounds t o (flush_now s) (limiter s) (observed s)
                          (flush_todo s)).1.1) as Hlim1 by done.
  assert (flush_now s1 = flush_now s) as Hnow1 by done.
  destruct (IH s1) as [Hdone Hlim].
  { rewrite Htodo1. simpl in Hlen. destruct Hshort as [Hnil|Hshort]; [|lia].
    rewrite Hnil. simpl. lia. }
  split; [exact Hdone|].
  unfold run in Hlim. rewrite Hlim, Hnow1, Hlim1, Htodo1, Hst.
  set (r := flush_rounds t o (flush_now s) (limiter s) (observed s) (flush_todo s)) in *.
  rewrite Htodo, foldl_app.
  destruct (foldl (flush_loop (flush_now s) (λ _, o)) (limiter s, []) rounds) as [st1 log1].
  apply flush_fold_state.
Qed.

(** A flush that is never suspended while another task runs is
    [flush_pending_notifications]. *)
Lemma flush_alone (s : System) (now : Z) (o : send_outcome) (times : list Z) :
  (length (keys_to_flush (limiter s) now) ≤ length times)%nat →
  let s' := run s (FlushBegin now o :: ((λ t, FlushResume t o) <$> times)) in
  flush_todo s' = []
  ∧ limiter s' = (flush_pending_notifications (limiter s) now (λ _, o)).1.
Proof.
  intros Hlen. cbn [run foldl]. cbv zeta.
  destruct (flush_rounds_fold now o now (keys_to_flush (limiter s) now) (limiter s) (observed s))
    as (rounds & Htodo & Hst & Hshort).
  set (s1 := step s (FlushBegin now o)).
  assert (flush_todo s1 = (flush_rounds now o now (limiter s) (observed s)
                             (keys_to_flush (limiter s) now)).2) as Htodo1 by done.
  assert (limiter s1 = (flush_rounds now o now (limiter s) (observed s)
                          (keys_to_flush (limiter s) now)).1.1) as Hlim1 by done.
  assert (flush_now s1 = now) as Hnow1 by done.
  destruct (resume_until_done o times s1) as [Hdone Hlim].
  { rewrite Htodo1. rewrite Htodo in Hlen. rewrite length_app in Hlen. lia. }
  split; [exact Hdone|].
  unfold run in Hlim. rewrite Hlim, Hnow1, Hlim1, Htodo1, Hst.
  unfold flush_pending_notifications.
  set (r := flush_rounds now o now (limiter s) (observed s) (keys_to_flush (limiter s) now)) in *.
  rewrite Htodo, foldl_app.
  destruct (foldl (flush_loop now (λ _, o)) (limiter s, []) rounds) as [st1 log1].
  apply flush_fold_state.
Qed.

(** *** Concrete runs *)

(** C1, as stated, fails when a send raises.  An alert is sent at 1000, a
    second alert for the same wallet is denied and queued at 1010, and the
    flush of 1060 takes it from the queue (the flush of 1030 finds nothing
    due); the send raises.  The queue is empty, the flush is over, and the
    second alert was delivered by no handler call: it is lost, not
    delivered once. *)
Lemma alert_lost_when_send_raises :
  let first := mkEvent (Some "0xABC123DEF456") None (Some "BTC") (Some "fill") (Some 150000) in
  let second := mkEvent (Some "0xABC123DEF456") None (Some "ETH") (Some "fill") (Some 20000) in
  let s := run (initial notification_rate_limiter)
             [Notify 1000 "telegram" first Sent;
              Notify 1010 "telegram" second Sent;
              FlushBegin 1030 Sent;
              FlushBegin 1060 Raised] in
  get_pending_events (limiter s) "telegram" (_get_wallet_key second) = []
  ∧ flush_todo s = []
  ∧ (dl_events ∘ ob_delivery) <$> observed s = [[first]; [second]]
  ∧ delivered_count second (observed s) = 0%nat.
Proof. vm_compute. done. Qed.

(** A queued alert, a flush whose send raises, and an alert after the
    cooldown: the three statements of [pending_drain] that have a
    hypothesis, at concrete states. *)
Lemma pending_drain_witness :
  let first := mkEvent (Some "0xABC123DEF456") None (Some "BTC") (Some "fill") (Some 150000) in
  let second := mkEvent (Some "0xABC123DEF456") None (Some "ETH") (Some "fill") (Some 20000) in
  let key := ("telegram", "0xABC123...") in
  let st1 := (process_event_notification notification_rate_limiter 1000 "telegram" first Sent).1 in
  let st2 := (process_event_notification st1 1010 "telegram" second Sent).1 in
  let r := flush_pending_notifications st2 1060 (λ _, Raised) in
  (last_sent st1 !! key = Some 1000
   ∧ get_pending_events st1 "telegram" "0xABC123..." = [])
  ∧ get_pending_events st2 "telegram" "0xABC123..." = [second]
  ∧ (last_sent r.1 !! key = Some 1060
     ∧ pending_events r.1 !! key = None
     ∧ (key, {| dl_channel := "telegram"; dl_events := [second]; dl_outcome := Raised |}) ∈ r.2).
Proof.
  intros first second key st1 st2 r.
  destruct pending_drain as (Hallow & Hdeny & Hflush & _).
  split; [|split].
  - destruct (Hallow notification_rate_limiter 1000 "telegram" first Sent) as (H1 & H2 & _);
      [vm_compute; done|]. done.
  - destruct (Hdeny st1 1010 "telegram" second Sent) as (H1 & _); [vm_compute; done|].
    exact H1.
  - destruct (Hflush st2 1060 (λ _, Raised) key [second]) as (H1 & H2 & _ & H3);
      [vm_compute; done|done|vm_compute; done|].
    split; [exact H1|]. split; [exact H2|]. apply H3. vm_compute. done.
Defined.


(** C2 on a schedule of the two tasks.  Two wallets are watched; each has
    an alert sent by telegram at 1000 and a second one denied and queued at
    1010.  The flush of 1030 finds no key due.  The flush that starts at
    1060 finds both keys due, sends the queue of the first wallet (the one
    queued first) and is suspended in that send.  At 1061 a third alert of the second wallet is
    dispatched: the check is positive (the flush has not yet written the
    key), and the queued alert and the new one are sent.  The flush goes on
    at 1062 with the entry it read at 1060: it writes 1060 as the last send
    of the key and sends the queued alert again.  The second wallet gets two
    telegram messages one second apart, the queued alert is delivered
    twice, and the last send of the key goes back from 1061 to 1060. *)
Lemma flush_race :
  let alert w coin := mkEvent (Some w) None (Some coin) (Some "fill") (Some 200000) in
  let w1 := "0xAAA111222333" in
  let w2 := "0xBBB444555666" in
  let schedule :=
    [Notify 1000 "telegram" (alert w1 "BTC") Sent;
     Notify 1000 "telegram" (alert w2 "BTC") Sent;
     Notify 1010 "telegram" (alert w1 "ETH") Sent;
     Notify 1010 "telegram" (alert w2 "ETH") Sent;
     FlushBegin 1030 Sent;
     FlushBegin 1060 Sent;
     Notify 1061 "telegram" (alert w2 "SOL") Sent;
     FlushResume 1062 Sent] in
  let s := run (initial notification_rate_limiter) schedule in
  (λ ob, (ob_time ob, dl_events (ob_delivery ob)))
    <$> sends_of ("telegram", "0xBBB444...") (observed s)
  = [(1000, [alert w2 "BTC"]);
     (1061, [alert w2 "ETH"; alert w2 "SOL"]);
     (1062, [alert w2 "ETH"])]
  ∧ delivered_count (alert w2 "ETH") (observed s) = 2%nat
  ∧ flush_todo (run (initial notification_rate_limiter) (take 6 schedule))
    = [(("telegram", "0xBBB444..."), [alert w2 "ETH"])]
  ∧ last_sent (limiter (run (initial notification_rate_limiter) (take 7 schedule)))
      !! ("telegram", "0xBBB444...") = Some 1061
  ∧ last_sent (limiter s) !! ("telegram", "0xBBB444...") = Some 1060
  ∧ cooldown_of notification_rate_limiter "telegram" = 45
  ∧ ¬ cooldown_respected notification_rate_limiter (observed s).
Proof.
  intros alert w1 w2 schedule s.
  split; [vm_compute; done|]. split; [vm_compute; done|]. split; [vm_compute; done|].
  split; [vm_compute; done|]. split; [vm_compute; done|]. split; [done|].
  intros Hresp.
  assert (observed s !! 3%nat = Some {| ob_time := 1061; ob_key := ("telegram", "0xBBB444...");
            ob_delivery := {| dl_channel := "telegram";
                              dl_events := [alert w2 "ETH"; alert w2 "SOL"];
                              dl_outcome := Sent |} |}) as H3 by (vm_compute; done).
  assert (observed s !! 4%nat = Some {| ob_time := 1062; ob_key := ("telegram", "0xBBB444...");
            ob_delivery := {| dl_channel := "telegram";
                              dl_events := [alert w2 "ETH"];
                              dl_outcome := Sent |} |}) as H4 by (vm_compute; done).
  specialize (Hresp 3%nat 4%nat _ _ ltac:(lia) H3 H4).
  assert (45 < 1062 - 1061) as Hclose; [exact (Hresp eq_refl)|lia].
Qed.

End DispatcherFacts.

(** ** The stream client *)

Module ClientFacts.
Import Client.

(** *** Reconnection *)

(** C8. The reconnect delay is 2 seconds for 1 to 3 consecutive failures,
    5 seconds for 4 to 10, and the smaller of 30 and the count above 10 (12
    seconds after 12 failures): it is the policy of the specification for
    every count from 1 on; it does not decrease when the count grows and
    never exceeds 30 seconds. *)
Theorem reconnect_delay_policy :
  (∀ n, 1 ≤ n ≤ 3 → reconnect_delay n = 2)
  ∧ (∀ n, 4 ≤ n ≤ 10 → reconnect_delay n = 5)
  ∧ (∀ n, 10 < n → reconnect_delay n = Z.min 30 n)
  ∧ (∀ n, 1 ≤ n → reconnect_delay n = spec_reconnect_delay n)
  ∧ reconnect_delay 12 = 12
  ∧ (∀ n m, n ≤ m → reconnect_delay n ≤ reconnect_delay m)
  ∧ (∀ n, reconnect_delay n ≤ 30).
Proof.
  unfold reconnect_delay, spec_reconnect_delay.
  repeat split; intros; repeat case_decide;
    repeat (match goal with
            | |- context [?a <=? ?b] => destruct (Z.leb_spec a b)
            end); lia.
Qed.

Lemma reconnect_delay_policy_witness :
  reconnect_delay 2 = 2 ∧ reconnect_delay 7 = 5 ∧ reconnect_delay 40 = Z.min 30 40
  ∧ reconnect_delay 11 ≤ reconnect_delay 12.
Proof.
  destruct reconnect_delay_policy as (H1 & H2 & H3 & _ & _ & Hmono & _).
  split; [apply H1; lia|]. split; [apply H2; lia|]. split; [apply H3; lia|].
  apply Hmono. lia.
Defined.

Section Reconnection.
Variable WATCHED_WALLETS : list string.

Lemma connect_opens (c : HyperCoreClient) (n : Z) (ws_open : bool)
    (send_ok : string → string → bool) (listening : Listening) :
  let it := connect_iteration WATCHED_WALLETS c n (ConnectOpens ws_open send_ok listening) in
  it_subscribed it
  = (subscribe_to_all_wallets WATCHED_WALLETS ws_open send_ok
       (count_reconnect (set_connected c true))).1
  ∧ it_failures it
    = (if it_subscribed it
       then match listening with StreamCloses => 0 | StreamRaises => 1 end
       else 0)
  ∧ (it_subscribed it = false → it_sleep it = None).
Proof.
  cbv zeta. unfold connect_iteration.
  destruct (subscribe_to_all_wallets WATCHED_WALLETS ws_open send_ok
              (count_reconnect (set_connected c true))) as [[|] c']; simpl.
  - by destruct listening.
  - done.
Qed.

(** C3, as the code has it.  The failure counter is set to zero as soon as
    the transport connection is open, before the subscription phase and
    whatever its result.  An iteration whose connect raises adds one to the
    counter.  An iteration whose connect succeeds ends with a counter that
    does not depend on the count before: zero, or one when the subscription
    succeeded and the message loop ended with an exception.  In particular
    an iteration whose connect succeeds and whose subscription phase fails
    ends with the counter at zero, and goes to the next iteration without
    the backoff sleep.  A counter that was not negative is zero after an
    iteration only if the connect of the iteration succeeded. *)
Theorem failure_counter_reset :
  (∀ c n, it_failures (connect_iteration WATCHED_WALLETS c n ConnectRaises) = n + 1)
  ∧ (∀ c n ws_open send_ok listening,
       let it := connect_iteration WATCHED_WALLETS c n
                   (ConnectOpens ws_open send_ok listening) in
       it_failures it
       = (if it_subscribed it
          then match listening with StreamCloses => 0 | StreamRaises => 1 end
          else 0))
  ∧ (∀ c n ws_open send_ok listening,
       let it := connect_iteration WATCHED_WALLETS c n
                   (ConnectOpens ws_open send_ok listening) in
       it_subscribed it = false → it_failures it = 0 ∧ it_sleep it = None)
  ∧ (∀ c n a,
       0 ≤ n → it_failures (connect_iteration WATCHED_WALLETS c n a) = 0 →
       ∃ ws_open send_ok listening, a = ConnectOpens ws_open send_ok listening).
Proof.
  split; [done|]. split; [intros; apply connect_opens|]. split.
  - intros c n ws_open send_ok listening it Hfail.
    destruct (connect_opens c n ws_open send_ok listening) as (_ & Hf & Hs).
    fold it in Hf, Hs. rewrite Hf, Hfail. auto.
  - intros c n [|ws_open send_ok listening] Hn Hzero; [simpl in Hzero; lia|eauto].
Qed.

End Reconnection.

(** C3, as stated, fails.  After five consecutive failures the connection
    opens, every subscription request fails, and [subscribe_to_all_wallets]
    returns [False]: the counter is zero at the end of the iteration, not
    five, and no backoff sleep follows. *)
Lemma subscription_failure_resets_counter :
  let watched := ["0xAAA111222333"] in
  let it := connect_iteration watched (init watched) 5
              (ConnectOpens true (λ _ _, false) StreamCloses) in
  (subscribe_to_all_wallets watched true (λ _ _, false)
     (count_reconnect (set_connected (init watched) true))).1 = false
  ∧ it_subscribed it = false
  ∧ it_failures it = 0
  ∧ it_sleep it = None.
Proof. vm_compute. done. Qed.

(** The same iteration, by the theorem. *)
Lemma failure_counter_reset_witness :
  let watched := ["0xAAA111222333"] in
  let it := connect_iteration watched (init watched) 5
              (ConnectOpens true (λ _ _, false) StreamCloses) in
  it_failures it = 0 ∧ it_sleep it = None.
Proof.
  intros watched it.
  apply (proj1 (proj2 (proj2 (failure_counter_reset watched)))).
  vm_compute. done.
Defined.

(** *** Inbound messages *)

Section Inbound.
Variable set_iter : gset string → list string.
Variable container_str : json → string.


Lemma elem_of_concat {A} (x : A) (ls : list (list A)) :
  x ∈ concat ls ↔ ∃ l, x ∈ l ∧ l ∈ ls.
Proof.
  rewrite list_elem_of_In, in_concat. split.
  - intros (l & Hl & Hx). exists l. by rewrite !list_elem_of_In.
  - intros (l & Hx & Hl). exists l. by rewrite <- !list_elem_of_In.
Qed.








Lemma is_watched_init (watched : list string) (w : string) :
  is_watched_wallet (init watched) w = true
  ↔ Py.truthy_str w = true ∧ w ≠ "unknown" ∧ ∃ w0, w0 ∈ watched ∧ lower w0 = lower w.
Proof.
  unfold is_watched_wallet, init. cbn [watched_wallet_set].
  destruct (Py.truthy_str w); simpl; [|by split; [|intros [? _]]].
  case_bool_decide as Hu; simpl; [by split; [|intros (_ & ? & _)]|].
  rewrite bool_decide_eq_true, elem_of_list_to_set, list_elem_of_fmap.
  split.
  - intros (w0 & Hl & Hin). eauto.
  - intros (_ & _ & w0 & Hin & Hl). eauto.
Qed.


End Inbound.




End ClientFacts.

(** ** The log rate limiter *)

Module LoggingFacts.
Import Logging.

Lemma log_step_invariant (acc : SimpleRateLimiter * list (Z * string * bool)) (call : Z * string) :
  0 ≤ cooldown acc.1 →
  log_invariant acc.1 acc.2 →
  log_invariant (log_step acc call).1 (log_step acc call).2
  ∧ cooldown (log_step acc call).1 = cooldown acc.1.
Proof.
  destruct acc as [l log], call as [now key]. simpl.
  intros Hnn (Hle & Hin & Hgap & Hdeny).
  assert (∀ (j : nat) t2 k, log !! j = Some (t2, k, false) →
            ∃ (i : nat) t1, (i < j)%nat ∧ (log ++ [(now, key, (can_log l now key).1)]) !! i
                                          = Some (t1, k, true)
                            ∧ t2 - t1 ≤ cooldown l) as Hdeny'.
  { intros j t2 k Hj. destruct (Hdeny j t2 k Hj) as (i & t1 & Hij & Hi & Hc).
    exists i, t1. split; [done|]. split; [|done]. by apply lookup_app_l_Some. }
  unfold log_step, can_log in *. simpl in *.
  destruct (last_logged l !! key) as [lastt|] eqn:Hl.
  - destruct (Z.ltb_spec (cooldown l) (now - lastt)); simpl in *.
    + split; [|done]. unfold log_invariant; cbn [fst snd last_logged cooldown].
      split; [|split; [|split]].
      * intros t k [Hk|Hk%list_elem_of_singleton]%elem_of_app.
        -- destruct (Hle t k Hk) as (last & Hlast & Ht).
           destruct (decide (key = k)) as [->|Hne].
           ++ exists now. rewrite lookup_insert_eq. split; [done|]. simplify_eq. lia.
           ++ exists last. by rewrite lookup_insert_ne.
        -- injection Hk as -> ->. exists now. by rewrite lookup_insert_eq.
      * intros k last Hk. apply elem_of_app.
        destruct (decide (key = k)) as [->|Hne].
        -- rewrite lookup_insert_eq in Hk. injection Hk as <-. right. apply list_elem_of_here.
        -- rewrite lookup_insert_ne in Hk by done. left. by apply Hin.
      * intros i j t1 t2 k Hij Hi Hj.
        apply lookup_app_Some in Hj as [Hj|[Hlen Hj]].
        -- apply lookup_app_Some in Hi as [Hi|[Hlen _]]; [by eapply Hgap|].
           apply lookup_lt_Some in Hj. lia.
        -- apply list_lookup_singleton_Some in Hj as [Hj0 [= <- <-]].
           apply lookup_app_Some in Hi as [Hi|[Hlen' _]]; [|lia].
           destruct (Hle t1 key (list_elem_of_lookup_2 _ _ _ Hi)) as (last & Hlast & Ht).
           simplify_eq. lia.
      * intros j t2 k Hj.
        apply lookup_app_Some in Hj as [Hj|[Hlen Hj]]; [by apply Hdeny'|].
        by apply list_lookup_singleton_Some in Hj as [_ [=]].
    + split; [|done]. unfold log_invariant; cbn [fst snd last_logged cooldown].
      split; [|split; [|split]].
      * intros t k [Hk|Hk%list_elem_of_singleton]%elem_of_app; [by apply Hle|done].
      * intros k last Hk. apply elem_of_app. left. by apply Hin.
      * intros i j t1 t2 k Hij Hi Hj.
        apply lookup_app_Some in Hj as [Hj|[Hlen Hj]].
        -- apply lookup_app_Some in Hi as [Hi|[Hlen _]]; [by eapply Hgap|].
           apply lookup_lt_Some in Hj. lia.
        -- by apply list_lookup_singleton_Some in Hj as [_ [=]].
      * intros j t2 k Hj.
        apply lookup_app_Some in Hj as [Hj|[Hlen Hj]]; [by apply Hdeny'|].
        apply list_lookup_singleton_Some in Hj as [Hj0 [= <- <-]].
        apply Hin in Hl. apply list_elem_of_lookup_1 in Hl as [i Hi].
        exists i, lastt. split; [apply lookup_lt_Some in Hi; lia|].
        split; [by apply lookup_app_l_Some|lia].
  - simpl. split; [|done]. unfold log_invariant; cbn [fst snd last_logged cooldown].
    split; [|split; [|split]].
    + intros t k [Hk|Hk%list_elem_of_singleton]%elem_of_app.
      * destruct (Hle t k Hk) as (last & Hlast & Ht).
        destruct (decide (key = k)) as [->|Hne]; [congruence|].
        exists last. by rewrite lookup_insert_ne.
      * injection Hk as -> ->. exists now. by rewrite lookup_insert_eq.
    + intros k last Hk. apply elem_of_app.
      destruct (decide (key = k)) as [->|Hne].
      * rewrite lookup_insert_eq in Hk. injection Hk as <-. right. apply list_elem_of_here.
      * rewrite lookup_insert_ne in Hk by done. left. by apply Hin.
    + intros i j t1 t2 k Hij Hi Hj.
      apply lookup_app_Some in Hj as [Hj|[Hlen Hj]].
      * apply lookup_app_Some in Hi as [Hi|[Hlen _]]; [by eapply Hgap|].
        apply lookup_lt_Some in Hj. lia.
      * apply list_lookup_singleton_Some in Hj as [Hj0 [= <- <-]].
        apply lookup_app_Some in Hi as [Hi|[Hlen' _]]; [|lia].
        destruct (Hle t1 key (list_elem_of_lookup_2 _ _ _ Hi)) as (last & Hlast & Ht).
        congruence.
    + intros j t2 k Hj.
      apply lookup_app_Some in Hj as [Hj|[Hlen Hj]]; [by apply Hdeny'|].
      by apply list_lookup_singleton_Some in Hj as [_ [=]].
Qed.

Lemma log_run_invariant (calls : list (Z * string)) :
  ∀ acc, 0 ≤ cooldown acc.1 → log_invariant acc.1 acc.2 →
         log_invariant (foldl log_step acc calls).1 (foldl log_step acc calls).2
         ∧ cooldown (foldl log_step acc calls).1 = cooldown acc.1.
Proof.
  induction calls as [|call calls IH]; intros acc Hnn Hinv; [done|]. simpl.
  destruct (log_step_invariant acc call Hnn Hinv) as [Hinv' Hcd].
  destruct (IH (log_step acc call)) as [? ->]; [lia|done|done].
Qed.

(** [SimpleRateLimiter.can_log], over any sequence of calls of a limiter
    whose cooldown is not negative, whatever the clock readings: two calls
    with one key that were both allowed are more than the cooldown apart,
    and every refused call comes at most the cooldown after an earlier
    allowed call with its key; so the first call with a key is allowed. *)
Theorem can_log_spacing (cooldown_seconds : Z) (calls : list (Z * string)) :
  0 ≤ cooldown_seconds →
  let log := (log_run (init cooldown_seconds) calls).2 in
  (∀ (i j : nat) t1 t2 key, (i < j)%nat →
     log !! i = Some (t1, key, true) → log !! j = Some (t2, key, true) →
     cooldown_seconds < t2 - t1)
  ∧ (∀ (j : nat) t2 key, log !! j = Some (t2, key, false) →
       ∃ (i : nat) t1, (i < j)%nat ∧ log !! i = Some (t1, key, true)
                       ∧ t2 - t1 ≤ cooldown_seconds).
Proof.
  intros Hnn log.
  destruct (log_run_invariant calls (init cooldown_seconds, [])) as [(_ & _ & Hgap & Hdeny) Hcd];
    [done| |].
  { split; [by intros ? ? ?%not_elem_of_nil|]. split; [done|]. split.
    - intros i j t1 t2 key _ Hnil. simpl in Hnil. by rewrite lookup_nil in Hnil.
    - intros j t2 key Hnil. simpl in Hnil. by rewrite lookup_nil in Hnil. }
  simpl in Hcd. rewrite Hcd in Hgap, Hdeny. done.
Qed.

(** The error limiter, called three times with one key: the call at 120
    is refused, 20 seconds after the allowed call at 100. *)
Lemma can_log_spacing_witness :
  0 ≤ cooldown error_rate_limiter
  ∧ ∃ (i : nat) t1, (i < 1)%nat
      ∧ (log_run error_rate_limiter
           [(100, "json_decode"); (120, "json_decode"); (131, "json_decode")]).2 !! i
        = Some (t1, "json_decode", true)
      ∧ 120 - t1 ≤ 30.
Proof.
  split; [vm_compute; discriminate|].
  apply (proj2 (can_log_spacing 30
                  [(100, "json_decode"); (120, "json_decode"); (131, "json_decode")]
                  ltac:(lia)) 1%nat 120 "json_decode").
  vm_compute. reflexivity.
Defined.

End LoggingFacts.

(** ** The connection monitor *)

Module MonitorFacts.
Import Monitor.

Lemma monitor_intervals (pings : list bool) :
  ∀ s, s = monitor_start ∨ s = {| consecutive_failures := 1; connection_healthy := false |} →
       Forall (λ interval, interval = 5 ∨ interval = 7) (connection_monitor s pings).1.
Proof.
  induction pings as [|ping pings IH]; intros s Hs; [constructor|].
  destruct Hs as [-> | ->]; simpl.
  - destruct ping; simpl.
    + constructor; [by left|]. apply IH. by left.
    + constructor; [by left|]. apply IH. by right.
  - constructor; [by right|constructor].
Qed.

Lemma monitor_healthy (n : nat) :
  connection_monitor monitor_start (replicate n true) = (replicate n 5, false).
Proof. unfold monitor_start. induction n as [|n IH]; [done|]. simpl. by rewrite IH. Qed.

Lemma monitor_failure (n : nat) (rest : list bool) :
  connection_monitor monitor_start (replicate n true ++ false :: rest)
  = match rest with
    | [] => (replicate (S n) 5, false)
    | _ :: _ => (replicate (S n) 5 ++ [7], true)
    end.
Proof.
  unfold monitor_start. induction n as [|n IH]; simpl.
  - by destruct rest.
  - rewrite IH. by destruct rest.
Qed.

(** [connection_monitor]: as long as every health check passes, the
    monitor sleeps 5 seconds between checks and goes on.  After the first
    check that fails it sleeps 7 seconds and then closes the connection
    without a second check, whatever that check would have answered: the
    flag that the failed check cleared counts as the second failure.  So no
    connection recovers under the monitor, and the monitor never sleeps
    longer than 7 seconds. *)
Theorem monitor_reconnects_after_first_failure :
  (∀ n, connection_monitor monitor_start (replicate n true) = (replicate n 5, false))
  ∧ (∀ n, connection_monitor monitor_start (replicate n true ++ [false])
          = (replicate (S n) 5, false))
  ∧ (∀ n ping rest,
       connection_monitor monitor_start (replicate n true ++ false :: ping :: rest)
       = (replicate (S n) 5 ++ [7], true))
  ∧ (∀ pings, Forall (λ interval, interval = 5 ∨ interval = 7)
                (connection_monitor monitor_start pings).1).
Proof.
  split; [apply monitor_healthy|]. split; [intros; apply monitor_failure|].
  split; [intros; apply monitor_failure|].
  intros; apply monitor_intervals; by left.
Qed.

End MonitorFacts.

(** ** Subscriptions of the stream client *)

Module SubscriptionFacts.
Import Client ClientRun.

Section Subscriptions.
Variable WATCHED_WALLETS : list string.

Lemma subscribe_known (send_ok : string → string → bool) (c : HyperCoreClient)
    (wallet channel_type : string) :
  sub_key channel_type wallet ∈ subscribed_wallets c →
  subscribe_to_wallet_channel send_ok c wallet channel_type = (true, c).
Proof.
  intros Hin. unfold subscribe_to_wallet_channel. fold (sub_key channel_type wallet).
  by rewrite bool_decide_eq_true_2.
Qed.

(** What one subscription request does to the client. *)
Lemma subscribe_effect (send_ok : string → string → bool) (c : HyperCoreClient)
    (wallet channel_type : string) :
  let r := subscribe_to_wallet_channel send_ok c wallet channel_type in
  subscribed_wallets c ⊆ subscribed_wallets r.2
  ∧ subscribed_wallets r.2 ⊆ {[sub_key channel_type wallet]} ∪ subscribed_wallets c
  ∧ (r.1 = true ↔ sub_key channel_type wallet ∈ subscribed_wallets r.2)
  ∧ (r.1 = true ↔ sub_key channel_type wallet ∈ subscribed_wallets c
                  ∨ send_ok channel_type wallet = true)
  ∧ subscription_count (stats r.2) - Z.of_nat (size (subscribed_wallets r.2))
    = subscription_count (stats c) - Z.of_nat (size (subscribed_wallets c)).
Proof.
  unfold subscribe_to_wallet_channel. fold (sub_key channel_type wallet). cbv zeta.
  case_bool_decide as Hin; simpl.
  { repeat split; try done; auto; set_solver. }
  destruct (send_ok channel_type wallet); simpl.
  - split; [set_solver|]. split; [set_solver|]. split; [split; [set_solver|done]|].
    split; [split; auto|].
    rewrite size_union by set_solver. rewrite size_singleton. lia.
  - split; [done|]. split; [set_solver|]. split; [done|]. split; [|done].
    split; [done|]. intros [?|?]; done.
Qed.

Lemma subscribe_all_pairs (ws_open : bool) (send_ok : string → string → bool)
    (c : HyperCoreClient) :
  subscribe_to_all_wallets WATCHED_WALLETS ws_open send_ok c
  = if negb ws_open then (false, c)
    else let r := foldl (sub_step send_ok) (c, 0) (sub_pairs WATCHED_WALLETS) in (0 <? r.2, r.1).
Proof.
  unfold subscribe_to_all_wallets. destruct ws_open; [|done]. simpl.
  assert (∀ acc, foldl (λ a wallet, subscribe_channels send_ok wallet a) acc WATCHED_WALLETS
                 = foldl (sub_step send_ok) acc (sub_pairs WATCHED_WALLETS)) as ->; [|done].
  unfold sub_pairs. induction WATCHED_WALLETS as [|w ws IH]; intros acc; [done|].
  rewrite bind_cons, foldl_app, <- IH. done.
Qed.

Lemma sub_step_effect (send_ok : string → string → bool) (acc : HyperCoreClient * Z)
    (p : string * string) :
  let r := sub_step send_ok acc p in
  subscribed_wallets acc.1 ⊆ subscribed_wallets r.1
  ∧ subscribed_wallets r.1 ⊆ {[sub_key p.2 p.1]} ∪ subscribed_wallets acc.1
  ∧ ((r.2 = acc.2 + 1 ∧ sub_key p.2 p.1 ∈ subscribed_wallets r.1
      ∧ ((sub_key p.2 p.1 ∈ subscribed_wallets acc.1) ∨ send_ok p.2 p.1 = true))
     ∨ (r.2 = acc.2 ∧ r.1 = acc.1 ∧ (sub_key p.2 p.1 ∉ subscribed_wallets acc.1)
        ∧ send_ok p.2 p.1 = false))
  ∧ subscription_count (stats r.1) - Z.of_nat (size (subscribed_wallets r.1))
    = subscription_count (stats acc.1) - Z.of_nat (size (subscribed_wallets acc.1)).
Proof.
  destruct acc as [c n], p as [w ch]. cbv zeta. unfold sub_step. cbn [fst snd].
  destruct (subscribe_effect send_ok c w ch) as (H1 & H2 & H3 & H4 & H5).
  split; [done|]. split; [done|]. split; [|done].
  destruct (subscribe_to_wallet_channel send_ok c w ch) as [[|] c'] eqn:Hr; cbn [fst snd] in *.
  - left. split; [done|]. split; [by apply H3|by apply H4].
  - right. split; [done|].
    assert (¬ (sub_key ch w ∈ subscribed_wallets c ∨ send_ok ch w = true)) as Hnot.
    { intros Hor. by apply H4 in Hor. }
    assert (sub_key ch w ∉ subscribed_wallets c) as Hn by tauto.
    assert (send_ok ch w = false) as Hs by (destruct (send_ok ch w); tauto).
    split; [|done].
    unfold subscribe_to_wallet_channel in Hr. fold (sub_key ch w) in Hr.
    rewrite bool_decide_eq_false_2, Hs in Hr by done. by injection Hr as <-.
Qed.

Lemma sub_fold (send_ok : string → string → bool) (pairs : list (string * string)) :
  ∀ acc,
    let r := foldl (sub_step send_ok) acc pairs in
    subscribed_wallets acc.1 ⊆ subscribed_wallets r.1
    ∧ (∀ k, k ∈ subscribed_wallets r.1 →
            k ∈ subscribed_wallets acc.1
            ∨ ∃ p, p ∈ pairs ∧ k = sub_key p.2 p.1 ∧ send_ok p.2 p.1 = true)
    ∧ subscription_count (stats r.1) - Z.of_nat (size (subscribed_wallets r.1))
      = subscription_count (stats acc.1) - Z.of_nat (size (subscribed_wallets acc.1))
    ∧ acc.2 ≤ r.2 ≤ acc.2 + Z.of_nat (length pairs)
    ∧ (acc.2 < r.2 ↔
       ∃ p, p ∈ pairs ∧ ((sub_key p.2 p.1 ∈ subscribed_wallets acc.1) ∨ send_ok p.2 p.1 = true))
    ∧ (∀ p, p ∈ pairs →
            (sub_key p.2 p.1 ∈ subscribed_wallets acc.1) ∨ send_ok p.2 p.1 = true →
            sub_key p.2 p.1 ∈ subscribed_wallets r.1).
Proof.
  induction pairs as [|p pairs IH]; intros acc; cbv zeta.
  { simpl. split; [done|]. split; [auto|]. split; [done|]. split; [lia|].
    split; [|by intros ? ?%not_elem_of_nil].
    split; [lia|]. by intros (? & ?%not_elem_of_nil & _). }
  cbn [foldl].
  destruct (sub_step_effect send_ok acc p) as (H1 & H2 & H3 & H4).
  destruct (IH (sub_step send_ok acc p)) as (I1 & I2 & I3 & I4 & I5 & I6).
  set (a1 := sub_step send_ok acc p) in *.
  set (r := foldl (sub_step send_ok) a1 pairs) in *.
  split; [by transitivity (subscribed_wallets a1.1)|]. split; [|split; [lia|split; [|split]]].
  - intros k Hk. destruct (I2 k Hk) as [Hk1|(q & Hq & -> & Hs)].
    + destruct H3 as [(_ & _ & Hor)|(_ & Heq & _)]; [|left; by rewrite <- Heq].
      apply H2 in Hk1. apply elem_of_union in Hk1 as [Hk1|Hk1]; [|by left].
      apply elem_of_singleton in Hk1 as ->. destruct Hor as [Hin|Hs]; [by left|].
      right. exists p. split; [apply list_elem_of_here|done].
    + right. exists q. split; [by apply list_elem_of_further|done].
  - rewrite length_cons. destruct H3 as [(Heq & _)|(Heq & _)]; lia.
  - split.
    + intros Hlt. destruct H3 as [(Heq & _ & Hor)|(Heq & Heq1 & Hn & Hs)].
      * exists p. split; [apply list_elem_of_here|done].
      * rewrite <- Heq in Hlt. apply I5 in Hlt as (q & Hq & Hor).
        exists q. split; [by apply list_elem_of_further|]. by rewrite <- Heq1.
    + intros (q & [->|Hq]%elem_of_cons & Hor).
      * destruct H3 as [(Heq & _)|(_ & _ & Hn & Hs)]; [lia|].
        destruct Hor; [done|congruence].
      * assert (a1.2 < r.2); [|destruct H3 as [(Heq & _)|(Heq & _)]; lia].
        apply I5. exists q. split; [done|]. destruct Hor as [Hin|Hs]; [left; by apply H1|by right].
  - intros q [->|Hq]%elem_of_cons Hor.
    + apply I1. destruct H3 as [(_ & Hin & _)|(_ & _ & Hn & Hs)]; [done|].
      destruct Hor; [done|congruence].
    + apply I6; [done|]. destruct Hor as [Hin|Hs]; [left; by apply H1|by right].
Qed.

Lemma sub_fold_known (send_ok : string → string → bool) (pairs : list (string * string)) :
  ∀ acc, (∀ p, p ∈ pairs → sub_key p.2 p.1 ∈ subscribed_wallets acc.1) →
         foldl (sub_step send_ok) acc pairs = (acc.1, acc.2 + Z.of_nat (length pairs)).
Proof.
  induction pairs as [|[w ch] pairs IH]; intros [c n] Hall.
  { simpl. f_equal. lia. }
  cbn [foldl]. unfold sub_step at 2. cbn [fst snd].
  rewrite subscribe_known by (apply (Hall (w, ch)), list_elem_of_here).
  cbn [fst snd]. rewrite IH.
  - cbn [fst snd length]. f_equal. lia.
  - intros p Hp. apply Hall. by apply list_elem_of_further.
Qed.

Lemma sub_fold_none (send_ok : string → string → bool) (pairs : list (string * string)) :
  ∀ acc, (foldl (sub_step send_ok) acc pairs).2 ≤ acc.2 →
         foldl (sub_step send_ok) acc pairs = acc.
Proof.
  induction pairs as [|p pairs IH]; intros acc Hle; [done|].
  cbn [foldl] in *.
  destruct (sub_step_effect send_ok acc p) as (_ & _ & [(Heq & _)|(Heq2 & Heq1 & _)] & _).
  - destruct (sub_fold send_ok pairs (sub_step send_ok acc p)) as (_ & _ & _ & [Hge _] & _).
    lia.
  - assert (sub_step send_ok acc p = acc) as Hsame; [by apply injective_projections|].
    rewrite Hsame in *. by apply IH.
Qed.

Lemma subscribe_failed (ws_open : bool) (send_ok : string → string → bool)
    (c : HyperCoreClient) :
  (∀ wallet channel_type, wallet ∈ WATCHED_WALLETS → channel_type ∈ channel_types →
     (sub_key channel_type wallet ∉ subscribed_wallets c)
     ∧ send_ok channel_type wallet = false) →
  subscribe_to_all_wallets WATCHED_WALLETS ws_open send_ok c = (false, c).
Proof.
  intros Hnone. rewrite subscribe_all_pairs. destruct ws_open; cbn [negb]; [|done].
  cbv zeta.
  destruct (sub_fold send_ok (sub_pairs WATCHED_WALLETS) (c, 0)) as (_ & _ & _ & _ & Hiff & _).
  cbn [fst snd] in Hiff.
  rewrite (sub_fold_none send_ok (sub_pairs WATCHED_WALLETS) (c, 0)); [done|].
  cbn [snd]. apply Z.nlt_ge. rewrite Hiff.
  intros ([w ch] & Hp & Hor). 
  assert (w ∈ WATCHED_WALLETS ∧ ch ∈ channel_types) as [Hw Hch].
  { unfold sub_pairs in Hp. apply list_elem_of_bind in Hp as (w0 & Hp & Hw0).
    apply list_elem_of_fmap in Hp as (ch0 & [= -> ->] & Hch0). done. }
  destruct (Hnone w ch Hw Hch) as [Hn Hs]. cbn [fst snd] in Hor.
  destruct Hor; [done|congruence].
Qed.

Lemma elem_of_sub_pairs (p : string * string) :
  p ∈ sub_pairs WATCHED_WALLETS ↔ p.1 ∈ WATCHED_WALLETS ∧ p.2 ∈ channel_types.
Proof.
  unfold sub_pairs. rewrite list_elem_of_bind. split.
  - intros (w & (ch & -> & Hch)%list_elem_of_fmap & Hw). done.
  - intros [Hw Hch]. exists p.1. split; [|done].
    apply list_elem_of_fmap. exists p.2. split; [by destruct p|done].
Qed.

Lemma length_sub_pairs : length (sub_pairs WATCHED_WALLETS) = (3 * length WATCHED_WALLETS)%nat.
Proof.
  unfold sub_pairs. induction WATCHED_WALLETS as [|w ws IH]; [done|].
  rewrite bind_cons, length_app, IH. simpl. lia.
Qed.

(** [subscribe_to_all_wallets] on a later connection.  The client
    remembers its subscriptions in [subscribed_wallets] and nothing clears
    the set.  So after one subscription phase in which every request was
    sent, a phase on any later connection leaves the client as it is and
    reports success for a watch list that is not empty, whatever that
    connection would do with a request: it asks for nothing again. *)
Theorem resubscription_sends_nothing (c : HyperCoreClient) (send_ok' : string → string → bool) :
  let c1 := (subscribe_to_all_wallets WATCHED_WALLETS true (λ _ _, true) c).2 in
  subscribe_to_all_wallets WATCHED_WALLETS true send_ok' c1
  = (bool_decide (WATCHED_WALLETS ≠ []), c1).
Proof.
  cbv zeta. rewrite !subscribe_all_pairs. cbn [negb snd]. cbv zeta. cbn [snd].
  destruct (sub_fold (λ _ _, true) (sub_pairs WATCHED_WALLETS) (c, 0)) as (_ & _ & _ & _ & _ & Hall).
  set (c1 := (foldl (sub_step (λ _ _, true)) (c, 0) (sub_pairs WATCHED_WALLETS)).1) in *.
  rewrite (sub_fold_known send_ok' _ (c1, 0)) by (intros p Hp; apply Hall; auto).
  cbn [fst snd]. f_equal. rewrite length_sub_pairs.
  destruct WATCHED_WALLETS; [done|]. rewrite bool_decide_eq_true_2 by done.
  apply Z.ltb_lt. simpl. lia.
Qed.

(** [subscribe_to_all_wallets] returns [True] exactly when the socket is
    open and, for at least one watched wallet and one of the three channel
    types, the subscription is remembered already or its request is sent:
    one success among all the subscriptions is success, and an empty watch
    list is failure. *)
Theorem subscribe_success (ws_open : bool) (send_ok : string → string → bool)
    (c : HyperCoreClient) :
  (subscribe_to_all_wallets WATCHED_WALLETS ws_open send_ok c).1 = true
  ↔ ws_open = true
    ∧ ∃ wallet channel_type,
        wallet ∈ WATCHED_WALLETS ∧ channel_type ∈ channel_types
        ∧ ((sub_key channel_type wallet ∈ subscribed_wallets c)
           ∨ send_ok channel_type wallet = true).
Proof.
  rewrite subscribe_all_pairs. destruct ws_open; cbn [negb]; [|by split; [|intros [? _]]].
  cbv zeta. cbn [fst].
  destruct (sub_fold send_ok (sub_pairs WATCHED_WALLETS) (c, 0)) as (_ & _ & _ & _ & Hiff & _).
  cbn [fst snd] in Hiff. rewrite Z.ltb_lt, Hiff. split.
  - intros ([w ch] & [Hw Hch]%elem_of_sub_pairs & Hor). split; [done|]. by exists w, ch.
  - intros (_ & w & ch & Hw & Hch & Hor). exists (w, ch). split; [by apply elem_of_sub_pairs|done].
Qed.

End Subscriptions.
End SubscriptionFacts.

(** ** Runs of the stream client *)

Module ClientRunFacts.
Import Client ClientRun SubscriptionFacts.

Section Run.
Variable WATCHED_WALLETS : list string.
Variable set_iter : gset string → list string.
Variable container_str : json → string.

Lemma configured_init : configured WATCHED_WALLETS (init WATCHED_WALLETS).
Proof.
  repeat split; done.
Qed.

(** The fields that a subscription request leaves alone, and the wallets
    it can add. *)
Lemma subscribe_keeps (send_ok : string → string → bool) (c : HyperCoreClient)
    (wallet channel_type : string) :
  let c' := (subscribe_to_wallet_channel send_ok c wallet channel_type).2 in
  watched_wallet_set c' = watched_wallet_set c
  ∧ watched_wallets_original c' = watched_wallets_original c
  ∧ wallet_events (stats c') = wallet_events (stats c)
  ∧ total_messages (stats c') = total_messages (stats c)
  ∧ (∀ channel subs w, wallet_subscriptions c' !! channel = Some subs → w ∈ subs →
       w = wallet ∨ ∃ subs0, wallet_subscriptions c !! channel = Some subs0 ∧ w ∈ subs0).
Proof.
  unfold subscribe_to_wallet_channel. cbv zeta.
  case_bool_decide; [|destruct (send_ok channel_type wallet)]; cbn [snd];
    repeat split; try done; try (intros channel subs w Hsubs Hw; right; by exists subs).
  cbn [wallet_subscriptions]. intros channel subs w Hsubs Hw.
  destruct (decide (channel_type = channel)) as [->|Hne].
  - rewrite lookup_insert_eq in Hsubs. injection Hsubs as <-.
    apply elem_of_union in Hw as [Hw%elem_of_singleton|Hw]; [by left|right].
    destruct (wallet_subscriptions c !! channel) as [subs0|]; [by exists subs0|].
    by apply not_elem_of_empty in Hw.
  - rewrite lookup_insert_ne in Hsubs by done. right. by exists subs.
Qed.

Lemma sub_fold_keeps (send_ok : string → string → bool) (pairs : list (string * string)) :
  ∀ acc,
    let r := foldl (sub_step send_ok) acc pairs in
    watched_wallet_set r.1 = watched_wallet_set acc.1
    ∧ watched_wallets_original r.1 = watched_wallets_original acc.1
    ∧ wallet_events (stats r.1) = wallet_events (stats acc.1)
    ∧ total_messages (stats r.1) = total_messages (stats acc.1)
    ∧ (∀ channel subs w, wallet_subscriptions r.1 !! channel = Some subs → w ∈ subs →
         (∃ p, p ∈ pairs ∧ w = p.1)
         ∨ ∃ subs0, wallet_subscriptions acc.1 !! channel = Some subs0 ∧ w ∈ subs0).
Proof.
  induction pairs as [|[wallet ch] pairs IH]; intros acc; cbv zeta.
  { simpl. repeat split; try done. intros channel subs w ? ?. right. by exists subs. }
  cbn [foldl]. destruct (IH (sub_step send_ok acc (wallet, ch))) as (-> & -> & -> & -> & Hsubs).
  destruct (subscribe_keeps send_ok acc.1 wallet ch) as (H1 & H2 & H3 & H4 & H5).
  change (sub_step send_ok acc (wallet, ch)).1
    with (subscribe_to_wallet_channel send_ok acc.1 wallet ch).2 in *.
  split; [done|]. split; [done|]. split; [done|]. split; [done|].
  intros channel subs w Hs Hw.
  destruct (Hsubs channel subs w Hs Hw) as [(p & Hp & ->)|(subs0 & Hs0 & Hw0)].
  - left. exists p. split; [by apply list_elem_of_further|done].
  - destruct (H5 channel subs0 w Hs0 Hw0) as [->|Hold]; [|by right].
    left. exists (wallet, ch). split; [apply list_elem_of_here|done].
Qed.

Lemma subscribe_configured (ws_open : bool) (send_ok : string → string → bool)
    (c : HyperCoreClient) :
  configured WATCHED_WALLETS c →
  configured WATCHED_WALLETS (subscribe_to_all_wallets WATCHED_WALLETS ws_open send_ok c).2
  ∧ total_messages (stats (subscribe_to_all_wallets WATCHED_WALLETS ws_open send_ok c).2)
    = total_messages (stats c)
  ∧ wallet_events (stats (subscribe_to_all_wallets WATCHED_WALLETS ws_open send_ok c).2)
    = wallet_events (stats c).
Proof.
  intros (C1 & C2 & C3 & C4 & C5 & C6). rewrite subscribe_all_pairs.
  destruct ws_open; cbn [negb]; [|done]. cbv zeta. cbn [snd].
  destruct (sub_fold send_ok (sub_pairs WATCHED_WALLETS) (c, 0)) as (_ & S2 & S3 & _).
  destruct (sub_fold_keeps send_ok (sub_pairs WATCHED_WALLETS) (c, 0)) as (K1 & K2 & K3 & K4 & K5).
  cbn [fst] in *. split; [|done].
  split; [congruence|]. split; [congruence|]. split; [congruence|]. split; [|split].
  - intros channel subs w Hs Hw.
    destruct (K5 channel subs w Hs Hw) as [(p & Hp & ->)|(subs0 & Hs0 & Hw0)].
    + by apply elem_of_sub_pairs in Hp as [? _].
    + by eapply C4.
  - intros k Hk. destruct (S2 k Hk) as [Hk0|(p & Hp & -> & _)]; [by apply C5|by exists p].
  - lia.
Qed.

(** *** The configured spelling of a wallet *)

Lemma original_lookup (w : string) :
  (∃ w0, w0 ∈ WATCHED_WALLETS ∧ lower w0 = lower w) →
  ∃ v, watched_wallets_original (init WATCHED_WALLETS) !! lower w = Some v
       ∧ v ∈ WATCHED_WALLETS ∧ lower v = lower w.
Proof.
  intros (w0 & Hw0 & Hl). cbn [init watched_wallets_original].
  set (l := (λ w1, (lower w1, w1)) <$> reverse WATCHED_WALLETS).
  destruct (list_to_map l !! lower w) as [v|] eqn:Hv.
  - exists v. split; [done|]. apply elem_of_list_to_map_2 in Hv.
    apply list_elem_of_fmap in Hv as (w1 & Heq & Hin). injection Heq as Hk ->.
    rewrite elem_of_reverse in Hin. by split.
  - exfalso. apply not_elem_of_list_to_map in Hv. apply Hv.
    apply list_elem_of_fmap. exists (lower w0, w0). split; [done|].
    apply list_elem_of_fmap. exists w0. split; [done|]. by rewrite elem_of_reverse.
Qed.

Lemma original_case (w : string) :
  is_watched_wallet (init WATCHED_WALLETS) w = true →
  get_original_wallet_case (init WATCHED_WALLETS) w ∈ WATCHED_WALLETS
  ∧ lower (get_original_wallet_case (init WATCHED_WALLETS) w) = lower w.
Proof.
  intros (Ht & _ & Hex)%ClientFacts.is_watched_init.
  destruct (original_lookup w Hex) as (v & Hv & Hin & Hl).
  unfold get_original_wallet_case. rewrite Ht, Hv. done.
Qed.

Lemma original_case_unique (w w0 : string) :
  NoDup (lower <$> WATCHED_WALLETS) →
  w0 ∈ WATCHED_WALLETS → lower w0 = lower w → Py.truthy_str w = true →
  get_original_wallet_case (init WATCHED_WALLETS) w = w0.
Proof.
  intros Hnd Hw0 Hl Ht.
  destruct (original_lookup w) as (v & Hv & Hin & Hlv); [by exists w0|].
  unfold get_original_wallet_case. rewrite Ht, Hv. simpl.
  apply list_elem_of_lookup_1 in Hin as [i Hi]. apply list_elem_of_lookup_1 in Hw0 as [j Hj].
  assert (i = j) as ->; [|congruence].
  eapply NoDup_lookup; [exact Hnd|..]; rewrite list_lookup_fmap.
  - by rewrite Hi.
  - rewrite Hj. simpl. congruence.
Qed.

Lemma configured_watched (c : HyperCoreClient) (w : string) :
  configured WATCHED_WALLETS c →
  is_watched_wallet c w = is_watched_wallet (init WATCHED_WALLETS) w
  ∧ get_original_wallet_case c w = get_original_wallet_case (init WATCHED_WALLETS) w.
Proof.
  intros (C1 & C2 & _). unfold is_watched_wallet, get_original_wallet_case. by rewrite C1, C2.
Qed.

(** [is_watched_wallet] and [get_original_wallet_case]: for a wallet that
    is watched, in whatever case it arrives, [get_original_wallet_case]
    returns an entry of [WATCHED_WALLETS] that differs from it in case at
    most; when no two entries of the watch list differ in case only, it
    returns the one entry that matches. *)
Theorem original_case_round_trip (w : string) :
  is_watched_wallet (init WATCHED_WALLETS) w = true →
  get_original_wallet_case (init WATCHED_WALLETS) w ∈ WATCHED_WALLETS
  ∧ lower (get_original_wallet_case (init WATCHED_WALLETS) w) = lower w
  ∧ (NoDup (lower <$> WATCHED_WALLETS) →
     ∀ w0, w0 ∈ WATCHED_WALLETS → lower w0 = lower w →
           get_original_wallet_case (init WATCHED_WALLETS) w = w0).
Proof.
  intros Hw. destruct (original_case w Hw) as [Hin Hl].
  split; [done|]. split; [done|]. intros Hnd w0 Hw0 Hl0.
  apply original_case_unique; try done.
  by apply ClientFacts.is_watched_init in Hw as [? _].
Qed.

(** *** Inbound messages and the counters *)

Lemma count_message_configured (c : HyperCoreClient) :
  configured WATCHED_WALLETS c → configured WATCHED_WALLETS (count_message c).
Proof. by intros (? & ? & ? & ? & ? & ?). Qed.

Lemma count_wallet_event_configured (c : HyperCoreClient) (wallet : string) :
  configured WATCHED_WALLETS c → configured WATCHED_WALLETS (count_wallet_event c wallet).
Proof.
  intros (? & ? & Hdom & ? & ? & ?). unfold count_wallet_event.
  destruct (wallet_events (stats c) !! wallet) as [n|] eqn:Hn; [|done].
  repeat split; try done. cbn [set_stats stats wallet_events].
  rewrite dom_insert_lookup_L; [done|by exists n].
Qed.

Lemma handle_event_state (c : HyperCoreClient) (raw_event : json) :
  let c' := (handle_event set_iter container_str c raw_event).1 in
  c' = count_message c ∨ ∃ wallet, c' = count_wallet_event (count_message c) wallet.
Proof.
  cbv zeta. unfold handle_event. destruct raw_event as [| | | | |fields]; try by left.
  destruct (default (JStr "unknown") (assoc "channel" fields)); try by left.
  case_bool_decide; [|by left]. unfold _handle_wallet_event.
  destruct (working_wallet set_iter container_str (count_message c) fields s) as [[]|[wallet|]];
    try by left.
  right. exists wallet. by destruct (assoc "data" fields) as [[| | | | |]|].
Qed.

Lemma usable_Some (w w' : string) : usable w = Some w' → w' = w.
Proof. unfold usable. case_match; [by intros [= ->]|done]. Qed.

Lemma working_wallet_configured (c : HyperCoreClient) (fields : list (string * json))
    (channel wallet : string) :
  (∀ subs w, w ∈ set_iter subs → w ∈ subs) →
  configured WATCHED_WALLETS c →
  working_wallet set_iter container_str c fields channel = inr (Some wallet) →
  wallet ∈ WATCHED_WALLETS.
Proof.
  intros Hiter Hc.
  assert (subscribed_fallback set_iter c channel ≫= usable = Some wallet →
          wallet ∈ WATCHED_WALLETS) as Hfall.
  { unfold subscribed_fallback.
    destruct (wallet_subscriptions c !! channel) as [subs|] eqn:Hs; [|done].
    destruct (set_iter subs) as [|w ws] eqn:Hit; [done|]. simpl.
    intros ->%usable_Some. destruct Hc as (_ & _ & _ & Hsub & _).
    apply (Hsub channel subs); [done|]. apply Hiter. rewrite Hit. apply list_elem_of_here. }
  unfold working_wallet.
  destruct (first_wallet container_str fields) as [v|]; [|by intros [= ?%Hfall]].
  destruct v as [|b|n|w|items|dict];
    try (destruct (truthy _); [done|by intros [= ?%Hfall]]).
  destruct (Py.truthy_str w && negb (bool_decide (w = "unknown"))); [|by intros [= ?%Hfall]].
  destruct (is_watched_wallet c w) eqn:Hw; [|done].
  intros [= ->%usable_Some].
  destruct (configured_watched c w Hc) as [Hw' ->]. rewrite Hw' in Hw.
  by apply original_case.
Qed.

Lemma forwarded_configured (c : HyperCoreClient) (raw_event : json) (fw : Forwarded) :
  (∀ subs w, w ∈ set_iter subs → w ∈ subs) →
  configured WATCHED_WALLETS c →
  fw ∈ (handle_event set_iter container_str c raw_event).2 →
  fw_wallet fw ∈ WATCHED_WALLETS.
Proof.
  intros Hiter Hc. unfold handle_event.
  destruct raw_event as [| | | | |fields]; try by intros ?%not_elem_of_nil.
  destruct (default (JStr "unknown") (assoc "channel" fields)) as [| | |channel| |];
    try by intros ?%not_elem_of_nil.
  case_bool_decide; [|by intros ?%not_elem_of_nil].
  apply count_message_configured in Hc. set (c1 := count_message c) in *.
  unfold _handle_wallet_event.
  destruct (working_wallet set_iter container_str c1 fields channel) as [[]|[wallet|]] eqn:Hww;
    try by intros ?%not_elem_of_nil.
  pose proof (working_wallet_configured c1 fields channel wallet Hiter Hc Hww) as Hwallet.
  pose proof (count_wallet_event_configured c1 wallet Hc) as Hc'.
  set (c' := count_wallet_event c1 wallet) in *.
  assert (∀ data w, fw ∈ process_single_event c' data channel w → fw_wallet fw = w) as Hsingle.
  { intros data w. unfold process_single_event. destruct data; try by intros ?%not_elem_of_nil.
    destruct (is_watched_wallet c' w); [|by intros ?%not_elem_of_nil].
    by intros ->%list_elem_of_singleton. }
  destruct (assoc "data" fields) as [[| | | |items|data]|]; cbn [snd];
    try by intros ?%not_elem_of_nil.
  - intros (l & Hl & Hin)%ClientFacts.elem_of_concat.
    apply list_elem_of_fmap in Hin as (item & -> & _). unfold process_item in Hl.
    destruct (extract_wallet_from_event_data container_str item (JDict fields)) as [w|].
    + destruct (is_watched_wallet c' w) eqn:Hw; [|by apply not_elem_of_nil in Hl].
      apply Hsingle in Hl as ->.
      destruct (configured_watched c' w Hc') as [Hw' ->]. rewrite Hw' in Hw.
      by apply original_case.
    + by apply Hsingle in Hl as ->.
  - by intros ->%Hsingle.
Qed.

(** *** Runs of the client *)

Lemma size_list_to_set_le (l : list string) :
  (size (list_to_set l : gset string) ≤ length l)%nat.
Proof.
  induction l as [|x l IH]; [done|]. rewrite list_to_set_cons. simpl.
  destruct (decide (x ∈ (list_to_set l : gset string))) as [Hin|Hout].
  - rewrite subseteq_union_1_L by (by apply singleton_subseteq_l). lia.
  - rewrite size_union by (by apply disjoint_singleton_l). rewrite size_singleton. lia.
Qed.

Lemma subscriptions_bounded (c : HyperCoreClient) :
  configured WATCHED_WALLETS c →
  subscription_count (stats c) ≤ 3 * Z.of_nat (length WATCHED_WALLETS).
Proof.
  intros (_ & _ & _ & _ & Hkeys & ->).
  pose proof (length_sub_pairs WATCHED_WALLETS) as Hlen.
  pose proof (size_list_to_set_le ((λ p, sub_key p.2 p.1) <$> sub_pairs WATCHED_WALLETS)) as Hle.
  rewrite length_fmap in Hle.
  assert (subscribed_wallets c
          ⊆ list_to_set ((λ p, sub_key p.2 p.1) <$> sub_pairs WATCHED_WALLETS)) as Hsub.
  { intros k Hk. destruct (Hkeys k Hk) as (p & Hp & ->).
    apply elem_of_list_to_set, list_elem_of_fmap. by exists p. }
  apply subseteq_size in Hsub. lia.
Qed.

Lemma wallet_events_init (w : string) :
  is_Some (wallet_events (stats (init WATCHED_WALLETS)) !! w) ↔ w ∈ WATCHED_WALLETS.
Proof.
  cbn [init stats wallet_events]. rewrite <- elem_of_dom, dom_list_to_map_L.
  rewrite elem_of_list_to_set, <- list_fmap_compose, list_elem_of_fmap. split.
  - intros (w0 & -> & Hin). by rewrite elem_of_reverse in Hin.
  - intros Hin. exists w. split; [done|]. by rewrite elem_of_reverse.
Qed.

Lemma client_step_ok (acc : HyperCoreClient * list Forwarded) (s : ClientStep) :
  run_ok WATCHED_WALLETS set_iter acc →
  run_ok WATCHED_WALLETS set_iter (client_step WATCHED_WALLETS set_iter container_str acc s)
  ∧ total_messages (stats (client_step WATCHED_WALLETS set_iter container_str acc s).1)
    = total_messages (stats acc.1) + Z.of_nat (length (messages [s])).
Proof.
  destruct acc as [c fws]. intros (Hc & Hk & Hfw). cbn [fst snd] in *.
  destruct s as [ws_open send_ok|raw_event]; unfold run_ok;
    cbn [client_step fst snd messages omap length].
  - destruct (subscribe_configured ws_open send_ok c Hc) as (Hc' & Ht & Hev).
    split; [|simpl; lia]. split; [done|]. split; [by rewrite Hev, Ht|done].
  - assert (total_messages (stats (handle_event set_iter container_str c raw_event).1)
            = total_messages (stats c) + 1
            ∧ configured WATCHED_WALLETS (handle_event set_iter container_str c raw_event).1
            ∧ ∀ w k, wallet_events (stats (handle_event set_iter container_str c raw_event).1)
                       !! w = Some k →
                     0 ≤ k ≤ total_messages (stats c) + 1) as (Ht & Hc' & Hk').
    { destruct (handle_event_state c raw_event) as [->|[wallet ->]].
      - split; [done|]. split; [by apply count_message_configured|].
        intros w k Hw. apply Hk in Hw. lia.
      - split; [unfold count_wallet_event; by case_match|].
        split; [by apply count_wallet_event_configured, count_message_configured|].
        intros w k. unfold count_wallet_event. cbn [count_message set_stats stats wallet_events].
        destruct (wallet_events (stats c) !! wallet) as [n|] eqn:Hn;
          cbn [set_stats stats wallet_events].
        + destruct (decide (wallet = w)) as [->|Hne].
          * rewrite lookup_insert_eq. intros [= <-]. apply Hk in Hn. lia.
          * rewrite lookup_insert_ne by done. intros Hw. apply Hk in Hw. lia.
        + intros Hw. apply Hk in Hw. lia. }
    split; [|simpl; lia]. split; [done|]. split; [by rewrite Ht|].
    intros Hiter. apply Forall_app. split; [by apply Hfw|].
    apply Forall_forall. intros fw Hin. exact (forwarded_configured c raw_event fw Hiter Hc Hin).
Qed.

Lemma client_run_ok (steps : list ClientStep) :
  ∀ acc, run_ok WATCHED_WALLETS set_iter acc →
    let r := foldl (client_step WATCHED_WALLETS set_iter container_str) acc steps in
    run_ok WATCHED_WALLETS set_iter r
    ∧ total_messages (stats r.1)
      = total_messages (stats acc.1) + Z.of_nat (length (messages steps)).
Proof.
  induction steps as [|s steps IH]; intros acc Hok; cbv zeta.
  { simpl. split; [done|lia]. }
  cbn [foldl]. destruct (client_step_ok acc s Hok) as [Hok' Ht].
  destruct (IH _ Hok') as [Hr ->]. split; [done|]. rewrite Ht.
  change (s :: steps) with ([s] ++ steps). unfold messages. rewrite omap_app, length_app. lia.
Qed.

(** The statistics of the client after any sequence of subscription
    phases and inbound messages: [total_messages] is the number of messages
    handled; [wallet_events] has a counter for each watched wallet and for
    nothing else, and no counter exceeds the number of messages;
    [subscription_count] is the number of remembered subscriptions, at most
    three for each watched wallet. *)
Theorem client_counters (steps : list ClientStep) :
  let c := (client_run WATCHED_WALLETS set_iter container_str steps).1 in
  total_messages (stats c) = Z.of_nat (length (messages steps))
  ∧ (∀ w, is_Some (wallet_events (stats c) !! w) ↔ w ∈ WATCHED_WALLETS)
  ∧ (∀ w k, wallet_events (stats c) !! w = Some k → 0 ≤ k ≤ Z.of_nat (length (messages steps)))
  ∧ subscription_count (stats c) = Z.of_nat (size (subscribed_wallets c))
  ∧ subscription_count (stats c) ≤ 3 * Z.of_nat (length WATCHED_WALLETS).
Proof.
  cbv zeta. unfold client_run.
  destruct (client_run_ok steps (init WATCHED_WALLETS, [])) as [(Hc & Hk & _) Ht].
  { split; [apply configured_init|]. split; [|by intros _].
    cbn [fst init stats total_messages wallet_events]. intros w k Hw.
    apply elem_of_list_to_map_2, list_elem_of_fmap in Hw as (w0 & [= _ ->] & _). lia. }
  cbn [fst init stats total_messages] in Ht. rewrite Ht, Z.add_0_l in *.
  split; [done|]. split; [|split; [done|split]].
  - intros w. rewrite <- wallet_events_init, <- !elem_of_dom.
    destruct Hc as (_ & _ & -> & _). done.
  - by destruct Hc as (_ & _ & _ & _ & _ & ?).
  - by apply subscriptions_bounded.
Qed.

(** Whatever the messages and the subscription phases, every event that
    the client hands to the parser carries as its wallet an entry of
    [WATCHED_WALLETS], in the configured spelling; iterating over a set is
    taken to yield elements of the set. *)
Theorem forwarded_wallet_configured (steps : list ClientStep) :
  (∀ subs w, w ∈ set_iter subs → w ∈ subs) →
  Forall (λ fw, fw_wallet fw ∈ WATCHED_WALLETS)
         (client_run WATCHED_WALLETS set_iter container_str steps).2.
Proof.
  intros Hiter. unfold client_run.
  destruct (client_run_ok steps (init WATCHED_WALLETS, [])) as [(_ & _ & Hfw) _]; [|by apply Hfw].
  split; [apply configured_init|]. split; [|by intros _].
  cbn [fst init stats total_messages wallet_events]. intros w k Hw.
  apply elem_of_list_to_map_2, list_elem_of_fmap in Hw as (w0 & [= _ ->] & _). lia.
Qed.

End Run.

Lemma original_case_round_trip_witness :
  is_watched_wallet (init ["0xAbCdEf01"]) "0XABCDEF01" = true
  ∧ get_original_wallet_case (init ["0xAbCdEf01"]) "0XABCDEF01" = "0xAbCdEf01".
Proof.
  split; [vm_compute; reflexivity|].
  apply (proj2 (proj2 (original_case_round_trip ["0xAbCdEf01"] "0XABCDEF01"
                         ltac:(vm_compute; reflexivity)))).
  - apply NoDup_singleton.
  - apply list_elem_of_here.
  - vm_compute. reflexivity.
Defined.

(** A fill of a watched wallet, reported in upper case. *)
Lemma forwarded_wallet_configured_witness :
  let steps := [StepSubscribe true (λ _ _, true);
                StepMessage (JDict [("channel", JStr "userFills");
                                    ("data", JDict [("user", JStr "0XABCDEF01")])])] in
  length (client_run ["0xAbCdEf01"] elements (λ _, "") steps).2 = 1%nat
  ∧ Forall (λ fw, fw_wallet fw ∈ ["0xAbCdEf01"])
           (client_run ["0xAbCdEf01"] elements (λ _, "") steps).2.
Proof.
  split; [vm_compute; reflexivity|].
  apply (forwarded_wallet_configured ["0xAbCdEf01"] elements (λ _, "")).
  intros subs w. apply elem_of_elements.
Defined.

(** *** The connect loop *)

(** [connect_and_run] when no subscription succeeds.  A client without
    remembered subscriptions, for which every connect succeeds and every
    subscription request fails (or whose watch list is empty), goes through
    one iteration for each connection: each of them counts a reconnect,
    ends with the failure counter at zero and reaches no backoff sleep, and
    nothing is subscribed at the end.  The connect loop then opens one
    connection after the other with no pause of its own. *)
Theorem no_subscription_no_backoff (watched : list string) (c : HyperCoreClient)
    (failures : Z) (attempts : list Attempt) :
  subscribed_wallets c = ∅ →
  Forall (λ a, ∃ ws_open send_ok listening,
            a = ConnectOpens ws_open send_ok listening
            ∧ ∀ wallet channel_type, wallet ∈ watched → send_ok channel_type wallet = false)
         attempts →
  length (connect_loop watched c failures attempts) = length attempts
  ∧ Forall (λ it, it_subscribed it = false ∧ it_failures it = 0 ∧ it_sleep it = None
                  ∧ subscribed_wallets (it_client it) = ∅)
           (connect_loop watched c failures attempts)
  ∧ reconnect_count (stats (default c (it_client <$> last (connect_loop watched c failures attempts))))
    = reconnect_count (stats c) + Z.of_nat (length attempts).
Proof.
  intros Hempty Hopens. revert c failures Hempty.
  induction Hopens as [|a attempts (ws_open & send_ok & listening & -> & Hsend) _ IH];
    intros c failures Hempty.
  { simpl. split; [done|]. split; [done|]. lia. }
  cbn [connect_loop].
  set (c1 := count_reconnect (set_connected c true)).
  assert (connect_iteration watched c failures (ConnectOpens ws_open send_ok listening)
          = {| it_client := set_connected c1 false; it_failures := 0;
               it_subscribed := false; it_sleep := None |}) as ->.
  { unfold connect_iteration. fold c1.
    rewrite (SubscriptionFacts.subscribe_failed watched); [done|].
    intros w ch Hw _. split; [|by apply Hsend].
    change (subscribed_wallets c1) with (subscribed_wallets c). rewrite Hempty.
    apply not_elem_of_empty. }
  cbn [it_client it_failures].
  destruct (IH (set_connected c1 false) 0) as (Hlen & Hall & Hcount); [done|].
  split; [simpl; by rewrite Hlen|]. split; [by constructor|].
  rewrite length_cons, Nat2Z.inj_succ.
  destruct (connect_loop watched (set_connected c1 false) 0 attempts) as [|it its] eqn:Hloop.
  - destruct attempts; [|done]. simpl. lia.
  - rewrite last_cons.
    destruct (last (it :: its)) as [itl|] eqn:Hlast.
    + cbn [fmap option_fmap option_map default] in *. rewrite Hcount. simpl. lia.
    + by apply last_None in Hlast.
Qed.

Lemma no_subscription_no_backoff_witness :
  let attempts := [ConnectOpens true (λ _ _, false) StreamCloses;
                   ConnectOpens true (λ _ _, false) StreamRaises] in
  Forall (λ it, it_subscribed it = false ∧ it_failures it = 0 ∧ it_sleep it = None
                ∧ subscribed_wallets (it_client it) = ∅)
         (connect_loop ["0xAbCdEf01"] (init ["0xAbCdEf01"]) 4 attempts).
Proof.
  intros attempts.
  apply (no_subscription_no_backoff ["0xAbCdEf01"] (init ["0xAbCdEf01"]) 4 attempts).
  - reflexivity.
  - repeat constructor; eexists _, _, _; (split; [reflexivity|done]).
Defined.

(** [connect_and_run] while every connect fails.  For a client that is not
    shutting down, the [i]-th of a series of failed connects, counted from
    1, leaves the failure counter at its value before the series plus [i],
    and is followed by the backoff sleep for that count; no reconnect is
    counted and the remembered subscriptions stay. *)
Theorem persistent_failure_backoff (watched : list string) (c : HyperCoreClient)
    (failures : Z) (k : nat) :
  is_shutting_down c = false →
  let its := connect_loop watched c failures (replicate k ConnectRaises) in
  length its = k
  ∧ ∀ (i : nat) it, its !! i = Some it →
      it_failures it = failures + Z.of_nat i + 1
      ∧ it_sleep it = Some (reconnect_delay (failures + Z.of_nat i + 1))
      ∧ it_subscribed it = false
      ∧ reconnect_count (stats (it_client it)) = reconnect_count (stats c)
      ∧ subscribed_wallets (it_client it) = subscribed_wallets c.
Proof.
  revert c failures. induction k as [|k IH]; intros c failures Hrun; cbv zeta.
  { split; [done|]. intros i it Hi. simpl in Hi. by rewrite lookup_nil in Hi. }
  cbn [replicate connect_loop].
  destruct (IH (set_connected c false) (failures + 1) Hrun) as [Hlen Hits].
  cbn [connect_iteration it_client it_failures]. split; [simpl; by rewrite Hlen|].
  intros [|i] it Hi.
  - injection Hi as <-. cbn [it_failures it_sleep it_subscribed it_client].
    unfold backoff. cbn [set_connected is_shutting_down]. rewrite Hrun.
    replace (failures + Z.of_nat 0 + 1) with (failures + 1) by lia. done.
  - cbn [lookup list_lookup] in Hi. destruct (Hits i it Hi) as (H1 & H2 & H3 & H4 & H5).
    rewrite H1, H2, H3, H4, H5.
    replace (failures + Z.of_nat (S i) + 1) with (failures + 1 + Z.of_nat i + 1) by lia.
    done.
Qed.

Lemma persistent_failure_backoff_witness :
  it_sleep <$> connect_loop ["0xAbCdEf01"] (init ["0xAbCdEf01"]) 2 (replicate 3 ConnectRaises)
  = [Some 2; Some 5; Some 5]
  ∧ ∀ it, connect_loop ["0xAbCdEf01"] (init ["0xAbCdEf01"]) 2 (replicate 3 ConnectRaises)
          !! 2%nat = Some it →
          it_failures it = 2 + Z.of_nat 2 + 1.
Proof.
  split; [vm_compute; reflexivity|]. intros it Hit.
  apply (proj2 (persistent_failure_backoff ["0xAbCdEf01"] (init ["0xAbCdEf01"]) 2 3
                  ltac:(reflexivity)) 2%nat it Hit).
Defined.

End ClientRunFacts.

(** ** The wallet of a message *)

Module ExtractFacts.
Import Client.

Lemma string_app_cons (x : ascii) (a b : string) : String x a +:+ b = String x (a +:+ b).
Proof. done. Qed.

Lemma string_app_assoc (a b c : string) : (a +:+ b) +:+ c = a +:+ (b +:+ c).
Proof. induction a as [|x a IH]; [done|]. by rewrite !string_app_cons, IH. Qed.

Lemma rev_app_spec (s acc : string) : String.rev_app s acc = String.rev s +:+ acc.
Proof.
  revert acc. induction s as [|x s IH]; intros acc; [done|].
  unfold String.rev. simpl. rewrite (IH (String x acc)), (IH (String x "")).
  by rewrite string_app_assoc.
Qed.

Lemma rev_cons (x : ascii) (s : string) :
  String.rev (String x s) = String.rev s +:+ String x "".
Proof. unfold String.rev at 1. simpl. apply rev_app_spec. Qed.

Lemma rev_snoc (x : ascii) (s : string) :
  String.rev (s +:+ String x "") = String x (String.rev s).
Proof.
  induction s as [|y s IH]; [done|].
  rewrite string_app_cons, !rev_cons, IH. done.
Qed.

Lemma rev_involutive (s : string) : String.rev (String.rev s) = s.
Proof. induction s as [|x s IH]; [done|]. by rewrite rev_cons, rev_snoc, IH. Qed.

Lemma lstrip_head (s : string) :
  lstrip s = "" ∨ ∃ x r, lstrip s = String x r ∧ is_space x = false.
Proof.
  induction s as [|x s IH]; [by left|]. simpl.
  destruct (is_space x) eqn:Hx; [done|]. right. by exists x, s.
Qed.

Lemma lstrip_idemp (s : string) : lstrip (lstrip s) = lstrip s.
Proof.
  destruct (lstrip_head s) as [->|(x & r & -> & Hx)]; [done|]. simpl. by rewrite Hx.
Qed.

Lemma lstrip_snoc (x : ascii) (s : string) :
  is_space x = false → ∃ u, lstrip (s +:+ String x "") = u +:+ String x "".
Proof.
  intros Hx. induction s as [|y s IH].
  - exists "". simpl. by rewrite Hx.
  - rewrite string_app_cons. simpl. destruct (is_space y); [done|]. by exists (String y s).
Qed.

Lemma strip_clean (s : string) : lstrip (strip s) = strip s.
Proof.
  unfold strip. destruct (lstrip_head s) as [->|(x & r & -> & Hx)]; [done|].
  rewrite rev_cons. destruct (lstrip_snoc x (String.rev r) Hx) as [u ->].
  rewrite rev_snoc. simpl. by rewrite Hx.
Qed.

Lemma strip_idemp (s : string) : strip (strip s) = strip s.
Proof.
  unfold strip at 1. rewrite strip_clean. unfold strip.
  by rewrite rev_involutive, lstrip_idemp.
Qed.

Section Extract.
Variable container_str : json → string.

Lemma check_dict_clean (data : json) (w : string) :
  check_dict_for_wallet container_str data = Some w →
  w ≠ "" ∧ (w ∉ not_a_wallet) ∧ strip w = w.
Proof.
  unfold check_dict_for_wallet. destruct data as [| | | | |fields]; try done.
  generalize wallet_fields. intros names.
  induction names as [|field names IH]; [done|]. simpl.
  destruct (check_field container_str fields field) as [w'|] eqn:Hf; [|exact IH].
  intros [= ->]. unfold check_field in Hf.
  destruct (assoc field fields) as [v|]; [|done]. destruct (truthy v); [|done].
  destruct (Py.truthy_str (strip (py_str container_str v))) eqn:Ht; [|done].
  case_bool_decide as Hin; [done|]. injection Hf as <-.
  split; [by intros Heq; rewrite Heq in Ht|]. split; [done|apply strip_idemp].
Qed.

(** [extract_wallet_from_event_data]: a wallet that it finds, in whichever
    of the places it looks, is not empty, is none of the placeholders
    ["unknown"], ["multiple_wallets"], ["0x0"] and ["null"], and carries no
    white space at either end. *)
Theorem extracted_wallet_clean (event_data raw_event : json) (w : string) :
  extract_wallet_from_event_data container_str event_data raw_event = Some w →
  w ≠ "" ∧ (w ∉ not_a_wallet) ∧ strip w = w.
Proof.
  unfold extract_wallet_from_event_data.
  destruct (check_dict_for_wallet container_str raw_event) as [w0|] eqn:H0.
  { intros [= <-]. by eapply check_dict_clean. }
  destruct event_data as [| | | |[|first items]|fields]; try done.
  - apply check_dict_clean.
  - destruct (check_dict_for_wallet container_str (JDict fields)) as [w1|] eqn:H1.
    { intros [= <-]. by eapply check_dict_clean. }
    destruct (assoc "data" fields) as [nested|].
    + destruct (truthy nested).
      * destruct (check_dict_for_wallet container_str nested) as [w2|] eqn:H2.
        { intros [= <-]. by eapply check_dict_clean. }
        destruct (assoc "fills" fields) as [[| | | |[|fill fills]|]|]; try done.
        apply check_dict_clean.
      * destruct (assoc "fills" fields) as [[| | | |[|fill fills]|]|]; try done.
        apply check_dict_clean.
    + destruct (assoc "fills" fields) as [[| | | |[|fill fills]|]|]; try done.
      apply check_dict_clean.
Qed.

End Extract.

(** A payload whose ["user"] is a placeholder and whose ["wallet"] is
    padded. *)
Lemma extracted_wallet_clean_witness :
  let event_data := JDict [("user", JStr "unknown"); ("wallet", JStr "  0xAbCdEf01 ")] in
  let raw_event := JDict [("channel", JStr "userFills")] in
  extract_wallet_from_event_data (λ _, "") event_data raw_event = Some "0xAbCdEf01"
  ∧ strip "0xAbCdEf01" = "0xAbCdEf01".
Proof.
  intros event_data raw_event.
  assert (extract_wallet_from_event_data (λ _, "") event_data raw_event = Some "0xAbCdEf01")
    as Hfound by (vm_compute; reflexivity).
  split; [exact Hfound|].
  exact (proj2 (proj2 (extracted_wallet_clean (λ _, "") event_data raw_event "0xAbCdEf01"
                         Hfound))).
Defined.

End ExtractFacts.

(** ** Statistics and clean-up of the deduplicator *)

Module DedupStatusFacts.
Import Dedup DedupStatus.

Section WithHash.
Variable md5_hexdigest : string → string.

Lemma prepared_keeps (d : EventDeduplicator) (e : Event) (c : Clock) :
  let d0 := prepared md5_hexdigest d e c in
  wallet_event_counts d0 = wallet_event_counts d
  ∧ is_Some (event_signatures d0 !! _generate_signature md5_hexdigest e (t_signature c))
  ∧ (dom (suppressed_events d) ⊆ dom (event_signatures d) →
     dom (suppressed_events d0) ⊆ dom (event_signatures d0)).
Proof.
  cbv zeta. unfold prepared.
  set (s := _generate_signature md5_hexdigest e (t_signature c)).
  set (d1 := _cleanup_old_entries d (t_cleanup c)).
  assert (wallet_event_counts d1 = wallet_event_counts d
          ∧ (dom (suppressed_events d) ⊆ dom (event_signatures d) →
             dom (suppressed_events d1) ⊆ dom (event_signatures d1))) as [Hwc Hdom].
  { unfold d1, _cleanup_old_entries. case_match; [done|]. split; [done|].
    intros _ k. cbn [suppressed_events event_signatures]. rewrite !elem_of_dom.
    intros [evs Hk]. apply map_lookup_filter_Some in Hk as [_ Hk]. exact Hk. }
  unfold ensure_signature. destruct (event_signatures d1 !! s) as [l|] eqn:Hs.
  - split; [done|]. split; [by rewrite Hs|done].
  - cbn [wallet_event_counts event_signatures suppressed_events].
    split; [done|]. split; [by rewrite lookup_insert_eq|].
    intros Hd. rewrite !dom_insert_L. by apply union_mono_l, Hdom.
Qed.

Lemma summaries_keep (d : EventDeduplicator) (now : Z) :
  let d' := (get_all_suppressed_summaries d now).2 in
  wallet_event_counts d' = wallet_event_counts d
  ∧ event_signatures d' = event_signatures d
  ∧ dom (suppressed_events d') = dom (suppressed_events d).
Proof.
  cbv zeta. unfold get_all_suppressed_summaries. case_match; [done|].
  destruct (DedupFacts.summary_loop md5_hexdigest d (suppressed_keys d)) as (_ & Hlook & Hsame).
  { apply NoDup_fst_map_to_list. }
  destruct (foldl summary_step ([], d) (suppressed_keys d)) as [sms d'] eqn:Hfold.
  cbn [fst snd] in *. destruct Hsame as (_ & _ & Hsig & Hwc & _).
  assert (dom (suppressed_events d') = dom (suppressed_events d)) as Hdom.
  { apply set_eq. intros k. rewrite !elem_of_dom, Hlook. case_decide as Hk; [|done].
    apply list_elem_of_filter in Hk as [_ Hk]. unfold suppressed_keys in Hk.
    apply list_elem_of_fmap in Hk as ([k' evs] & -> & Hk). apply elem_of_map_to_list in Hk.
    simpl. rewrite Hk. split; by eauto. }
  by destruct sms.
Qed.

(** The invariant of a deduplicator in use. *)
Lemma use_step_invariant (acc : EventDeduplicator * list Event) (u : Use) :
  (∀ w, default 0 (wallet_event_counts acc.1 !! w) = Z.of_nat (length (counted w acc.2)))
  ∧ dom (suppressed_events acc.1) ⊆ dom (event_signatures acc.1) →
  let r := use_step md5_hexdigest acc u in
  (∀ w, default 0 (wallet_event_counts r.1 !! w) = Z.of_nat (length (counted w r.2)))
  ∧ dom (suppressed_events r.1) ⊆ dom (event_signatures r.1).
Proof.
  destruct acc as [d log]. cbn [fst snd]. intros [Hcount Hdom].
  destruct u as [e c|now|]; cbv zeta; cbn [use_step fst snd].
  - destruct (prepared_keeps d e c) as (Hwc & Hs & Hd0). specialize (Hd0 Hdom).
    set (s := _generate_signature md5_hexdigest e (t_signature c)) in *.
    pose proof (DedupFacts.recent_count_nonneg (prepared md5_hexdigest d e c) s (t_now c)) as Hnn.
    assert (∀ w, (default "unknown" (ev_wallet e) = w ∧ default 0 (ev_usd_value e) < 10000 →
                  length (counted w (log ++ [e])) = S (length (counted w log)))
                 ∧ (¬ (default "unknown" (ev_wallet e) = w ∧ default 0 (ev_usd_value e) < 10000) →
                    counted w (log ++ [e]) = counted w log)) as Hlog.
    { intros w. unfold counted. rewrite filter_app. split; intros Hw.
      - rewrite filter_cons_True, filter_nil, length_app by done. simpl. lia.
      - by rewrite filter_cons_False, filter_nil, app_nil_r by done. }
    destruct (DedupFacts.should_allow_event_cases md5_hexdigest d e c)
      as [[H1 ->]|[(H1 & H2 & ->)|[(H1 & H2 & H3 & ->)|(H1 & H2 & H3 & ->)]]];
      cbn [fst snd].
    + split.
      * intros w. cbn [record_admission wallet_event_counts]. rewrite Hwc, Hcount.
        by rewrite (proj2 (Hlog w)) by (intros [_ ?]; lia).
      * cbn [record_admission suppressed_events event_signatures]. rewrite dom_insert_L.
        by apply union_subseteq_r'.
    + split.
      * intros w. cbn [record_admission wallet_event_counts]. rewrite Hwc, Hcount.
        by rewrite (proj2 (Hlog w)) by (intros [_ ?]; lia).
      * cbn [record_admission suppressed_events event_signatures]. rewrite dom_insert_L.
        by apply union_subseteq_r'.
    + assert (default 0 (ev_usd_value e) < 10000) as Hstd by (subst s; lia).
      split.
      * intros w. cbn [count_wallet record_admission wallet_event_counts]. rewrite Hwc.
        destruct (decide (default "unknown" (ev_wallet e) = w)) as [<-|Hne].
        -- rewrite lookup_insert_eq. simpl. rewrite Hcount.
           rewrite (proj1 (Hlog _)) by done. lia.
        -- rewrite lookup_insert_ne by done. rewrite Hcount.
           by rewrite (proj2 (Hlog w)) by tauto.
      * cbn [count_wallet record_admission suppressed_events event_signatures].
        rewrite dom_insert_L. by apply union_subseteq_r'.
    + split; [by intros w; cbn [suppress wallet_event_counts]; rewrite Hwc|].
      cbn [suppress suppressed_events event_signatures]. rewrite dom_insert_L.
      apply union_subseteq. split; [|done]. by apply singleton_subseteq_l, elem_of_dom.
  - destruct (summaries_keep d now) as (-> & -> & ->). done.
  - split; [|done]. intros w. cbn [reset_wallet_stats wallet_event_counts].
    by rewrite lookup_empty.
Qed.

Lemma use_run_invariant (uses : list Use) :
  ∀ acc,
    (∀ w, default 0 (wallet_event_counts acc.1 !! w) = Z.of_nat (length (counted w acc.2)))
    ∧ dom (suppressed_events acc.1) ⊆ dom (event_signatures acc.1) →
    let r := foldl (use_step md5_hexdigest) acc uses in
    (∀ w, default 0 (wallet_event_counts r.1 !! w) = Z.of_nat (length (counted w r.2)))
    ∧ dom (suppressed_events r.1) ⊆ dom (event_signatures r.1).
Proof.
  induction uses as [|u uses IH]; intros acc Hinv; [done|].
  cbn [foldl]. apply IH. by apply use_step_invariant.
Qed.

(** [get_wallet_stats], after any sequence of calls of
    [should_allow_event], [get_all_suppressed_summaries] and
    [reset_wallet_stats] on a new deduplicator: the counter of a wallet (zero
    when it has none) is the number of events admitted since the last reset
    that carry the wallet (["unknown"] for an event without one) and a value
    below 10000 USD.  Events of 10000 USD or more are admitted without being
    counted, and suppressed events are not counted. *)
Theorem wallet_stats_count (t0 window limit : Z) (uses : list Use) (wallet : string) :
  let r := use_run md5_hexdigest (init t0 window limit) uses in
  default 0 (get_wallet_stats r.1 !! wallet) = Z.of_nat (length (counted wallet r.2)).
Proof.
  cbv zeta. unfold use_run, get_wallet_stats.
  by destruct (use_run_invariant uses (init t0 window limit, [])) as [Hcount _].
Qed.

(** [get_status], after any such sequence: every signature that has a list
    of suppressed events is a tracked signature, so that
    ["suppressed_signatures"] is never larger than ["active_signatures"]. *)
Theorem suppressed_signatures_tracked (t0 window limit : Z) (uses : list Use) :
  let d := (use_run md5_hexdigest (init t0 window limit) uses).1 in
  (∀ s, is_Some (suppressed_events d !! s) → is_Some (event_signatures d !! s))
  ∧ 0 ≤ suppressed_signatures (get_status d) ≤ active_signatures (get_status d).
Proof.
  cbv zeta. unfold use_run.
  destruct (use_run_invariant uses (init t0 window limit, [])) as [_ Hdom]; [done|].
  split.
  - intros s Hs. by apply elem_of_dom, Hdom, elem_of_dom.
  - cbn [get_status suppressed_signatures active_signatures].
    apply subseteq_size in Hdom. rewrite !size_dom in Hdom. lia.
Qed.

(** The clean-up inside [should_allow_event].  When a clean-up is due
    (120 seconds after the last one) and every admission of a signature is
    older than the window, a call for an event of another signature removes
    the signature and, with it, its suppressed events: they are deleted
    without having been summarised, and the signature no longer qualifies
    for a summary. *)
Theorem expired_signature_forgotten (d : EventDeduplicator) (e : Event) (c : Clock)
    (s : string) :
  120 ≤ t_cleanup c - last_cleanup d →
  Forall (λ ts, ts ≤ t_cleanup c - window_seconds d) (default [] (event_signatures d !! s)) →
  _generate_signature md5_hexdigest e (t_signature c) ≠ s →
  let d' := (should_allow_event md5_hexdigest d e c).2 in
  event_signatures d' !! s = None
  ∧ suppressed_events d' !! s = None
  ∧ s ∉ qualifying d'.
Proof.
  intros Hdue Hold Hne. cbv zeta.
  assert (event_signatures (prepared md5_hexdigest d e c) !! s = None
          ∧ suppressed_events (prepared md5_hexdigest d e c) !! s = None) as [Hsig Hsup].
  { unfold prepared.
    set (d1 := _cleanup_old_entries d (t_cleanup c)).
    assert (event_signatures d1 !! s = None ∧ suppressed_events d1 !! s = None) as [H1 H2].
    { unfold d1, _cleanup_old_entries.
      destruct (Z.ltb_spec (t_cleanup c - last_cleanup d) 120); [lia|].
      cbn [event_signatures suppressed_events].
      assert (omap (prune (t_cleanup c - window_seconds d)) (event_signatures d) !! s = None)
        as Hnone.
      { rewrite lookup_omap. destruct (event_signatures d !! s) as [l|]; [|done].
        simpl in *. unfold prune.
        assert (filter (λ ts, t_cleanup c - window_seconds d < ts) l = []) as ->; [|done].
        induction Hold as [|ts l Hts _ IH]; [done|].
        rewrite filter_cons_False by lia. exact IH. }
      split; [done|]. apply map_lookup_filter_None. right. intros evs _. cbn [fst].
      rewrite Hnone. by intros [? ?]. }
    unfold ensure_signature.
    destruct (event_signatures d1 !! _generate_signature md5_hexdigest e (t_signature c));
      [done|].
    cbn [event_signatures suppressed_events]. by rewrite !lookup_insert_ne. }
  assert (event_signatures (should_allow_event md5_hexdigest d e c).2 !! s = None
          ∧ suppressed_events (should_allow_event md5_hexdigest d e c).2 !! s = None) as [H1 H2].
  { destruct (DedupFacts.should_allow_event_cases md5_hexdigest d e c)
      as [[_ ->]|[(_ & _ & ->)|[(_ & _ & _ & ->)|(_ & _ & _ & ->)]]];
      cbn [snd record_admission count_wallet suppress event_signatures suppressed_events];
      by rewrite ?lookup_insert_ne. }
  split; [done|]. split; [done|].
  intros (evs & Hevs & _)%DedupFacts.qualifying_spec. congruence.
Qed.

End WithHash.

(** Three equal events at time 1, the third of them suppressed, and an
    event of another coin at time 500. *)
Lemma expired_signature_forgotten_witness :
  let e1 := {| ev_wallet := Some "0xAbCdEf01"; ev_user := None; ev_coin := Some "BTC";
               ev_type := Some "fill"; ev_usd_value := Some 100 |} in
  let e2 := {| ev_wallet := Some "0xAbCdEf01"; ev_user := None; ev_coin := Some "ETH";
               ev_type := Some "fill"; ev_usd_value := Some 100 |} in
  let c1 := {| t_cleanup := 1; t_signature := 1; t_now := 1 |} in
  let c2 := {| t_cleanup := 500; t_signature := 500; t_now := 500 |} in
  let d := (use_run (λ s, s) (init 0 120 2) [UseFilter e1 c1; UseFilter e1 c1; UseFilter e1 c1]).1 in
  let s := _generate_signature (λ s, s) e1 1 in
  suppressed_events d !! s = Some [e1]
  ∧ suppressed_events (should_allow_event (λ s, s) d e2 c2).2 !! s = None.
Proof.
  intros e1 e2 c1 c2 d s. split; [vm_compute; reflexivity|].
  apply (expired_signature_forgotten (λ s, s) d e2 c2 s).
  - vm_compute. discriminate.
  - vm_compute. repeat constructor; discriminate.
  - vm_compute. discriminate.
Defined.

End DedupStatusFacts.

(** ** Alerts on their way through the dispatcher *)

Module DispatchFacts.
Import Dispatcher Dispatch.

Lemma handed_app (key : string * string) (log news : list Observed) :
  handed key (log ++ news) = handed key log ++ handed key news.
Proof. unfold handed, sends_of. by rewrite filter_app, fmap_app, concat_app. Qed.

Lemma handed_observe (key key' : string * string) (t : Z) (d : option Delivery)
    (log : list Observed) :
  handed key (observe t key' d log)
  = handed key log ++ (if decide (key' = key) then default [] (dl_events <$> d) else []).
Proof.
  rewrite DispatcherFacts.observe_app, handed_app. f_equal.
  destruct d as [dl|]; simpl; [|by case_decide].
  unfold handed, sends_of. rewrite filter_cons, filter_nil. simpl.
  case_decide; simpl; [by rewrite app_nil_r|done].
Qed.

(** What one notification does to the queue and the handler calls of a key. *)
Lemma notify_conserves (st : NotificationRateLimiter) (now : Z) (channel : string)
    (event : Event) (o : send_outcome) (key : string * string) :
  key.1 ∈ CHANNEL_HANDLERS →
  let r := process_event_notification st now channel event o in
  default [] (dl_events <$> (if decide ((channel, _get_wallet_key event) = key) then r.2 else None))
    ++ queue r.1 key
  = queue st key ++ (if decide ((channel, _get_wallet_key event) = key) then [event] else []).
Proof.
  intros Hsup. cbv zeta. set (k := (channel, _get_wallet_key event)).
  destruct (decide (cooldown_of st channel < now - last_time st k)) as [Hok|Hno].
  - destruct (DispatcherFacts.process_allowed st now channel event o Hok)
      as (_ & _ & Hq & Hother & Hsend).
    fold k in Hother. case_decide as Hk.
    + subst key. rewrite Hsend, DispatcherFacts.send_to_handler by done. simpl.
      unfold queue, k. unfold get_pending_events, _get_key in Hq. rewrite Hq.
      by rewrite app_nil_r.
    + simpl. unfold queue. rewrite Hother by done. by rewrite app_nil_r.
  - rewrite (DispatcherFacts.process_denied st now channel event o Hno). cbn [fst snd].
    unfold queue, add_pending_event, _get_key. cbn [pending_events]. fold k.
    case_decide as Hk.
    + subst key. by rewrite lookup_insert_eq.
    + rewrite lookup_insert_ne by done. by rewrite app_nil_r.
Qed.

Lemma handed_batch_none (key : string * string) (now : Z)
    (l : list ((string * string) * Delivery)) :
  (∀ dl, (key, dl) ∉ l) →
  handed key ((λ kd, {| ob_time := now; ob_key := kd.1; ob_delivery := kd.2 |}) <$> l) = [].
Proof.
  induction l as [|[k dl] l IH]; intros Hnone; [done|].
  rewrite fmap_cons. change (?x :: ?l) with ([x] ++ l). rewrite handed_app, IH.
  - unfold handed, sends_of. rewrite filter_cons, filter_nil. simpl.
    case_decide as Hk; [|done]. subst k. destruct (Hnone dl). apply list_elem_of_here.
  - intros dl' Hin. apply (Hnone dl'). by apply list_elem_of_further.
Qed.

Lemma handed_batch_one (key : string * string) (now : Z) (dl : Delivery)
    (l : list ((string * string) * Delivery)) :
  NoDup l.*1 → (key, dl) ∈ l →
  handed key ((λ kd, {| ob_time := now; ob_key := kd.1; ob_delivery := kd.2 |}) <$> l)
  = dl_events dl.
Proof.
  induction l as [|[k dl'] l IH]; intros Hnd Hin; [by apply not_elem_of_nil in Hin|].
  rewrite fmap_cons in Hnd. apply NoDup_cons in Hnd as [Hk Hnd].
  rewrite fmap_cons. change (?x :: ?l) with ([x] ++ l). rewrite handed_app.
  apply elem_of_cons in Hin as [[= <- <-]|Hin].
  - rewrite handed_batch_none.
    + unfold handed, sends_of. rewrite filter_cons, filter_nil. simpl.
      rewrite decide_True by done. simpl. by rewrite !app_nil_r.
    + intros dl0 Hin. apply Hk. simpl. by apply (list_elem_of_fmap_2 fst _ (key, dl0)).
  - rewrite IH by done. unfold handed, sends_of. rewrite filter_cons, filter_nil. simpl.
    case_decide as Hkk; [|done]. subst k. destruct Hk. simpl.
    by apply (list_elem_of_fmap_2 fst _ (key, dl)).
Qed.

(** What one flush does to the queue and the handler calls of a key. *)
Lemma flush_conserves (st : NotificationRateLimiter) (now : Z)
    (outcome : string * string → send_outcome) (key : string * string) :
  key.1 ∈ CHANNEL_HANDLERS →
  let r := flush_pending_notifications st now outcome in
  handed key ((λ kd, {| ob_time := now; ob_key := kd.1; ob_delivery := kd.2 |}) <$> r.2)
    ++ queue r.1 key
  = queue st key.
Proof.
  intros Hsup. cbv zeta.
  destruct (DispatcherFacts.flush_spec st now outcome) as (_ & Hdue & Hkeep & Hnd & Hin).
  destruct (decide (cooldown_of st key.1 < now - last_time st key)) as [Hcool|Hcool].
  - destruct (pending_events st !! key) as [[|e evs]|] eqn:Hp.
    + destruct (Hkeep key) as [Hq _]; [intros (evs & ? & ? & _); by simplify_eq|].
      rewrite handed_batch_none; [unfold queue; by rewrite Hq|].
      intros dl (evs & ? & ? & _)%Hin. by simplify_eq.
    + destruct (Hdue key) as [Hq _]; [by exists (e :: evs)|].
      rewrite (handed_batch_one key now
                 {| dl_channel := key.1; dl_events := e :: evs; dl_outcome := outcome key |});
        [unfold queue; rewrite Hq, Hp; by rewrite app_nil_r|done|].
      apply Hin. exists (e :: evs). split; [done|]. split; [done|]. split; [done|].
      by apply DispatcherFacts.send_to_handler.
    + destruct (Hkeep key) as [Hq _]; [intros (evs & ? & ? & _); by simplify_eq|].
      rewrite handed_batch_none; [unfold queue; by rewrite Hq|].
      intros dl (evs & ? & ? & _)%Hin. by simplify_eq.
  - destruct (Hkeep key) as [Hq _]; [by intros (evs & _ & _ & ?)|].
    rewrite handed_batch_none; [unfold queue; by rewrite Hq|].
    by intros dl (evs & _ & _ & ? & _)%Hin.
Qed.

Lemma notified_notify (key : string * string) (now : Z) (channel : string) (event : Event)
    (o : send_outcome) :
  notified key [OpNotify now channel event o]
  = if decide ((channel, _get_wallet_key event) = key) then [event] else [].
Proof. unfold notified. simpl. by case_decide. Qed.

Lemma operate_conserves (acc : NotificationRateLimiter * list Observed) (op : Operation)
    (key : string * string) :
  key.1 ∈ CHANNEL_HANDLERS →
  handed key (operate acc op).2 ++ queue (operate acc op).1 key
  = (handed key acc.2 ++ queue acc.1 key) ++ notified key [op].
Proof.
  destruct acc as [st log]. intros Hsup.
  destruct op as [now channel event o|now outcome]; cbn [operate fst snd].
  - rewrite notified_notify, handed_observe, <- !app_assoc. f_equal.
    pose proof (notify_conserves st now channel event o key Hsup) as Hn. cbv zeta in Hn.
    destruct (decide ((channel, _get_wallet_key event) = key)) as [Hk|Hk];
      simpl in *; by rewrite Hn.
  - rewrite handed_app, <- !app_assoc. f_equal.
    change (notified key [OpFlush now outcome]) with (@nil Event). rewrite app_nil_r.
    by apply flush_conserves.
Qed.

(** Over any sequence of notifications and flushes, each run to its end,
    and for any key whose channel has a handler: the alerts handed to the
    handler of the key so far, in the order of the calls, followed by the
    alerts in the queue of the key, are the alerts that were in the queue at
    the start followed by the alerts notified for the key, in their order.
    On its way to the handler no alert is dropped, handed over twice or
    overtaken, whether or not the handler then succeeds. *)
Theorem alerts_conserved (st : NotificationRateLimiter) (ops : list Operation)
    (key : string * string) :
  key.1 ∈ CHANNEL_HANDLERS →
  handed key (operate_all st ops).2 ++ queue (operate_all st ops).1 key
  = queue st key ++ notified key ops.
Proof.
  intros Hsup. unfold operate_all.
  assert (∀ acc, handed key (foldl operate acc ops).2 ++ queue (foldl operate acc ops).1 key
                 = (handed key acc.2 ++ queue acc.1 key) ++ notified key ops) as Hfold.
  { induction ops as [|op ops IH]; intros acc; [by rewrite app_nil_r|].
    cbn [foldl]. rewrite IH, operate_conserves by done. rewrite <- app_assoc. f_equal.
    change (op :: ops) with ([op] ++ ops). unfold notified. by rewrite omap_app. }
  by rewrite Hfold.
Qed.

Lemma due_dec (st : NotificationRateLimiter) (now : Z) (k : string * string) :
  due st now k ∨ ¬ due st now k.
Proof.
  destruct (decide (cooldown_of st k.1 < now - last_time st k)) as [Hc|Hc].
  - destruct (pending_events st !! k) as [[|e l]|] eqn:Hq.
    + right. intros (l & ? & ? & _). by simplify_eq.
    + left. by exists (e :: l).
    + right. intros (l & ? & ? & _). by simplify_eq.
  - right. by intros (l & _ & _ & ?).
Qed.

(** [flush_pending_notifications], run to its end: what a flush at any
    time afterwards finds to send are queues that the first flush found not
    yet due, as they were; and a second flush at the time of the first finds
    nothing to send, sends nothing and leaves the limiter as it is. *)
Theorem flush_twice (st : NotificationRateLimiter) (now : Z)
    (outcome outcome' : string * string → send_outcome) :
  let r := flush_pending_notifications st now outcome in
  (∀ now' key events, (key, events) ∈ keys_to_flush r.1 now' →
                      pending_events st !! key = Some events ∧ ¬ due st now key)
  ∧ keys_to_flush r.1 now = []
  ∧ flush_pending_notifications r.1 now outcome' = (r.1, []).
Proof.
  cbv zeta.
  destruct (DispatcherFacts.flush_spec st now outcome) as (Hcd & Hdue & Hkeep & _).
  assert (∀ now' key events,
            (key, events) ∈ keys_to_flush (flush_pending_notifications st now outcome).1 now' →
            pending_events st !! key = Some events ∧ ¬ due st now key) as Hlater.
  { intros now' k evs (Hp & Hne & Hcool)%DispatcherFacts.keys_to_flush_elem.
    destruct (due_dec st now k) as [Hd|Hd].
    - destruct (Hdue k Hd) as [Hq _]. congruence.
    - destruct (Hkeep k Hd) as [Hq Hl]. split; [by rewrite <- Hq|done]. }
  assert (keys_to_flush (flush_pending_notifications st now outcome).1 now = []) as Hnone.
  { apply elem_of_nil_inv. intros [k evs] Hin.
    destruct (Hlater now k evs Hin) as [Hq Hd].
    apply DispatcherFacts.keys_to_flush_elem in Hin as (Hp & Hne & Hcool).
    destruct (Hkeep k Hd) as [_ Hl]. apply Hd. exists evs.
    split; [done|]. split; [done|].
    unfold cooldown_of, last_time in *. cbn [fst] in Hcool. by rewrite Hcd, Hl in Hcool. }
  split; [done|]. split; [done|].
  unfold flush_pending_notifications at 1. by rewrite Hnone.
Qed.

(** A channel without a handler.  [process_event_notification] for such a
    channel calls no handler.  When the cooldown of the key has elapsed, the
    alert and whatever was queued for the key are dropped, and the time is
    recorded as the last send of the key; otherwise the alert is queued.  A
    flush, of any limiter at any time, calls no handler for a key of the
    channel, and removes the queue of such a key when it is due.  So the
    limiter keeps the books for the channel, and every alert for it is lost
    without an error. *)
Theorem unsupported_channel_discards (st : NotificationRateLimiter) (now : Z)
    (channel : string) (event : Event) (o : send_outcome) :
  channel ∉ CHANNEL_HANDLERS →
  let key := (channel, _get_wallet_key event) in
  let r := process_event_notification st now channel event o in
  r.2 = None
  ∧ (cooldown_of st channel < now - last_time st key →
     queue r.1 key = [] ∧ last_sent r.1 !! key = Some now)
  ∧ (¬ cooldown_of st channel < now - last_time st key →
     queue r.1 key = queue st key ++ [event])
  ∧ (∀ st' now' outcome wallet_key,
       (∀ dl, ((channel, wallet_key), dl) ∉ (flush_pending_notifications st' now' outcome).2)
       ∧ (due st' now' (channel, wallet_key) →
          pending_events (flush_pending_notifications st' now' outcome).1
            !! (channel, wallet_key) = None)).
Proof.
  intros Hun. cbv zeta.
  assert (∀ events o', _send_notification channel events o' = None) as Hsend.
  { intros events o'. unfold _send_notification. by rewrite bool_decide_eq_false_2. }
  split; [|split; [|split]].
  - unfold process_event_notification.
    destruct (can_send_notification st now channel (_get_wallet_key event)) as [[|] st1];
      [apply Hsend|done].
  - intros Hok.
    destruct (DispatcherFacts.process_allowed st now channel event o Hok) as (_ & -> & Hq & _).
    split; [exact Hq|apply lookup_insert_eq].
  - intros Hno. rewrite (DispatcherFacts.process_denied st now channel event o Hno).
    unfold queue, add_pending_event, _get_key. cbn [fst pending_events].
    by rewrite lookup_insert_eq.
  - intros st' now' outcome wallet_key.
    destruct (DispatcherFacts.flush_spec st' now' outcome) as (_ & Hdue & _ & _ & Hlog).
    split.
    + intros dl Hin. apply Hlog in Hin as (events & _ & _ & _ & Hs).
      cbn [fst] in Hs. by rewrite Hsend in Hs.
    + intros Hd. by destruct (Hdue _ Hd).
Qed.

Lemma unsupported_channel_discards_witness :
  let event := {| ev_wallet := Some "0xAbCdEf01"; ev_user := None; ev_coin := Some "BTC";
                  ev_type := Some "fill"; ev_usd_value := Some 100 |} in
  let r := process_event_notification notification_rate_limiter 1000 "sms" event Sent in
("sms" ∉ CHANNEL_HANDLERS)
  ∧ r.2 = None
  ∧ last_sent r.1 !! ("sms", _get_wallet_key event) = Some 1000.
Proof.
  intros event r.
  assert ("sms" ∉ CHANNEL_HANDLERS) as Hun.
  { unfold CHANNEL_HANDLERS. intros Hin.
    repeat (apply elem_of_cons in Hin as [Hin|Hin]; [discriminate|]).
    by apply elem_of_nil in Hin. }
  split; [exact Hun|].
  destruct (unsupported_channel_discards notification_rate_limiter 1000 "sms" event Sent Hun)
    as (Hnone & Hok & _).
  split; [exact Hnone|]. apply Hok. vm_compute. reflexivity.
Defined.

(** The alert [event] has reached [channel]: it was handed to the handler
    as the last alert of a call, or it is the last alert of the queue. *)
Lemma reached_step (event : Event) (channel channel' : string) (now : Z) (o : send_outcome)
    (acc : NotificationRateLimiter * list Observed) :
  channel ∈ CHANNEL_HANDLERS →
  let key := (channel, _get_wallet_key event) in
  let r := process_event_notification acc.1 now channel' event o in
  let acc' := (r.1, observe now (channel', _get_wallet_key event) r.2 acc.2) in
  (channel' = channel
   ∨ (∃ ob, ob ∈ acc.2 ∧ ob_key ob = key ∧ last (dl_events (ob_delivery ob)) = Some event)
   ∨ last (queue acc.1 key) = Some event) →
  (∃ ob, ob ∈ acc'.2 ∧ ob_key ob = key ∧ last (dl_events (ob_delivery ob)) = Some event)
  ∨ last (queue acc'.1 key) = Some event.
Proof.
  destruct acc as [st log]. intros Hsup. cbv zeta. cbn [fst snd].
  set (k' := (channel', _get_wallet_key event)).
  intros Hpre. rewrite DispatcherFacts.observe_app.
  destruct (decide (cooldown_of st channel' < now - last_time st k')) as [Hok|Hno].
  - destruct (DispatcherFacts.process_allowed st now channel' event o Hok)
      as (_ & _ & _ & Hother & Hsend). fold k' in Hother.
    destruct (decide (channel' = channel)) as [->|Hne].
    + left. rewrite Hsend, DispatcherFacts.send_to_handler by done. simpl.
      eexists. split; [apply elem_of_app; right; apply list_elem_of_here|].
      split; [done|]. simpl. by rewrite last_snoc.
    + destruct Hpre as [?|[(ob & Hin & Hk & Hl)|Hq]]; [done| |].
      * left. exists ob. split; [apply elem_of_app; by left|done].
      * right. unfold queue. rewrite Hother; [done|]. unfold k'. congruence.
  - rewrite (DispatcherFacts.process_denied st now channel' event o Hno). cbn [fst snd].
    simpl. rewrite app_nil_r.
    destruct (decide (channel' = channel)) as [->|Hne].
    + right. unfold queue, add_pending_event, _get_key. cbn [pending_events].
      rewrite lookup_insert_eq. simpl. by rewrite last_snoc.
    + destruct Hpre as [?|[Hob|Hq]]; [done|by left|].
      right. unfold queue, add_pending_event, _get_key. cbn [pending_events].
      rewrite lookup_insert_ne; [done|]. congruence.
Qed.

Lemma dispatch_loop_reaches (clock : nat → Z) (outcome : nat → send_outcome) (event : Event)
    (channel : string) (channels : list string) :
  channel ∈ CHANNEL_HANDLERS →
  let key := (channel, _get_wallet_key event) in
  ∀ i acc,
    (channel ∈ channels
     ∨ (∃ ob, ob ∈ acc.2 ∧ ob_key ob = key ∧ last (dl_events (ob_delivery ob)) = Some event)
     ∨ last (queue acc.1 key) = Some event) →
    let r := dispatch_loop clock outcome event i acc channels in
    (∃ ob, ob ∈ r.2 ∧ ob_key ob = key ∧ last (dl_events (ob_delivery ob)) = Some event)
    ∨ last (queue r.1 key) = Some event.
Proof.
  intros Hsup key. induction channels as [|channel' channels IH]; intros i acc Hpre; cbv zeta.
  { simpl. destruct Hpre as [Hin|Hpre]; [by apply not_elem_of_nil in Hin|done]. }
  cbn [dispatch_loop]. apply IH.
  destruct (decide (channel' = channel)) as [->|Hne].
  - right. apply (reached_step event channel channel (clock i) (outcome i) acc Hsup). by left.
  - destruct Hpre as [Hin|Hpre].
    + left. apply elem_of_cons in Hin as [->|Hin]; done.
    + right. apply (reached_step event channel channel' (clock i) (outcome i) acc Hsup).
      by right.
Qed.

(** [dispatch_notification]: for every channel it is called with (every
    channel with a handler, when it is called with none) that has a handler,
    the alert is, when the call returns, the last alert of a call of the
    handler of its key or the last alert of the queue of its key, whatever
    the clock readings and whatever the handlers of the other channels do:
    an exception of one handler keeps the alert from no other channel. *)
Theorem dispatch_reaches_every_channel (st : NotificationRateLimiter) (event : Event)
    (channels : list string) (clock : nat → Z) (outcome : nat → send_outcome)
    (channel : string) :
  channel ∈ channels_or_default channels → channel ∈ CHANNEL_HANDLERS →
  let key := (channel, _get_wallet_key event) in
  let r := dispatch_notification st event channels clock outcome in
  (∃ ob, ob ∈ r.2 ∧ ob_key ob = key ∧ last (dl_events (ob_delivery ob)) = Some event)
  ∨ last (queue r.1 key) = Some event.
Proof.
  intros Hin Hsup. cbv zeta. unfold dispatch_notification.
  apply (dispatch_loop_reaches clock outcome event channel _ Hsup). by left.
Qed.

Lemma long_wallet_key (event : Event) (w : string) :
  ev_wallet event = Some w → (8 < String.length w)%nat →
  _get_wallet_key event = Py.take_str 8 w +:+ "...".
Proof.
  intros Hw Hlen. unfold _get_wallet_key. rewrite Hw.
  assert (Py.truthy_str w = true) as Ht by (destruct w; [simpl in Hlen; lia|done]).
  cbv zeta. rewrite !Ht. by rewrite (proj2 (Nat.ltb_lt _ _) Hlen).
Qed.

(** [_get_wallet_key] keeps the first eight characters of a wallet.  Two
    wallets of more than eight characters that agree on them have one key,
    and with it one cooldown and one queue for each channel: after an alert
    of the first wallet passed the check, an alert of the second wallet that
    arrives within the cooldown is not sent but queued under the key of the
    first. *)
Theorem wallets_share_cooldown (st : NotificationRateLimiter) (now now' : Z)
    (channel : string) (e1 e2 : Event) (w1 w2 : string) (o o' : send_outcome) :
  ev_wallet e1 = Some w1 → ev_wallet e2 = Some w2 →
  (8 < String.length w1)%nat → (8 < String.length w2)%nat →
  Py.take_str 8 w1 = Py.take_str 8 w2 →
  cooldown_of st channel < now - last_time st (channel, _get_wallet_key e1) →
  now' - now ≤ cooldown_of st channel →
  let st1 := (process_event_notification st now channel e1 o).1 in
  _get_wallet_key e2 = _get_wallet_key e1
  ∧ process_event_notification st1 now' channel e2 o'
    = (add_pending_event st1 channel (_get_wallet_key e1) e2, None).
Proof.
  intros Hw1 Hw2 Hl1 Hl2 Hpre Hok Hsoon. cbv zeta.
  assert (_get_wallet_key e2 = _get_wallet_key e1) as Hkey.
  { by rewrite (long_wallet_key e1 w1), (long_wallet_key e2 w2), Hpre. }
  split; [done|].
  destruct (DispatcherFacts.process_allowed st now channel e1 o Hok) as (Hcd & Hls & _).
  rewrite <- Hkey.
  apply DispatcherFacts.process_denied. rewrite Hkey.
  unfold cooldown_of, last_time in *. rewrite Hcd, Hls, lookup_insert_eq. simpl. lia.
Qed.

Lemma alerts_conserved_witness :
  let event := {| ev_wallet := Some "0xAbCdEf01"; ev_user := None; ev_coin := Some "BTC";
                  ev_type := Some "fill"; ev_usd_value := Some 100 |} in
  let key := ("telegram", _get_wallet_key event) in
  let ops := [OpNotify 1000 "telegram" event Raised; OpNotify 1001 "telegram" event Sent;
              OpFlush 1050 (λ _, Sent)] in
  handed key (operate_all notification_rate_limiter ops).2
    ++ queue (operate_all notification_rate_limiter ops).1 key
  = queue notification_rate_limiter key ++ notified key ops.
Proof.
  intros event key ops. apply (alerts_conserved notification_rate_limiter ops key).
  unfold CHANNEL_HANDLERS. cbn [fst key]. apply list_elem_of_further, list_elem_of_here.
Defined.

Lemma dispatch_reaches_every_channel_witness :
  let event := {| ev_wallet := Some "0xAbCdEf01"; ev_user := None; ev_coin := Some "BTC";
                  ev_type := Some "fill"; ev_usd_value := Some 100 |} in
  let key := ("email", _get_wallet_key event) in
  let r := dispatch_notification notification_rate_limiter event [] (λ _, 1000)
             (λ i, match i with O => Raised | _ => Sent end) in
  (∃ ob, ob ∈ r.2 ∧ ob_key ob = key ∧ last (dl_events (ob_delivery ob)) = Some event)
  ∨ last (queue r.1 key) = Some event.
Proof.
  intros event key r.
  apply (dispatch_reaches_every_channel notification_rate_limiter event [] (λ _, 1000)
           (λ i, match i with O => Raised | _ => Sent end) "email").
  - unfold channels_or_default, CHANNEL_HANDLERS.
    do 3 apply list_elem_of_further. apply list_elem_of_here.
  - unfold CHANNEL_HANDLERS. do 3 apply list_elem_of_further. apply list_elem_of_here.
Defined.

Lemma wallets_share_cooldown_witness :
  let e1 := {| ev_wallet := Some "0x123456aaaa"; ev_user := None; ev_coin := Some "BTC";
               ev_type := Some "fill"; ev_usd_value := Some 100 |} in
  let e2 := {| ev_wallet := Some "0x123456bbbb"; ev_user := None; ev_coin := Some "ETH";
               ev_type := Some "fill"; ev_usd_value := Some 200 |} in
  let st1 := (process_event_notification notification_rate_limiter 1000 "telegram" e1 Sent).1 in
  _get_wallet_key e2 = _get_wallet_key e1
  ∧ process_event_notification st1 1045 "telegram" e2 Sent
    = (add_pending_event st1 "telegram" (_get_wallet_key e1) e2, None).
Proof.
  intros e1 e2 st1.
  apply (wallets_share_cooldown notification_rate_limiter 1000 1045 "telegram" e1 e2
           "0x123456aaaa" "0x123456bbbb" Sent Sent).
  - reflexivity.
  - reflexivity.
  - simpl. lia.
  - simpl. lia.
  - reflexivity.
  - vm_compute. reflexivity.
  - vm_compute. discriminate.
Defined.

End DispatchFacts.

(** ** Conditions, rules and the alert engine *)

Module TriggersFacts.
Import Client Triggers.

Section WithEvents.
Variable event : Type.
Variable default_conditions : gmap string (condition_func event).

Lemma evaluate_step_spec (ev : event) (matched : list Condition) (cond : Condition) :
  (holds event default_conditions ev cond
   ∧ evaluate_step event default_conditions ev matched cond = matched ++ [cond])
  ∨ (¬ holds event default_conditions ev cond
     ∧ evaluate_step event default_conditions ev matched cond = matched).
Proof.
  unfold evaluate_step, holds.
  destruct (cond_type cond) as [ty|] eqn:Hty; [|right; split; [by intros (? & ? & ? & _)|done]].
  destruct (Py.truthy_str ty) eqn:Ht; simpl.
  - destruct (default_conditions !! ty) as [func|] eqn:Hf.
    + destruct (func ev (cond_args cond)) as [[|]|] eqn:Hr.
      * left. split; [|done]. exists ty, func. split; [done|]. split; [|done].
        by intros ->.
      * right. split; [|done]. intros (ty' & func' & ? & _ & ? & ?). by simplify_eq.
      * right. split; [|done]. intros (ty' & func' & ? & _ & ? & ?). by simplify_eq.
    + right. split; [|done]. intros (ty' & func' & ? & _ & ? & ?). by simplify_eq.
  - right. split; [|done]. intros (ty' & func' & ? & Hne & _). simplify_eq.
    by destruct ty'.
Qed.

Lemma evaluate_fold (ev : event) (conditions : list Condition) :
  ∀ matched, ∃ kept,
    foldl (evaluate_step event default_conditions ev) matched conditions = matched ++ kept
    ∧ kept `sublist_of` conditions
    ∧ (∀ cond, cond ∈ kept ↔ cond ∈ conditions ∧ holds event default_conditions ev cond)
    ∧ (length kept = length conditions ↔ Forall (holds event default_conditions ev) conditions).
Proof.
  induction conditions as [|cond conditions IH]; intros matched.
  { exists []. rewrite app_nil_r. split; [done|]. split; [done|]. split.
    - intros cond. split; [by intros ?%not_elem_of_nil|by intros [?%not_elem_of_nil _]].
    - done. }
  cbn [foldl].
  destruct (evaluate_step_spec ev matched cond) as [[Hh ->]|[Hh ->]].
  - destruct (IH (matched ++ [cond])) as (kept & -> & Hsub & Hin & Hlen).
    exists (cond :: kept). rewrite <- app_assoc. split; [done|].
    split; [by apply sublist_skip|]. split.
    + intros c. rewrite !elem_of_cons, Hin. split; [|tauto].
      intros [->|[? ?]]; [by split; [left|]|by split; [right|]].
    + rewrite Forall_cons. simpl. split; [intros [= ?]; tauto|intros [_ ?]; f_equal; tauto].
  - destruct (IH matched) as (kept & -> & Hsub & Hin & Hlen).
    exists kept. split; [done|]. split; [by apply sublist_cons|]. split.
    + intros c. rewrite elem_of_cons, Hin. split; [tauto|].
      intros [[->|?] ?]; [done|tauto].
    + rewrite Forall_cons. apply sublist_length in Hsub. simpl. split; [lia|tauto].
Qed.

(** [evaluate_conditions] returns, in their order, the conditions that
    hold: those with a type that is not empty, for which a function is
    registered that returns a true value for the event and the arguments.  A
    condition without type, of a type that is not registered, or whose
    function raises is passed over like one that is false.
    [any_conditions_match] is true exactly when some condition holds,
    [all_conditions_match] exactly when the list is not empty and every
    condition holds, and the negation made by [create_not_condition] exactly
    when its condition does not hold, which includes a condition of a type
    that is not registered and one whose function raises. *)
Theorem conditions_semantics (ev : event) (conditions : list Condition) :
  evaluate_conditions event ev conditions default_conditions `sublist_of` conditions
  ∧ (∀ cond, cond ∈ evaluate_conditions event ev conditions default_conditions
             ↔ cond ∈ conditions ∧ holds event default_conditions ev cond)
  ∧ (any_conditions_match event default_conditions ev conditions = true
     ↔ ∃ cond, cond ∈ conditions ∧ holds event default_conditions ev cond)
  ∧ (all_conditions_match event default_conditions ev conditions = true
     ↔ conditions ≠ [] ∧ Forall (holds event default_conditions ev) conditions)
  ∧ (∀ cond, not_condition event default_conditions cond ev = true
             ↔ ¬ holds event default_conditions ev cond).
Proof.
  unfold any_conditions_match, all_conditions_match, not_condition, evaluate_conditions.
  destruct (evaluate_fold ev conditions []) as (kept & -> & Hsub & Hin & Hlen). simpl.
  split; [done|]. split; [done|]. split; [|split].
  - rewrite Nat.ltb_lt. split.
    + intros Hpos. destruct kept as [|cond kept]; [simpl in Hpos; lia|].
      exists cond. apply Hin, list_elem_of_here.
    + intros (cond & Hc). apply Hin in Hc. destruct kept; [by apply not_elem_of_nil in Hc|].
      simpl. lia.
  - destruct conditions as [|c conditions]; [by split; [|intros [? _]]|].
    rewrite Nat.eqb_eq, Hlen. split; [by split|by intros [_ ?]].
  - intros cond. destruct (evaluate_step_spec ev [] cond) as [[Hh ->]|[Hh ->]]; simpl.
    + by split.
    + by split.
Qed.

Lemma rule_call_spec (ev : event) (rule : Rule) (channels : list string) :
  rule_call event default_conditions ev rule = Some channels
  ↔ (∃ cond, cond ∈ rule_conditions rule ∧ holds event default_conditions ev cond)
    ∧ channels = default ["telegram"; "email"; "discord"; "webhook"] (rule_channels rule).
Proof.
  unfold rule_call, evaluate_conditions.
  destruct (evaluate_fold ev (rule_conditions rule) []) as (kept' & -> & _ & Hin & _).
  cbn [app]. destruct kept' as [|cond kept].
  - split; [done|]. intros [(cond & Hc) _]. apply Hin in Hc. by apply not_elem_of_nil in Hc.
  - split.
    + intros [= <-]. split; [|done]. exists cond. apply Hin, list_elem_of_here.
    + by intros [_ ->].
Qed.

End WithEvents.
End TriggersFacts.

Module EngineFacts.
Import Dispatcher Dispatch Triggers Engine DispatchFacts.

Lemma dispatch_loop_conserves (clock : nat → Z) (outcome : nat → send_outcome) (event : Event)
    (channel : string) (channels : list string) :
  channel ∈ CHANNEL_HANDLERS →
  let key := (channel, _get_wallet_key event) in
  ∀ i acc,
    let r := dispatch_loop clock outcome event i acc channels in
    handed key r.2 ++ queue r.1 key
    = (handed key acc.2 ++ queue acc.1 key)
        ++ replicate (length (filter (λ c, c = channel) channels)) event.
Proof.
  intros Hsup key. induction channels as [|channel' channels IH]; intros i acc; cbv zeta.
  { simpl. by rewrite app_nil_r. }
  cbn [dispatch_loop]. rewrite IH. cbn [fst snd].
  rewrite handed_observe, <- !app_assoc. f_equal.
  pose proof (notify_conserves acc.1 (clock i) channel' event (outcome i) key Hsup) as Hn.
  cbv zeta in Hn. rewrite filter_cons.
  destruct (decide ((channel', _get_wallet_key event) = key)) as [Hk|Hk].
  - injection Hk as ->. rewrite decide_True by done. simpl in *.
    rewrite app_assoc, Hn, <- app_assoc. done.
  - rewrite decide_False by (intros ->; by apply Hk). simpl in *.
    by rewrite Hn, app_nil_r.
Qed.

Section WithEvents.
Variable event : Type.
Variable view : event → Event.
Variable default_conditions : gmap string (condition_func event).

(** [AlertEngine.process_event] with [dispatch_notification] as its alert
    handler.  A rule calls the handler exactly when one of its conditions
    holds, with the channels of the rule or, when it has no ["channels"],
    the four default channels.  The rules are not exclusive: for a channel
    with a handler, the event goes to the handler or into the queue of its
    key once for every occurrence of the channel among the channels of the
    rules that match, so that an event matching several rules is notified
    several times on one channel. *)
Theorem matching_rules_multiply_alerts (rules : list Rule) (st : NotificationRateLimiter)
    (ev : event) (clock : nat → Z) (outcome : nat → send_outcome) (channel : string) :
  channel ∈ CHANNEL_HANDLERS →
  let key := (channel, _get_wallet_key (view ev)) in
  let r := process_and_dispatch event view default_conditions rules st ev clock outcome in
  (∀ rule channels,
     rule_call event default_conditions ev rule = Some channels
     ↔ (∃ cond, cond ∈ rule_conditions rule ∧ holds event default_conditions ev cond)
       ∧ channels = default ["telegram"; "email"; "discord"; "webhook"] (rule_channels rule))
  ∧ handed key r.2 ++ queue r.1 key
    = queue st key
        ++ replicate (length (filter (λ c, c = channel)
                                (dispatched_channels event default_conditions rules ev)))
                     (view ev).
Proof.
  intros Hsup. cbv zeta. split; [apply TriggersFacts.rule_call_spec|].
  unfold process_and_dispatch.
  by rewrite (dispatch_loop_conserves clock outcome (view ev) channel _ Hsup 0 (st, [])).
Qed.

End WithEvents.

(** Two rules that match one fill, both naming ["telegram"]. *)
Lemma matching_rules_multiply_alerts_witness :
  let event := {| ev_wallet := Some "0xAbCdEf01"; ev_user := None; ev_coin := Some "BTC";
                  ev_type := Some "user_fill"; ev_usd_value := Some 100 |} in
  let conditions : gmap string (condition_func Event) :=
    {["is_user_fill" := λ e _, Some (bool_decide (ev_type e = Some "user_fill"))]} in
  let rules :=
    [ {| rule_name := "User Fill Alert";
         rule_conditions := [ {| cond_type := Some "is_user_fill"; cond_args := [] |} ];
         rule_channels := Some ["telegram"] |};
      {| rule_name := "Trade Alert";
         rule_conditions := [ {| cond_type := Some "is_user_fill"; cond_args := [] |} ];
         rule_channels := None |} ] in
  let key := ("telegram", _get_wallet_key event) in
  let r := process_and_dispatch Event (λ e, e) conditions rules notification_rate_limiter
             event (λ _, 1000) (λ _, Sent) in
  handed key r.2 ++ queue r.1 key = [event; event].
Proof.
  intros event conditions rules key r.
  assert ("telegram" ∈ CHANNEL_HANDLERS) as Hin
    by (unfold CHANNEL_HANDLERS; apply list_elem_of_further, list_elem_of_here).
  etrans.
  - exact (proj2 (matching_rules_multiply_alerts Event (λ e, e) conditions rules
                    notification_rate_limiter event (λ _, 1000) (λ _, Sent) "telegram" Hin)).
  - vm_compute. reflexivity.
Defined.

End EngineFacts.

(** ** The coin mapper *)

Module CoinMapperFacts.
Import Client CoinMapper.

(** *** Characters and strings *)

Lemma upper_ascii_idemp (a : ascii) : upper_ascii (upper_ascii a) = upper_ascii a.
Proof. by destruct a as [[] [] [] [] [] [] [] []]. Qed.

Lemma upper_ascii_at (a : ascii) : Ascii.eqb (upper_ascii a) "@" = Ascii.eqb a "@".
Proof. by destruct a as [[] [] [] [] [] [] [] []]. Qed.

Lemma upper_ascii_digit (a : ascii) : is_digit (upper_ascii a) = is_digit a.
Proof. by destruct a as [[] [] [] [] [] [] [] []]. Qed.

Lemma upper_ascii_space (a : ascii) : is_space (upper_ascii a) = is_space a.
Proof. by destruct a as [[] [] [] [] [] [] [] []]. Qed.

Lemma digit_plain (a : ascii) :
  is_digit a = true →
  upper_ascii a = a ∧ is_space a = false ∧ Ascii.eqb a "." = false ∧ Ascii.eqb a "@" = false.
Proof. by destruct a as [[] [] [] [] [] [] [] []]. Qed.

Lemma digit_value (x : N) :
  (x < 10)%N →
  is_digit (pretty_N_char x) = true ∧ (N_of_ascii (pretty_N_char x) - 48)%N = x.
Proof.
  intros Hx.
  assert (x = 0 ∨ x = 1 ∨ x = 2 ∨ x = 3 ∨ x = 4 ∨ x = 5 ∨ x = 6 ∨ x = 7 ∨ x = 8 ∨ x = 9)%N
    as Hcases by lia.
  repeat (destruct Hcases as [->|Hcases]; [done|]). by subst.
Qed.

Lemma upper_idemp (s : string) : upper (upper s) = upper s.
Proof. induction s as [|a s IH]; [done|]. simpl. by rewrite upper_ascii_idemp, IH. Qed.

Lemma upper_all_digits (s : string) : all_digits (upper s) = all_digits s.
Proof. induction s as [|a s IH]; [done|]. simpl. by rewrite upper_ascii_digit, IH. Qed.

Lemma upper_isdigit (s : string) : isdigit (upper s) = isdigit s.
Proof. destruct s as [|a s]; [done|]. apply (upper_all_digits (String a s)). Qed.

Lemma upper_startswith_at (s : string) : startswith_at (upper s) = startswith_at s.
Proof. destruct s as [|a s]; [done|]. apply upper_ascii_at. Qed.

Lemma upper_digits (s : string) : all_digits s = true → upper s = s.
Proof.
  induction s as [|a s IH]; [done|]. simpl. intros [Ha Hs]%andb_prop.
  by rewrite (proj1 (digit_plain a Ha)), IH.
Qed.

Lemma remove_dots_digits (s : string) : all_digits s = true → remove_dots s = s.
Proof.
  induction s as [|a s IH]; [done|]. simpl. intros [Ha Hs]%andb_prop.
  destruct (digit_plain a Ha) as (_ & _ & -> & _). by rewrite IH.
Qed.

Lemma all_digits_app (s t : string) : all_digits (s +:+ t) = all_digits s && all_digits t.
Proof.
  induction s as [|a s IH]; [done|].
  rewrite ExtractFacts.string_app_cons. simpl. by rewrite IH, andb_assoc.
Qed.

Lemma all_digits_rev (s : string) : all_digits (String.rev s) = all_digits s.
Proof.
  induction s as [|a s IH]; [done|].
  rewrite ExtractFacts.rev_cons, all_digits_app, IH. simpl. by rewrite andb_true_r, andb_comm.
Qed.

(** *** Decimal numerals *)

Lemma pretty_go_digits (x : N) : ∀ s, all_digits (pretty_N_go x s) = all_digits s.
Proof.
  induction (N.lt_wf_0 x) as [x _ IH]; intros s.
  assert (x = 0 ∨ 0 < x)%N as [->|Hx] by lia; [by rewrite pretty_N_go_0|].
  rewrite pretty_N_go_step by done. rewrite IH by (by apply N.div_lt).
  assert (x `mod` 10 < 10)%N as Hm by (apply N.mod_lt; lia).
  simpl. by rewrite (proj1 (digit_value _ Hm)).
Qed.

Lemma pretty_go_length (x : N) : ∀ s, (String.length s ≤ String.length (pretty_N_go x s))%nat.
Proof.
  induction (N.lt_wf_0 x) as [x _ IH]; intros s.
  assert (x = 0 ∨ 0 < x)%N as [->|Hx] by lia; [by rewrite pretty_N_go_0|].
  rewrite pretty_N_go_step by done.
  etrans; [|apply IH; by apply N.div_lt]. simpl. lia.
Qed.

Lemma pretty_go_int (x : N) : ∀ s, int_digits 0 (pretty_N_go x s) = int_digits x s.
Proof.
  induction (N.lt_wf_0 x) as [x _ IH]; intros s.
  assert (x = 0 ∨ 0 < x)%N as [->|Hx] by lia; [by rewrite pretty_N_go_0|].
  rewrite pretty_N_go_step by done. rewrite IH by (by apply N.div_lt).
  assert (x `mod` 10 < 10)%N as Hm by (apply N.mod_lt; lia).
  simpl. rewrite (proj2 (digit_value _ Hm)).
  f_equal. rewrite N.mul_comm. symmetry. by apply N.div_mod.
Qed.

Lemma pretty_isdigit (i : nat) : isdigit (pretty i) = true.
Proof.
  unfold pretty, pretty_nat, pretty, pretty_N. case_decide; [done|].
  assert (all_digits (pretty_N_go (N.of_nat i) "") = true) as Hd by by rewrite pretty_go_digits.
  destruct (pretty_N_go (N.of_nat i) "") as [|a s] eqn:Hs; [|done].
  assert (0 < N.of_nat i)%N as Hpos by lia.
  rewrite pretty_N_go_step in Hs by done.
  pose proof (pretty_go_length (N.of_nat i `div` 10)
                (String (pretty_N_char (N.of_nat i `mod` 10)) "")) as Hlen.
  rewrite Hs in Hlen. simpl in Hlen. lia.
Qed.

Lemma pretty_all_digits (i : nat) : all_digits (pretty i) = true.
Proof. pose proof (pretty_isdigit i) as H. by destruct (pretty i). Qed.

(** [int(str(i))] is [i]. *)
Lemma int_pretty (i : nat) : int (pretty i) = i.
Proof.
  unfold int, pretty, pretty_nat, pretty, pretty_N. case_decide as Hz.
  - simpl. lia.
  - rewrite pretty_go_int. simpl. lia.
Qed.

(** *** Keys *)

Lemma at_key_cons (i : nat) : at_key i = String "@" (pretty i).
Proof. done. Qed.

Lemma at_key_inj (i j : nat) : at_key i = at_key j → i = j.
Proof. rewrite !at_key_cons. intros [= H]. by apply (inj pretty) in H. Qed.

Lemma pretty_ne_at_key (i j : nat) : pretty j ≠ at_key i.
Proof.
  intros H. pose proof (pretty_all_digits j) as Hd. by rewrite H in Hd.
Qed.

Lemma upper_ne_at_key (name : string) (i : nat) :
  startswith_at name = false → upper name ≠ at_key i.
Proof.
  intros Hat H. rewrite <- upper_startswith_at, H in Hat. done.
Qed.

Lemma upper_ne_pretty (name : string) (i : nat) :
  isdigit name = false → upper name ≠ pretty i.
Proof.
  intros Hd H. by rewrite <- upper_isdigit, H, pretty_isdigit in Hd.
Qed.

Lemma malformed_ne_at_key (name : string) (i : nat) :
  malformed name = false → upper name ≠ at_key i.
Proof.
  intros Hm H. destruct name as [|a rest]; [done|].
  rewrite at_key_cons in H. simpl in H. injection H as Ha Hrest.
  assert (all_digits rest = true) as Hd.
  { by rewrite <- upper_all_digits, Hrest, pretty_all_digits. }
  assert (isdigit rest = true) as Hi.
  { rewrite <- upper_isdigit, Hrest. apply pretty_isdigit. }
  unfold malformed in Hm. apply orb_false_elim in Hm as [Hm _].
  cbn [startswith_at tail] in Hm.
  rewrite <- upper_ascii_at, Ha, (remove_dots_digits rest Hd), Hi in Hm. done.
Qed.

Lemma upper_at_key (i : nat) : upper (at_key i) = at_key i.
Proof. rewrite at_key_cons. simpl. by rewrite (upper_digits _ (pretty_all_digits i)). Qed.

Lemma upper_pretty (i : nat) : upper (pretty i) = pretty i.
Proof. apply upper_digits, pretty_all_digits. Qed.

Lemma lstrip_plain (a : ascii) (s : string) :
  is_space a = false → lstrip (String a s) = String a s.
Proof. intros Ha. simpl. by rewrite Ha. Qed.

Lemma strip_at_key (i : nat) : strip (at_key i) = at_key i.
Proof.
  rewrite at_key_cons. unfold strip. rewrite lstrip_plain by done.
  rewrite ExtractFacts.rev_cons.
  assert (lstrip (String.rev (pretty i) +:+ "@") = String.rev (pretty i) +:+ "@") as ->.
  { pose proof (pretty_all_digits i) as Hd. rewrite <- all_digits_rev in Hd.
    destruct (String.rev (pretty i)) as [|a s]; [done|].
    rewrite ExtractFacts.string_app_cons. apply lstrip_plain.
    simpl in Hd. apply andb_prop in Hd as [Ha _]. by destruct (digit_plain a Ha) as (_ & -> & _). }
  rewrite <- ExtractFacts.rev_cons. apply ExtractFacts.rev_involutive.
Qed.

Lemma at_key_truthy (i : nat) : Py.truthy_str (at_key i) = true.
Proof. done. Qed.

(** *** The refresh *)

Lemma perp_loop_named (names : list string) :
  ∀ m i, (perp_loop m i (Some <$> names)).2 = true.
Proof. induction names as [|n names IH]; intros m i; [done|]. apply IH. Qed.

Lemma perp_body_other (m : CoinMapper) (i : nat) (name key : string) :
  key ≠ upper name → key ≠ at_key i → key ≠ pretty i →
  all_tokens (perp_body m i name) !! key = all_tokens m !! key.
Proof.
  intros H1 H2 H3. cbn [perp_body all_tokens]. by rewrite !lookup_insert_ne.
Qed.

Lemma perp_loop_keeps_at (names : list string) (k : nat) :
  Forall (λ n, startswith_at n = false) names →
  ∀ m i, (k < i)%nat →
         all_tokens (perp_loop m i (Some <$> names)).1 !! at_key k = all_tokens m !! at_key k.
Proof.
  induction 1 as [|n names Hn _ IH]; intros m i Hk; [done|].
  cbn [fmap list_fmap perp_loop]. rewrite IH by lia. apply perp_body_other.
  - intros H. by apply (upper_ne_at_key n k Hn).
  - intros H%at_key_inj. lia.
  - intros H. by apply (pretty_ne_at_key k i).
Qed.

Lemma perp_loop_at_key (names : list string) :
  Forall (λ n, startswith_at n = false) names →
  ∀ m i k name, names !! k = Some name →
    all_tokens (perp_loop m i (Some <$> names)).1 !! at_key (i + k)
    = Some (perp_info (i + k) name).
Proof.
  induction 1 as [|n names Hn Hnames IH]; intros m i k name Hk; [done|].
  cbn [fmap list_fmap perp_loop]. destruct k as [|k].
  - injection Hk as ->. rewrite Nat.add_0_r, (perp_loop_keeps_at names i Hnames) by lia.
    cbn [perp_body all_tokens].
    rewrite lookup_insert_ne by (intros H; by apply (pretty_ne_at_key i i)).
    by rewrite lookup_insert_eq.
  - replace (i + S k)%nat with (S i + k)%nat by lia. by apply IH.
Qed.

Lemma spot_body_keeps_at (m : CoinMapper) (j k : nat) (name : string) :
  (k < spot_index_offset)%nat →
  all_tokens (spot_body m j name) !! at_key k = all_tokens m !! at_key k.
Proof.
  intros Hk. unfold spot_body.
  destruct (negb (Py.truthy_str name) || (String.length (strip name) =? 0)%nat); [done|].
  destruct (malformed name) eqn:Hm; [done|]. cbn [all_tokens].
  rewrite lookup_insert_ne by (intros H%at_key_inj; lia).
  pose proof (malformed_ne_at_key name k Hm) as Hne.
  destruct (all_tokens m !! upper name) as [old|]; [case_bool_decide|];
    by rewrite ?lookup_insert_ne.
Qed.

Lemma spot_loop_keeps_at (spots : list SpotName) (k : nat) :
  (k < spot_index_offset)%nat →
  ∀ m j, all_tokens (spot_loop m j spots).1 !! at_key k = all_tokens m !! at_key k.
Proof.
  intros Hk. induction spots as [|[| |name] spots IH]; intros m j; try done.
  - apply IH.
  - cbn [spot_loop]. rewrite IH. by apply spot_body_keeps_at.
Qed.

Lemma fetch_at_key (m : CoinMapper) (names : list string) (spot_meta : Answer SpotName)
    (k : nat) (name : string) :
  Forall (λ n, startswith_at n = false) names →
  names !! k = Some name → (k < spot_index_offset)%nat →
  all_tokens (fetch_and_cache_mapping m (Returns (Some <$> names)) spot_meta) !! at_key k
  = Some (perp_info k name).
Proof.
  intros Hnames Hk Hlt. unfold fetch_and_cache_mapping.
  pose proof (perp_loop_named names m 0%nat) as Hok.
  pose proof (perp_loop_at_key names Hnames m 0%nat k name Hk) as Hat.
  destruct (perp_loop m 0 (Some <$> names)) as [m1 ok]. simpl in Hok, Hat. subst ok.
  destruct spot_meta as [|spots]; [done|]. by rewrite spot_loop_keeps_at.
Qed.

(** [fetch_and_cache_mapping] and [get_coin_name]: after a refresh in
    which the exchange lists the perpetual markets, none of them under a
    name that begins with ["@"], the key ["@i"] of the market with index [i]
    below 10000 is resolved to the name of that market, whatever the mapper
    held before and whatever the spot markets are, and the look-up changes
    nothing.  In particular ["@i"] never names the spot market with index
    [i] as long as there is a perpetual market with that index. *)
Theorem perp_key_lookup (m : CoinMapper) (names : list string) (spot_meta : Answer SpotName)
    (i : nat) (name : string) (perp_meta' : Answer (option string))
    (spot_meta' : Answer SpotName) :
  Forall (λ n, startswith_at n = false) names →
  names !! i = Some name → (i < spot_index_offset)%nat →
  let m' := fetch_and_cache_mapping m (Returns (Some <$> names)) spot_meta in
  get_coin_name m' (at_key i) perp_meta' spot_meta' = (name, m')
  ∧ get_token_info m' (at_key i) = Some (perp_info i name).
Proof.
  intros Hnames Hi Hlt m'.
  pose proof (fetch_at_key m names spot_meta i name Hnames Hi Hlt) as Hat. fold m' in Hat.
  unfold get_coin_name, get_token_info, resolve.
  rewrite at_key_truthy, strip_at_key. cbn [negb]. by rewrite Hat.
Qed.

Lemma perp_key_lookup_witness :
  let names := ["BTC"; "ETH"; "kPEPE"] in
  let spots := Returns [Str "PURR/USDC"; Str "@1"; Str "HFUN"] in
  let m' := fetch_and_cache_mapping empty (Returns (Some <$> names)) spots in
  get_coin_name m' "@2" Raises Raises = ("kPEPE", m').
Proof.
  intros names spots m'.
  apply (perp_key_lookup empty names spots 2 "kPEPE" Raises Raises).
  - by repeat constructor.
  - reflexivity.
  - unfold spot_index_offset. lia.
Defined.

(** *** Exceptions during a refresh *)

Lemma perp_loop_app (names : list string) (rest : list (option string)) :
  ∀ m i, perp_loop m i ((Some <$> names) ++ rest)
         = perp_loop (perp_loop m i (Some <$> names)).1 (i + length names) rest.
Proof.
  induction names as [|n names IH]; intros m i.
  - simpl. by rewrite Nat.add_0_r.
  - cbn [fmap list_fmap app perp_loop length]. rewrite IH.
    by replace (i + S (length names))%nat with (S i + length names)%nat by lia.
Qed.

Lemma spot_loop_app (spots rest : list SpotName) :
  NoName ∉ spots →
  ∀ m i, spot_loop m i (spots ++ rest)
         = spot_loop (spot_loop m i spots).1 (i + length spots) rest.
Proof.
  induction spots as [|x spots IH]; intros Hno m i.
  - simpl. by rewrite Nat.add_0_r.
  - apply not_elem_of_cons in Hno as [Hx Hno].
    replace (i + length (x :: spots))%nat with (S i + length spots)%nat by (simpl; lia).
    destruct x as [| |name]; [done|..]; cbn [app spot_loop]; by rewrite IH.
Qed.

Lemma fetch_flag (m : CoinMapper) (perp_meta : Answer (option string))
    (spot_meta : Answer SpotName) :
  _refresh_attempted (fetch_and_cache_mapping m perp_meta spot_meta) = _refresh_attempted m.
Proof.
  unfold fetch_and_cache_mapping. destruct perp_meta as [|perps]; [done|].
  assert (∀ l m0 i, _refresh_attempted (perp_loop m0 i l).1 = _refresh_attempted m0) as Hp.
  { induction l as [|[n|] l IH]; intros m0 i; [done| |done].
    cbn [perp_loop]. by rewrite IH. }
  assert (∀ l m0 i, _refresh_attempted (spot_loop m0 i l).1 = _refresh_attempted m0) as Hs.
  { induction l as [|[| |n] l IH]; intros m0 i; try done; cbn [spot_loop]; rewrite IH; [done|].
    unfold spot_body. by repeat case_match. }
  specialize (Hp perps m 0%nat). destruct (perp_loop m 0 perps) as [m1 [|]]; [|done].
  destruct spot_meta as [|sp]; [done|]. by rewrite Hs.
Qed.

(** [fetch_and_cache_mapping] when something raises.  If the request for
    the perpetual markets raises, the mapper stays as it is.  If a perpetual
    market has no name, the markets before it are stored, and the refresh
    ends there: the markets after it and the spot markets are not stored.
    If the request for the spot markets raises, or a spot market has no
    name, the perpetual markets and the spot markets before it are
    stored.  What a refresh stored before the exception stays; the flag
    [_refresh_attempted] is not changed by a refresh. *)
Theorem refresh_keeps_partial_update (m : CoinMapper) (names : list string)
    (rest : list (option string)) (spot_meta : Answer SpotName)
    (spots spots' : list SpotName) :
  fetch_and_cache_mapping m Raises spot_meta = m
  ∧ fetch_and_cache_mapping m (Returns ((Some <$> names) ++ None :: rest)) spot_meta
    = fetch_and_cache_mapping m (Returns (Some <$> names)) Raises
  ∧ ((NoName ∉ spots) →
     fetch_and_cache_mapping m (Returns (Some <$> names)) (Returns (spots ++ NoName :: spots'))
     = fetch_and_cache_mapping m (Returns (Some <$> names)) (Returns spots))
  ∧ (∀ perp_meta, _refresh_attempted (fetch_and_cache_mapping m perp_meta spot_meta)
                  = _refresh_attempted m).
Proof.
  split; [done|]. split; [|split].
  - unfold fetch_and_cache_mapping. rewrite perp_loop_app.
    pose proof (perp_loop_named names m 0%nat) as Hok.
    destruct (perp_loop m 0 (Some <$> names)) as [m1 ok]. simpl in Hok. by subst ok.
  - intros Hno. unfold fetch_and_cache_mapping.
    destruct (perp_loop m 0 (Some <$> names)) as [m1 [|]]; [|done].
    by rewrite (spot_loop_app spots (NoName :: spots') Hno).
  - intros perp_meta. apply fetch_flag.
Qed.

(** *** The one refresh of a mapper *)

Lemma flag_set_no_change (m : CoinMapper) (token : string)
    (perp_meta : Answer (option string)) (spot_meta : Answer SpotName) :
  _refresh_attempted m = true →
  get_coin_name m token perp_meta spot_meta = get_coin_name m token Raises Raises
  ∧ (get_coin_name m token perp_meta spot_meta).2 = m.
Proof.
  intros Hflag. unfold get_coin_name. rewrite Hflag.
  destruct (negb (Py.truthy_str token)); [done|].
  by destruct (resolve m (strip token)).
Qed.

Lemma flag_set_run (calls : list (string * Answer (option string) * Answer SpotName)) :
  ∀ m log, _refresh_attempted m = true →
    foldl lookup_step (m, log) calls
    = (m, log ++ ((λ call, (get_coin_name m call.1.1 Raises Raises).1) <$> calls)).
Proof.
  induction calls as [|[[token pm] sm] calls IH]; intros m log Hflag.
  { simpl. by rewrite app_nil_r. }
  cbn [foldl]. unfold lookup_step at 2. cbn [fst snd].
  destruct (flag_set_no_change m token pm sm Hflag) as [Heq Hm].
  rewrite Hm, IH by done. rewrite Heq, <- app_assoc. done.
Qed.

(** [get_coin_name] refreshes at most once in the life of a mapper.  A
    look-up that finds nothing, for an identifier that is not of the form
    ["@"] and digits, sets [_refresh_attempted] whatever the refresh gives;
    from then on no look-up changes the mapper, and every look-up returns
    what it would return if the exchange could not be reached: a market
    that the exchange lists later is never learnt. *)
Theorem refresh_at_most_once (m : CoinMapper) (token : string)
    (perp_meta : Answer (option string)) (spot_meta : Answer SpotName)
    (calls : list (string * Answer (option string) * Answer SpotName)) :
  Py.truthy_str token = true → resolve m (strip token) = None →
  let m1 := (get_coin_name m token perp_meta spot_meta).2 in
  _refresh_attempted m1 = true
  ∧ (lookup_run m1 calls).1 = m1
  ∧ (lookup_run m1 calls).2 = (λ call, (get_coin_name m1 call.1.1 Raises Raises).1) <$> calls.
Proof.
  intros Ht Hmiss m1.
  assert (_refresh_attempted m1 = true) as Hflag.
  { subst m1. unfold get_coin_name. rewrite Ht, Hmiss. cbn [negb].
    destruct (_refresh_attempted m) eqn:Hf; [done|]. cbn [snd].
    by rewrite fetch_flag. }
  split; [done|]. unfold lookup_run. by rewrite (flag_set_run calls m1 [] Hflag).
Qed.

Lemma refresh_at_most_once_witness :
  let m1 := (get_coin_name empty "DOGE" Raises Raises).2 in
  _refresh_attempted m1 = true
  ∧ (lookup_run m1 [("DOGE", Returns [Some "DOGE"], Returns [])]).2 = ["TOKEN_DOGE"].
Proof.
  intros m1.
  destruct (refresh_at_most_once empty "DOGE" Raises Raises
              [("DOGE", Returns [Some "DOGE"], Returns [])]) as (Hflag & _ & Hnames).
  - reflexivity.
  - reflexivity.
  - split; [exact Hflag|]. etrans; [exact Hnames|]. vm_compute. reflexivity.
Defined.

(** *** Look-up by name *)

Lemma upper_lstrip (s : string) : upper (lstrip s) = lstrip (upper s).
Proof.
  induction s as [|a s IH]; [done|]. simpl. rewrite upper_ascii_space.
  by destruct (is_space a).
Qed.

Lemma upper_app (s t : string) : upper (s +:+ t) = upper s +:+ upper t.
Proof.
  induction s as [|a s IH]; [done|]. rewrite ExtractFacts.string_app_cons. simpl.
  by rewrite IH, ExtractFacts.string_app_cons.
Qed.

Lemma upper_rev (s : string) : upper (String.rev s) = String.rev (upper s).
Proof.
  induction s as [|a s IH]; [done|]. simpl upper at 2.
  by rewrite !ExtractFacts.rev_cons, upper_app, IH.
Qed.

Lemma upper_strip (s : string) : upper (strip s) = strip (upper s).
Proof. unfold strip. by rewrite upper_rev, upper_lstrip, upper_rev, upper_lstrip. Qed.

Lemma symbol_upper (name : string) :
  symbol name → startswith_at (upper name) = false ∧ isdigit (upper name) = false.
Proof. intros (_ & Hat & Hd). by rewrite upper_startswith_at, upper_isdigit. Qed.

Lemma symbol_key (name : string) (i : nat) :
  symbol name → upper name ≠ at_key i ∧ upper name ≠ pretty i.
Proof.
  intros (_ & Hat & Hd). split; [by apply upper_ne_at_key|by apply upper_ne_pretty].
Qed.

Lemma perp_loop_keeps_name (names : list string) (key : string) :
  key ∉ upper <$> names → (∀ i, key ≠ at_key i ∧ key ≠ pretty i) →
  ∀ m i, all_tokens (perp_loop m i (Some <$> names)).1 !! key = all_tokens m !! key.
Proof.
  intros Hnot Hkey. induction names as [|n names IH]; intros m i; [done|].
  cbn [fmap list_fmap] in Hnot. apply not_elem_of_cons in Hnot as [Hn Hnot].
  cbn [fmap list_fmap perp_loop]. rewrite IH by done.
  apply perp_body_other; [done|apply Hkey..].
Qed.

Lemma perp_loop_name (names : list string) :
  Forall symbol names → NoDup (upper <$> names) →
  ∀ m i k name, names !! k = Some name →
    all_tokens (perp_loop m i (Some <$> names)).1 !! upper name
    = Some (perp_info (i + k) name).
Proof.
  induction 1 as [|n names Hn Hnames IH]; intros Hnd m i k name Hk; [done|].
  cbn [fmap list_fmap] in Hnd. apply NoDup_cons in Hnd as [Hnot Hnd].
  cbn [fmap list_fmap perp_loop]. destruct k as [|k].
  - injection Hk as ->. rewrite Nat.add_0_r.
    rewrite perp_loop_keeps_name by (done || intros; by apply symbol_key).
    destruct (symbol_key name i Hn) as [H1 H2].
    cbn [perp_body all_tokens]. rewrite !lookup_insert_ne by done. by rewrite lookup_insert_eq.
  - replace (i + S k)%nat with (S i + k)%nat by lia. by apply IH.
Qed.

Lemma spot_body_keeps_perp (m : CoinMapper) (j : nat) (name key : string) (info : TokenInfo) :
  startswith_at key = false → all_tokens m !! key = Some info → info_type info = "perp" →
  all_tokens (spot_body m j name) !! key = Some info.
Proof.
  intros Hat Hkey Hperp. unfold spot_body.
  destruct (negb (Py.truthy_str name) || (String.length (strip name) =? 0)%nat); [done|].
  destruct (malformed name); [done|]. cbn [all_tokens].
  rewrite lookup_insert_ne by (intros <-; done).
  destruct (decide (upper name = key)) as [->|Hne].
  - rewrite Hkey. by rewrite bool_decide_eq_false_2 by (by rewrite Hperp; intros []).
  - destruct (all_tokens m !! upper name) as [old|]; [case_bool_decide|];
      by rewrite ?lookup_insert_ne.
Qed.

Lemma spot_loop_keeps_perp (spots : list SpotName) (key : string) (info : TokenInfo) :
  startswith_at key = false → info_type info = "perp" →
  ∀ m j, all_tokens m !! key = Some info →
         all_tokens (spot_loop m j spots).1 !! key = Some info.
Proof.
  intros Hat Hperp. induction spots as [|[| |name] spots IH]; intros m j Hkey; try done.
  - by apply IH.
  - cbn [spot_loop]. apply IH. by apply spot_body_keeps_perp.
Qed.

(** Every key of [all_tokens] is in upper case. *)
Lemma perp_body_upper (m : CoinMapper) (i : nat) (name : string) :
  (∀ key, is_Some (all_tokens m !! key) → upper key = key) →
  ∀ key, is_Some (all_tokens (perp_body m i name) !! key) → upper key = key.
Proof.
  intros Hm key. cbn [perp_body all_tokens].
  destruct (decide (key = pretty i)) as [->|H1]; [intros _; apply upper_pretty|].
  destruct (decide (key = at_key i)) as [->|H2]; [intros _; apply upper_at_key|].
  destruct (decide (key = upper name)) as [->|H3]; [intros _; apply upper_idemp|].
  rewrite !lookup_insert_ne by done. apply Hm.
Qed.

Lemma spot_body_upper (m : CoinMapper) (j : nat) (name : string) :
  (∀ key, is_Some (all_tokens m !! key) → upper key = key) →
  ∀ key, is_Some (all_tokens (spot_body m j name) !! key) → upper key = key.
Proof.
  intros Hm key. unfold spot_body.
  destruct (negb (Py.truthy_str name) || (String.length (strip name) =? 0)%nat); [apply Hm|].
  destruct (malformed name); [apply Hm|]. cbn [all_tokens].
  destruct (decide (key = at_key (spot_index_offset + j))) as [->|H1];
    [intros _; apply upper_at_key|].
  rewrite lookup_insert_ne by done.
  destruct (decide (key = upper name)) as [->|H3]; [intros _; apply upper_idemp|].
  destruct (all_tokens m !! upper name) as [old|]; [case_bool_decide|];
    rewrite ?lookup_insert_ne by done; apply Hm.
Qed.

Lemma fetch_upper (perp_meta : Answer (option string)) (spot_meta : Answer SpotName)
    (key : string) :
  is_Some (all_tokens (fetch_and_cache_mapping empty perp_meta spot_meta) !! key) →
  upper key = key.
Proof.
  assert (∀ l m i, (∀ key, is_Some (all_tokens m !! key) → upper key = key) →
                   ∀ key, is_Some (all_tokens (perp_loop m i l).1 !! key) → upper key = key)
    as Hp.
  { induction l as [|[n|] l IH]; intros m i Hm; [done| |done].
    cbn [perp_loop]. by apply IH, perp_body_upper. }
  assert (∀ l m i, (∀ key, is_Some (all_tokens m !! key) → upper key = key) →
                   ∀ key, is_Some (all_tokens (spot_loop m i l).1 !! key) → upper key = key)
    as Hs.
  { induction l as [|[| |n] l IH]; intros m i Hm; try done; cbn [spot_loop].
    - by apply IH.
    - by apply IH, spot_body_upper. }
  assert (∀ key, is_Some (all_tokens empty !! key) → upper key = key) as He.
  { intros k [x Hx]. simpl in Hx. by rewrite lookup_empty in Hx. }
  revert key. unfold fetch_and_cache_mapping. destruct perp_meta as [|perps]; [done|].
  specialize (Hp perps empty 0%nat He).
  destruct (perp_loop empty 0 perps) as [m1 [|]]; [|done].
  destruct spot_meta as [|spots]; [done|]. by apply Hs.
Qed.

Lemma fetch_name (m : CoinMapper) (names : list string) (spot_meta : Answer SpotName)
    (k : nat) (name : string) :
  Forall symbol names → NoDup (upper <$> names) → names !! k = Some name →
  all_tokens (fetch_and_cache_mapping m (Returns (Some <$> names)) spot_meta) !! upper name
  = Some (perp_info k name).
Proof.
  intros Hnames Hnd Hk. unfold fetch_and_cache_mapping.
  pose proof (perp_loop_named names m 0%nat) as Hok.
  pose proof (perp_loop_name names Hnames Hnd m 0%nat k name Hk) as Hat.
  destruct (perp_loop m 0 (Some <$> names)) as [m1 ok]. simpl in Hok, Hat. subst ok.
  destruct spot_meta as [|spots]; [done|].
  apply spot_loop_keeps_perp; [|done..].
  apply symbol_upper. by apply (Forall_lookup_1 _ _ _ _ Hnames Hk).
Qed.

(** [get_coin_name] and [get_token_key_by_name] by name, on a mapper that
    started empty and refreshed once.  When the perpetual markets have
    names that are not empty, do not begin with ["@"], are no numbers and
    differ in more than case, every spelling of the name of a perpetual
    market, in whatever case and with white space around it, is resolved to
    the name as the exchange spells it and to the key ["@i"] of its index,
    whatever the spot markets are: a spot market of the same name never
    takes the place of the perpetual one. *)
Theorem name_lookup (names : list string) (spot_meta : Answer SpotName) (i : nat)
    (name token : string) (perp_meta' : Answer (option string))
    (spot_meta' : Answer SpotName) :
  Forall symbol names → NoDup (upper <$> names) → names !! i = Some name →
  upper (strip token) = upper name →
  let m' := fetch_and_cache_mapping empty (Returns (Some <$> names)) spot_meta in
  get_coin_name m' token perp_meta' spot_meta' = (name, m')
  ∧ get_token_key_by_name m' token = Some (at_key i).
Proof.
  intros Hnames Hnd Hi Htoken m'.
  pose proof (fetch_name empty names spot_meta i name Hnames Hnd Hi) as Hname. fold m' in Hname.
  assert (Py.truthy_str token = true) as Ht.
  { destruct token as [|a token]; [|done]. 
    destruct (Forall_lookup_1 _ _ _ _ Hnames Hi) as (Hne & _). by destruct name. }
  assert (∀ key, is_Some (all_tokens m' !! key) → upper key = key) as Hupper
    by (intros key; apply fetch_upper).
  clearbody m'.
  assert (resolve m' (strip token) = Some name) as Hres.
  { unfold resolve. destruct (all_tokens m' !! strip token) as [info|] eqn:Hdirect.
    - assert (upper (strip token) = strip token) as Hup by (apply Hupper; by rewrite Hdirect).
      rewrite <- Hup, Htoken, Hname in Hdirect. by injection Hdirect as <-.
    - by rewrite Htoken, Hname. }
  unfold get_coin_name, get_token_key_by_name. rewrite Ht. cbn [negb]. cbv zeta.
  rewrite Hres. split; [done|]. by rewrite <- upper_strip, Htoken, Hname.
Qed.

Lemma name_lookup_witness :
  let names := ["BTC"; "ETH"; "kPEPE"] in
  let spots := Returns [Str "PURR/USDC"; Str "kpepe"; Str "HFUN"] in
  let m' := fetch_and_cache_mapping empty (Returns (Some <$> names)) spots in
  get_coin_name m' " kpepe " Raises Raises = ("kPEPE", m')
  ∧ get_token_key_by_name m' " kpepe " = Some "@2".
Proof.
  intros names spots m'.
  apply (name_lookup names spots 2 "kPEPE" " kpepe " Raises Raises).
  - by repeat constructor.
  - apply (bool_decide_unpack _). vm_compute. exact I.
  - reflexivity.
  - reflexivity.
Defined.

(** *** Look-up of a spot market by its index *)

Lemma keys_below_mono (m : CoinMapper) (n n' : nat) :
  (n ≤ n')%nat → keys_below m n → keys_below m n'.
Proof.
  intros Hle (H1 & H2 & H3 & H4). split; [|split; [|split]]; intros j Hj.
  - destruct (H1 j Hj); lia.
  - specialize (H2 j Hj). lia.
  - by apply H3.
  - destruct (H4 j Hj); lia.
Qed.

Lemma perp_body_below (m : CoinMapper) (i : nat) (name : string) :
  startswith_at name = false → keys_below m i → keys_below (perp_body m i name) (S i).
Proof.
  intros Hat (H1 & H2 & H3 & H4).
  split; [|split; [|split]]; intros j;
    cbn [perp_body all_tokens perp_map spot_map index_to_name].
  - destruct (decide (j = i)) as [->|Hne]; [intros _; lia|].
    rewrite lookup_insert_ne by (intros H; by apply (pretty_ne_at_key j i)).
    rewrite lookup_insert_ne by (intros H%at_key_inj; done).
    rewrite lookup_insert_ne by (intros H; by apply (upper_ne_at_key name j Hat)).
    intros Hj. destruct (H1 j Hj); lia.
  - destruct (decide (j = i)) as [->|Hne]; [intros _; lia|].
    rewrite lookup_insert_ne by (intros H%at_key_inj; done).
    intros Hj. specialize (H2 j Hj). lia.
  - apply H3.
  - destruct (decide (j = i)) as [->|Hne]; [intros _; lia|].
    rewrite lookup_insert_ne by (intros H%at_key_inj; done).
    intros Hj. destruct (H4 j Hj); lia.
Qed.

Lemma perp_loop_below (names : list string) :
  Forall (λ n, startswith_at n = false) names →
  ∀ m i, keys_below m i → keys_below (perp_loop m i (Some <$> names)).1 (i + length names).
Proof.
  induction 1 as [|n names Hn _ IH]; intros m i Hm.
  - simpl. by rewrite Nat.add_0_r.
  - cbn [fmap list_fmap perp_loop length].
    replace (i + S (length names))%nat with (S i + length names)%nat by lia.
    by apply IH, perp_body_below.
Qed.

Lemma spot_body_below (m : CoinMapper) (j n : nat) (name : string) :
  keys_below m n → keys_below (spot_body m j name) n.
Proof.
  intros (H1 & H2 & H3 & H4). unfold spot_body.
  destruct (negb (Py.truthy_str name) || (String.length (strip name) =? 0)%nat); [done|].
  destruct (malformed name) eqn:Hm; [done|].
  split; [|split; [|split]]; intros k; cbn [all_tokens perp_map spot_map index_to_name].
  - destruct (decide (k = spot_index_offset + j)%nat) as [->|Hne]; [intros _; lia|].
    rewrite lookup_insert_ne by (intros H%at_key_inj; done).
    pose proof (malformed_ne_at_key name k Hm) as Hk.
    destruct (all_tokens m !! upper name) as [old|]; [case_bool_decide|];
      rewrite ?lookup_insert_ne by done; apply H1.
  - apply H2.
  - destruct (decide (k = spot_index_offset + j)%nat) as [->|Hne]; [intros _; lia|].
    rewrite lookup_insert_ne by (intros H%at_key_inj; done). apply H3.
  - destruct (decide (k = spot_index_offset + j)%nat) as [->|Hne]; [intros _; lia|].
    rewrite lookup_insert_ne by (intros H%at_key_inj; done). apply H4.
Qed.

Lemma spot_loop_below (spots : list SpotName) (n : nat) :
  ∀ m j, keys_below m n → keys_below (spot_loop m j spots).1 n.
Proof.
  induction spots as [|[| |name] spots IH]; intros m j Hm; try done; cbn [spot_loop].
  - by apply IH.
  - by apply IH, spot_body_below.
Qed.

Lemma spot_body_other (m : CoinMapper) (j k : nat) (name : string) :
  k ≠ j →
  spot_map (spot_body m j name) !! at_key (spot_index_offset + k)
  = spot_map m !! at_key (spot_index_offset + k).
Proof.
  intros Hne. unfold spot_body.
  destruct (negb (Py.truthy_str name) || (String.length (strip name) =? 0)%nat); [done|].
  destruct (malformed name); [done|]. cbn [spot_map].
  by rewrite lookup_insert_ne by (intros H%at_key_inj; lia).
Qed.

Lemma spot_loop_keeps_entry (spots : list SpotName) (k : nat) :
  ∀ m j, (k < j)%nat →
         spot_map (spot_loop m j spots).1 !! at_key (spot_index_offset + k)
         = spot_map m !! at_key (spot_index_offset + k).
Proof.
  induction spots as [|[| |name] spots IH]; intros m j Hk; try done; cbn [spot_loop].
  - apply IH. lia.
  - rewrite IH by lia. apply spot_body_other. lia.
Qed.

Lemma spot_loop_entry (spots : list SpotName) :
  NoName ∉ spots →
  ∀ m j k name, spots !! k = Some (Str name) → strip name ≠ "" → malformed name = false →
    spot_map (spot_loop m j spots).1 !! at_key (spot_index_offset + (j + k))
    = Some {| entry_name := name; entry_index := j + k |}.
Proof.
  induction spots as [|x spots IH]; intros Hno m j k name Hk Hstrip Hmal; [done|].
  apply not_elem_of_cons in Hno as [Hx Hno]. destruct k as [|k].
  - injection Hk as ->. rewrite Nat.add_0_r. cbn [spot_loop].
    rewrite spot_loop_keeps_entry by lia. unfold spot_body.
    assert (Py.truthy_str name = true) as -> by (by destruct name).
    assert ((String.length (strip name) =? 0)%nat = false) as ->
      by (by destruct (strip name)).
    rewrite Hmal. cbn [negb orb spot_map]. by rewrite lookup_insert_eq.
  - replace (j + S k)%nat with (S j + k)%nat by lia.
    destruct x as [| |n]; [done|..]; cbn [spot_loop]; by apply IH.
Qed.

(** [get_coin_name] for the key of a spot market.  On a mapper that
    started empty and refreshed once, with [n] perpetual markets of which no
    name begins with ["@"], the key ["@k"] with [k] from [n] up to 9999 is
    resolved to the name of the spot market with index [k], when that market
    has a name that the refresh stores.  For [k] below [n] the same key is
    resolved to the perpetual market [k]: the spot markets whose index is
    below the number of perpetual markets cannot be reached by their
    index. *)
Theorem spot_key_lookup (names : list string) (spots : list SpotName) (k : nat)
    (name : string) (perp_meta' : Answer (option string)) (spot_meta' : Answer SpotName) :
  Forall (λ n, startswith_at n = false) names → NoName ∉ spots →
  spots !! k = Some (Str name) → strip name ≠ "" → malformed name = false →
  (length names ≤ k < spot_index_offset)%nat →
  let m' := fetch_and_cache_mapping empty (Returns (Some <$> names)) (Returns spots) in
  get_coin_name m' (at_key k) perp_meta' spot_meta' = (name, m').
Proof.
  intros Hnames Hno Hk Hstrip Hmal [Hge Hlt] m'.
  assert (keys_below m' (length names)
          ∧ spot_map m' !! at_key (spot_index_offset + k)
            = Some {| entry_name := name; entry_index := k |}) as [Hbelow Hentry].
  { subst m'. unfold fetch_and_cache_mapping.
    pose proof (perp_loop_named names empty 0%nat) as Hok.
    assert (keys_below empty 0) as He.
    { split; [|split; [|split]]; intros j [x Hx]; simpl in Hx; by rewrite lookup_empty in Hx. }
    pose proof (perp_loop_below names Hnames empty 0%nat He) as Hb.
    destruct (perp_loop empty 0 (Some <$> names)) as [m1 ok]. simpl in Hok, Hb. subst ok.
    split; [by apply spot_loop_below|].
    by apply (spot_loop_entry spots Hno m1 0%nat k name). }
  clearbody m'. destruct Hbelow as (H1 & H2 & H3 & H4).
  assert (∀ {A} (x : option A), ¬ is_Some x → x = None) as Hnone
    by (intros A [a|] Hx; [destruct Hx; by exists a|done]).
  assert (all_tokens m' !! at_key k = None) as Ha.
  { apply Hnone. intros Hs. destruct (H1 k Hs); lia. }
  assert (perp_map m' !! at_key k = None) as Hp.
  { apply Hnone. intros Hs. specialize (H2 k Hs). lia. }
  assert (spot_map m' !! at_key k = None) as Hs.
  { apply Hnone. intros Hs. specialize (H3 k Hs). lia. }
  assert (index_to_name m' !! at_key k = None) as Hi.
  { apply Hnone. intros Hx. destruct (H4 k Hx); lia. }
  assert (resolve m' (at_key k) = Some name) as Hres.
  { unfold resolve. rewrite upper_at_key, Ha, Hp, Hs, Hi.
    change (tail (at_key k)) with (pretty k).
    change (startswith_at (at_key k)) with true.
    rewrite pretty_isdigit, int_pretty. cbn [andb]. cbv zeta.
    rewrite Hp, Hi, Hentry. by destruct (k <? 1000)%nat. }
  unfold get_coin_name. rewrite at_key_truthy, strip_at_key. cbn [negb]. cbv zeta.
  by rewrite Hres.
Qed.

Lemma spot_key_lookup_witness :
  let names := ["BTC"; "ETH"] in
  let spots := [Str "PURR/USDC"; Str "@1"; NotStr; Str "HFUN"] in
  let m' := fetch_and_cache_mapping empty (Returns (Some <$> names)) (Returns spots) in
  get_coin_name m' "@3" Raises Raises = ("HFUN", m')
  ∧ (get_coin_name m' "@0" Raises Raises).1 = "BTC".
Proof.
  intros names spots m'. split; [|vm_compute; reflexivity].
  apply (spot_key_lookup names spots 3 "HFUN" Raises Raises).
  - by repeat constructor.
  - intros Hin. repeat (apply elem_of_cons in Hin as [Hin|Hin]; [discriminate|]).
    by apply elem_of_nil in Hin.
  - reflexivity.
  - vm_compute. discriminate.
  - reflexivity.
  - unfold spot_index_offset. simpl. lia.
Defined.

End CoinMapperFacts.
